(** * send-stream: the file-system storage (src/file-system-storage.ts)

    A shallow embedding of [FileSystemStorage]: its constructor's
    normalisation of the content-encoding mappings, [parsePath], [open]
    and [close], over a model of the platform pieces the code calls
    ([new URL], [decodeURIComponent], [String.prototype.split],
    [Array.prototype.indexOf], the [fs] module). *)

From Stdlib Require Import ZArith List Bool Lia String Ascii.
Import ListNotations.
Local Open Scope Z_scope.

(* ================================================================== *)
(** * JavaScript strings and arrays *)

(** A JavaScript string is a sequence of UTF-16 code units. *)
Definition jsstr := list N.

Module Js.

Local Open Scope N_scope.

Definition str := jsstr.

(** ASCII literals. *)
Definition lit (s : string) : str :=
  map N_of_ascii (list_ascii_of_string s).

Fixpoint eqb (a b : str) : bool :=
  match a, b with
  | [], [] => true
  | x :: a', y :: b' => (x =? y) && eqb a' b'
  | _, _ => false
  end.

(** [s.startsWith(c)] for a one-unit needle. *)
Definition startsWith (c : N) (s : str) : bool :=
  match s with
  | x :: _ => x =? c
  | [] => false
  end.

(** [s.split(sep)] for a one-unit separator. *)
Fixpoint split (sep : N) (s : str) : list str :=
  match s with
  | [] => [[]]
  | c :: r =>
      if c =? sep then [] :: split sep r
      else match split sep r with
           | h :: t => (c :: h) :: t
           | [] => [[c]]
           end
  end.

(** [arr.indexOf(x, from)]: the first index at or after [from] holding
    [x], or [-1]. *)
Fixpoint indexOf_at (x : str) (arr : list str) (from : nat) (i : Z) : Z :=
  match arr with
  | [] => (-1)%Z
  | y :: r =>
      match from with
      | O => if eqb y x then i else indexOf_at x r O (i + 1)%Z
      | S k => indexOf_at x r k (i + 1)%Z
      end
  end.

Definition indexOf (x : str) (from : nat) (arr : list str) : Z :=
  indexOf_at x arr from 0%Z.

(** [arr.slice(0, -1)]. *)
Definition slice_0_m1 (arr : list str) : list str := removelast arr.

(** A regular expression object, used through [test] and as the
    pattern of [String.prototype.replace]: [replace s r] is
    [s.replace(this, r)].  [test] and [replace] are the calls with
    [lastIndex] at 0, where an expression without the g and y flags
    always has it.  [lastIndexed] is [None] for an expression without
    these flags; for one with the g or the y flag it answers, for the
    [lastIndex] of the object and a string, the end of the match found
    from there, if there is one. *)
Record RegExp := {
  test : str -> bool;
  replace : str -> str -> str;
  lastIndexed : option (nat -> str -> option nat)
}.

(** [this.test(s)] on the object, with its [lastIndex] before and
    after the call.  Without the g and y flags [lastIndex] is neither
    read nor written; with one of them the match is looked for from
    [lastIndex], which becomes the end of the match, or 0 when there
    is none. *)
Definition test_at (re : RegExp) (lastIndex : nat) (s : str) : bool * nat :=
  match lastIndexed re with
  | None => (test re s, lastIndex)
  | Some exec =>
      match exec lastIndex s with
      | Some e => (true, e)
      | None => (false, O)
      end
  end.

End Js.

Notation "` s" := (Js.lit s) (at level 1, format "` s").

(** Code units the parsers look at. *)
Definition SLASH : N := 47.
Definition BACKSLASH : N := 92.
Definition QUESTION : N := 63.
Definition HASH : N := 35.
Definition PERCENT : N := 37.
Definition DOT : N := 46.

(* ================================================================== *)
(** * Platform: [new URL('http://localhost' + path)]

    The WHATWG URL parser on an input ["http://localhost" ++ path] where
    [path] starts with ['/']: the scheme and host states consume
    ["http://localhost"], the path start state consumes the ['/'], and
    the path, query and fragment states run over the rest.  Only
    [pathname] and [search] are read by the storage. *)
Module Url.

Local Open Scope N_scope.

(** Upper-case hexadecimal digit of a nibble. *)
Definition hex_digit (n : N) : N := if n <? 10 then 48 + n else 55 + n.

Definition percent_encode_byte (b : N) : jsstr :=
  [PERCENT; hex_digit (b / 16); hex_digit (b mod 16)].

(** UTF-8 bytes of a scalar value. *)
Definition utf8_encode (cp : N) : list N :=
  if cp <? 128 then [cp]
  else if cp <? 2048 then [192 + cp / 64; 128 + cp mod 64]
  else if cp <? 65536 then
    [224 + cp / 4096; 128 + (cp / 64) mod 64; 128 + cp mod 64]
  else
    [240 + cp / 262144; 128 + (cp / 4096) mod 64;
     128 + (cp / 64) mod 64; 128 + cp mod 64].

Definition is_high_surrogate (c : N) : bool := (55296 <=? c) && (c <=? 56319).
Definition is_low_surrogate (c : N) : bool := (56320 <=? c) && (c <=? 57343).

(** Conversion of the code units to scalar values (a USVString): a
    surrogate pair is one code point, a lone surrogate is U+FFFD. *)
Fixpoint to_scalars (s : jsstr) : list N :=
  match s with
  | [] => []
  | c :: r =>
      if is_high_surrogate c then
        match r with
        | d :: r' =>
            if is_low_surrogate d
            then (65536 + (c - 55296) * 1024 + (d - 56320)) :: to_scalars r'
            else 65533 :: to_scalars r
        | [] => [65533]
        end
      else if is_low_surrogate c then 65533 :: to_scalars r
      else c :: to_scalars r
  end.

Definition is_c0_or_space (c : N) : bool := c <=? 32.
Definition is_tab_or_newline (c : N) : bool :=
  (c =? 9) || (c =? 10) || (c =? 13).

(** Trailing C0 controls and spaces are stripped (the leading ones
    cannot occur: the input starts with ["http"]). *)
Fixpoint strip_trailing (s : list N) : list N :=
  match s with
  | [] => []
  | c :: r =>
      match strip_trailing r with
      | [] => if is_c0_or_space c then [] else [c]
      | r' => c :: r'
      end
  end.

Definition preprocess (s : jsstr) : list N :=
  filter (fun c => negb (is_tab_or_newline c)) (strip_trailing (to_scalars s)).

(** The percent-encode sets of the URL standard.  (The circumflex is a
    late addition to the path set; a parser without it differs only in
    which strings holding one count as normalized.) *)
Definition in_c0_control_set (c : N) : bool := (c <=? 31) || (126 <? c).
Definition in_query_set (c : N) : bool :=
  in_c0_control_set c
  || (c =? 32) || (c =? 34) || (c =? HASH) || (c =? 60) || (c =? 62).
Definition in_special_query_set (c : N) : bool :=
  in_query_set c || (c =? 39).
Definition in_path_set (c : N) : bool :=
  in_query_set c
  || (c =? QUESTION) || (c =? 94) || (c =? 96) || (c =? 123) || (c =? 125).

(** UTF-8 percent-encode a code point using a percent-encode set. *)
Definition percent_encode (set : N -> bool) (c : N) : jsstr :=
  if set c then flat_map percent_encode_byte (utf8_encode c) else [c].

(** ASCII case-insensitive match with ["%2e"]. *)
Definition is_pct_2e (a b c : N) : bool :=
  (a =? PERCENT) && (b =? 50) && ((c =? 101) || (c =? 69)).

Definition is_single_dot (buf : jsstr) : bool :=
  match buf with
  | [a] => a =? DOT
  | [a; b; c] => is_pct_2e a b c
  | _ => false
  end.

Definition is_double_dot (buf : jsstr) : bool :=
  match buf with
  | [a; b] => (a =? DOT) && (b =? DOT)
  | [a; b; c; d] =>
      ((a =? DOT) && is_pct_2e b c d) || (is_pct_2e a b c && (d =? DOT))
  | [a; b; c; d; e; f] => is_pct_2e a b c && is_pct_2e d e f
  | _ => false
  end.

(** What the path state does with the buffer when a segment ends;
    [at_slash] tells whether the segment was ended by ['/'] or ['\']
    (and not by ['?'], ['#'] or the end of the input). *)
Definition end_segment (at_slash : bool) (path : list jsstr) (buf : jsstr)
  : list jsstr :=
  if is_double_dot buf then
    let shortened := removelast path in
    if at_slash then shortened else shortened ++ [[]]
  else if is_single_dot buf then
    if at_slash then path else path ++ [[]]
  else path ++ [buf].

(** Query state: up to ['#'] or the end of the input. *)
Fixpoint query_state (input : list N) : jsstr :=
  match input with
  | [] => []
  | c :: r =>
      if c =? HASH then []
      else percent_encode in_special_query_set c ++ query_state r
  end.

(** Path state; the result is the URL's path and its query. *)
Fixpoint path_state (input : list N) (path : list jsstr) (buf : jsstr)
  : list jsstr * jsstr :=
  match input with
  | [] => (end_segment false path buf, [])
  | c :: r =>
      if (c =? SLASH) || (c =? BACKSLASH) then
        path_state r (end_segment true path buf) []
      else if c =? QUESTION then (end_segment false path buf, query_state r)
      else if c =? HASH then (end_segment false path buf, [])
      else path_state r path (buf ++ percent_encode in_path_set c)
  end.

Record t := { pathname : jsstr; search : jsstr }.

Definition serialize_path (path : list jsstr) : jsstr :=
  flat_map (fun seg => SLASH :: seg) path.

(** [new URL('http://localhost' + path)] for a [path] that starts
    with ['/']. *)
Definition parse (path : jsstr) : t :=
  match preprocess path with
  | [] => {| pathname := [SLASH]; search := [] |}
  | _ :: rest =>
      let '(segs, query) := path_state rest [] [] in
      {| pathname := serialize_path segs;
         search := match query with [] => [] | _ => QUESTION :: query end |}
  end.

(** Where the query starts: the reference up to its first question
    mark. *)
Fixpoint before_query (s : jsstr) : jsstr :=
  match s with
  | [] => []
  | c :: r => if c =? QUESTION then [] else c :: before_query r
  end.

(** No separator and no question mark. *)
Definition clean (s : jsstr) : Prop :=
  Forall (fun x => x <> SLASH /\ x <> QUESTION) s.

(** A segment the path state may put in the path: no dot segment in
    any spelling, no separator. *)
Definition good_seg (seg : jsstr) : Prop :=
  is_single_dot seg = false /\ is_double_dot seg = false /\ clean seg.

End Url.

(* ================================================================== *)
(** * Platform: [decodeURIComponent] *)
Module Uri.

Local Open Scope N_scope.

Definition hex_value (c : N) : option N :=
  if (48 <=? c) && (c <=? 57) then Some (c - 48)
  else if (97 <=? c) && (c <=? 102) then Some (c - 87)
  else if (65 <=? c) && (c <=? 70) then Some (c - 55)
  else None.

Definition hex_octet (h l : N) : option N :=
  match hex_value h, hex_value l with
  | Some a, Some b => Some (16 * a + b)
  | _, _ => None
  end.

(** Number of leading 1 bits of an octet, as far as the decoder
    distinguishes them: 0, 1, 2, 3, 4, or more (5). *)
Definition leading_ones (b : N) : nat :=
  if b <? 128 then 0%nat
  else if b <? 192 then 1%nat
  else if b <? 224 then 2%nat
  else if b <? 240 then 3%nat
  else if b <? 248 then 4%nat
  else 5%nat.

Definition is_cont (b : N) : bool := (128 <=? b) && (b <=? 191).

(** The code point of a well-formed UTF-8 sequence of two to four
    octets (no overlong form, no surrogate, at most U+10FFFF). *)
Definition utf8_code_point (octets : list N) : option N :=
  match octets with
  | [b0; b1] =>
      if (194 <=? b0) && is_cont b1
      then Some ((b0 - 192) * 64 + (b1 - 128)) else None
  | [b0; b1; b2] =>
      let cp := (b0 - 224) * 4096 + (b1 - 128) * 64 + (b2 - 128) in
      if is_cont b1 && is_cont b2 && (2048 <=? cp)
         && negb ((55296 <=? cp) && (cp <=? 57343))
      then Some cp else None
  | [b0; b1; b2; b3] =>
      let cp := (b0 - 240) * 262144 + (b1 - 128) * 4096
                + (b2 - 128) * 64 + (b3 - 128) in
      if is_cont b1 && is_cont b2 && is_cont b3
         && (65536 <=? cp) && (cp <=? 1114111)
      then Some cp else None
  | _ => None
  end.

Definition utf16_encode (cp : N) : jsstr :=
  if cp <? 65536 then [cp]
  else [55296 + (cp - 65536) / 1024; 56320 + (cp - 65536) mod 1024].

(** The decoder: [pending] is [Some (j, octets)] while [j] more
    continuation escapes of a multi-octet sequence are expected.
    [None] as a result is a thrown [URIError]. *)
Fixpoint decode (pending : option (nat * list N)) (s : jsstr)
  : option jsstr :=
  match pending, s with
  | None, [] => Some []
  | Some _, [] => None
  | None, c :: r =>
      if c =? PERCENT then
        match r with
        | h :: l :: r' =>
            match hex_octet h l with
            | None => None
            | Some b =>
                match leading_ones b with
                | 0%nat => option_map (cons b) (decode None r')
                | 2%nat => decode (Some (1%nat, [b])) r'
                | 3%nat => decode (Some (2%nat, [b])) r'
                | 4%nat => decode (Some (3%nat, [b])) r'
                | _ => None
                end
            end
        | _ => None
        end
      else option_map (cons c) (decode None r)
  | Some (j, octets), c :: r =>
      if c =? PERCENT then
        match r with
        | h :: l :: r' =>
            match hex_octet h l with
            | None => None
            | Some b =>
                match j with
                | S (S _ as j') => decode (Some (j', octets ++ [b])) r'
                | _ =>
                    match utf8_code_point (octets ++ [b]) with
                    | None => None
                    | Some cp =>
                        option_map (app (utf16_encode cp)) (decode None r')
                    end
                end
            end
        | _ => None
        end
      else None
  end.

End Uri.

Definition decodeURIComponent (s : jsstr) : option jsstr := Uri.decode None s.

(** [arr.map(decodeURIComponent)]: the first failure throws. *)
Fixpoint map_decodeURIComponent (arr : list jsstr) : option (list jsstr) :=
  match arr with
  | [] => Some []
  | s :: r =>
      match decodeURIComponent s with
      | None => None
      | Some d => option_map (cons d) (map_decodeURIComponent r)
      end
  end.

(* ================================================================== *)
(** * The storage's data (src/file-system-storage-models.ts) *)

(** [FilePath = string | readonly string[]] *)
Inductive FilePath :=
| PathString (s : jsstr)
| PathArray (parts : list jsstr).

(** The errors [parsePath] and [open] throw.  Each carries the fields
    of its class (the message, a rendering of the same data, is left
    out); [FsError] stands for whatever the [fs] module throws and
    [TypeError] for reading a property of [undefined]. *)
Inductive Error :=
| StorageError (path : FilePath)
| MalformedPathError (path : FilePath) (pathParts : list jsstr)
| NotNormalizedError (path : FilePath) (pathParts : list jsstr)
    (normalizedPath : jsstr)
| InvalidPathError (path : FilePath) (pathParts : list jsstr)
| ConsecutiveSlashesError (path : FilePath) (pathParts : list jsstr)
| ForbiddenCharacterError (path : FilePath) (pathParts : list jsstr)
| IgnoredFileError (path : FilePath) (pathParts : list jsstr)
| TrailingSlashError (path : FilePath) (pathParts : list jsstr)
    (untrailedPathParts : list jsstr)
| IsDirectoryError (path : FilePath) (pathParts : list jsstr)
    (resolvedPath : jsstr)
| DoesNotExistError (path : FilePath) (pathParts : list jsstr)
    (resolvedPath : jsstr)
| FsError (code : jsstr)
| TypeError.

(** [onDirectory?: 'serve-index' | 'list-files' | false] *)
Inductive OnDirectory := ServeIndex | ListFiles | OnDirectoryFalse.

(** [ContentEncodingPath] *)
Record ContentEncodingPath := {
  cep_name : jsstr;
  cep_path : jsstr
}.

(** [ContentEncodingMapping], its matcher already a [RegExp] *)
Record ContentEncodingMapping := {
  cem_matcher : Js.RegExp;
  encodings : list ContentEncodingPath
}.

(** [ContentEncodingPreference] *)
Record ContentEncodingPreference := {
  path : jsstr;
  order : Z
}.

(** A JavaScript [Map] with string keys: the entries in insertion
    order, each key once. *)
Module JsMap.
Section WithValue.
Context {V : Type}.

Definition t := list (jsstr * V).

Fixpoint get (k : jsstr) (m : t) : option V :=
  match m with
  | [] => None
  | (k', v) :: r => if Js.eqb k' k then Some v else get k r
  end.

(** [set] on a present key replaces the value where the key stands;
    on an absent one it adds the entry at the end. *)
Fixpoint set (k : jsstr) (v : V) (m : t) : t :=
  match m with
  | [] => [(k, v)]
  | (k', v') :: r =>
      if Js.eqb k' k then (k', v) :: r else (k', v') :: set k v r
  end.

(** [new Map(entries)] *)
Definition of_entries (entries : list (jsstr * V)) : t :=
  fold_left (fun m kv => set (fst kv) (snd kv) m) entries [].
End WithValue.
Arguments t : clear implicits.
End JsMap.

(** [RegexpContentEncodingMapping] *)
Record RegexpContentEncodingMapping := {
  matcher : Js.RegExp;
  encodingPreferences : JsMap.t ContentEncodingPreference;
  identityEncodingPreference : ContentEncodingPreference
}.

(** The fields of a [FileSystemStorage] that [parsePath] and [open]
    read ([false] is [None]). *)
Record FileSystemStorage := {
  root : jsstr;
  contentEncodingMappings : option (list RegexpContentEncodingMapping);
  ignorePattern : option Js.RegExp;
  onDirectory : OnDirectory
}.

(* ================================================================== *)
(** * The constructor's normalisation of the encoding mappings *)

(** [arr.map((x, order) => f x order)] *)
Fixpoint mapi_from {A B} (f : A -> Z -> B) (i : Z) (l : list A) : list B :=
  match l with
  | [] => []
  | x :: r => f x i :: mapi_from f (i + 1) r
  end.

(** [new Map(encodingConfig.encodings.map(({ name, path }, order) =>
    [name, { path, order }]))] *)
Definition declaredPreferences (encodingConfig : ContentEncodingMapping)
  : JsMap.t ContentEncodingPreference :=
  JsMap.of_entries
    (mapi_from (fun e order =>
                  (cep_name e, {| path := cep_path e; order := order |}))
               0 (encodings encodingConfig)).

Definition normalizeMapping (encodingConfig : ContentEncodingMapping)
  : RegexpContentEncodingMapping :=
  let encodingPreferences := declaredPreferences encodingConfig in
  match JsMap.get `"identity" encodingPreferences with
  | Some identityEncodingPreference =>
      {| matcher := cem_matcher encodingConfig;
         encodingPreferences := encodingPreferences;
         identityEncodingPreference := identityEncodingPreference |}
  | None =>
      let identityEncodingPreference :=
        {| path := `"$&";
           order := Z.of_nat (List.length (encodings encodingConfig)) |} in
      {| matcher := cem_matcher encodingConfig;
         encodingPreferences :=
           JsMap.set `"identity" identityEncodingPreference encodingPreferences;
         identityEncodingPreference := identityEncodingPreference |}
  end.

(** [/^\./u], the default [ignorePattern] (it is never the pattern of a
    [replace]). *)
Definition DEFAULT_IGNORE : Js.RegExp :=
  {| Js.test := Js.startsWith DOT;
     Js.replace := fun s _ => s;
     Js.lastIndexed := None |}.

(** The options of the constructor that the modelled fields come from;
    [opt_ignorePattern] is [None] when the option is left undefined. *)
Record FileSystemStorageOptions := {
  opt_contentEncodingMappings : option (list ContentEncodingMapping);
  opt_ignorePattern : option (option Js.RegExp);
  opt_onDirectory : option OnDirectory
}.

Definition constructor (root : jsstr) (opts : FileSystemStorageOptions)
  : FileSystemStorage :=
  {| root := root;
     contentEncodingMappings :=
       option_map (map normalizeMapping) (opt_contentEncodingMappings opts);
     ignorePattern :=
       match opt_ignorePattern opts with
       | None => Some DEFAULT_IGNORE
       | Some p => p
       end;
     onDirectory :=
       match opt_onDirectory opts with
       | None => OnDirectoryFalse
       | Some d => d
       end |}.

(* ================================================================== *)
(** * [parsePath] *)

(** The character class of [FORBIDDEN_CHARACTERS]: slash, question
    mark, angle brackets, backslash, colon, asterisk, bar, double quote,
    U+0000 to U+001F and U+0080 to U+009F.  Every member is a single
    code unit outside the surrogates, so testing code units is testing
    code points (the expression has the u flag). *)
Definition forbidden_unit (c : N) : bool :=
  ((c =? SLASH) || (c =? QUESTION) || (c =? 60) || (c =? 62)
   || (c =? BACKSLASH) || (c =? 58) || (c =? 42) || (c =? 124) || (c =? 34)
   || ((0 <=? c) && (c <=? 31)) || ((128 <=? c) && (c <=? 159)))%N.

Definition FORBIDDEN_CHARACTERS (s : jsstr) : bool := existsb forbidden_unit s.

(** [/^\.\.?$/u] *)
Definition is_dot_or_dotdot (s : jsstr) : bool :=
  Js.eqb s [DOT] || Js.eqb s [DOT; DOT].

Record ParsedPath := {
  pathParts : list jsstr;
  haveTrailingSlash : bool
}.

(** The first half of [parsePath]: from the reference to [pathParts]. *)
Definition decodePath (p : FilePath) : Error + list jsstr :=
  match p with
  | PathString s =>
      if negb (Js.startsWith SLASH s) then inl (StorageError p)
      else
        let u := Url.parse s in
        let pathParts := Js.split SLASH (Url.pathname u) in
        match map_decodeURIComponent pathParts with
        | None => inl (MalformedPathError p pathParts)
        | Some pathParts =>
            let normalizedPath := (Url.pathname u ++ Url.search u)%list in
            if negb (Js.eqb s normalizedPath)
            then inl (NotNormalizedError p pathParts normalizedPath)
            else inr pathParts
        end
  | PathArray pathParts =>
      match pathParts with
      | [] => inl (InvalidPathError p pathParts)
      | first :: _ =>
          if negb (Js.eqb first []) || existsb is_dot_or_dotdot pathParts
          then inl (InvalidPathError p pathParts)
          else inr pathParts
      end
  end.

(** The second half: the checks on [pathParts].  The forbidden
    character test is the truthiness of what [find] answers: a string,
    truthy when it is not empty. *)
Definition checkParts (this : FileSystemStorage) (p : FilePath)
    (pathParts : list jsstr) : Error + ParsedPath :=
  let emptyPartIndex := Js.indexOf [] 1 pathParts in
  if negb (emptyPartIndex =? -1)
     && negb (emptyPartIndex =? Z.of_nat (List.length pathParts) - 1)
  then inl (ConsecutiveSlashesError p pathParts)
  else
    let haveTrailingSlash := negb (emptyPartIndex =? -1) in
    match find FORBIDDEN_CHARACTERS pathParts with
    | Some (_ :: _) => inl (ForbiddenCharacterError p pathParts)
    | _ =>
        let ignored :=
          match ignorePattern this with
          | Some re =>
              match find (Js.test re) pathParts with
              | Some _ => true
              | None => false
              end
          | None => false
          end in
        if ignored then inl (IgnoredFileError p pathParts)
        else if haveTrailingSlash then
          let untrailedPathParts := Js.slice_0_m1 pathParts in
          match onDirectory this with
          | ListFiles =>
              inr {| pathParts := untrailedPathParts;
                     haveTrailingSlash := true |}
          | ServeIndex =>
              inr {| pathParts := untrailedPathParts ++ [`"index.html"];
                     haveTrailingSlash := false |}
          | OnDirectoryFalse =>
              inl (TrailingSlashError p pathParts untrailedPathParts)
          end
        else inr {| pathParts := pathParts; haveTrailingSlash := false |}
    end.

Definition parsePath (this : FileSystemStorage) (p : FilePath)
  : Error + ParsedPath :=
  match decodePath p with
  | inl e => inl e
  | inr pathParts => checkParts this p pathParts
  end.

(* ================================================================== *)
(** * The [fs] module and the imports of [open] *)

Definition Fd := Z.

(** What the storage reads of an [fs.Stats]. *)
Record Stats := {
  isDirectory : bool;
  st_mtimeMs : Z;
  st_size : Z
}.

(** [FSModule]: the promisified [open] (always with [O_RDONLY]), [fstat]
    and [close] over a file-system state [W]; [inl] is a rejection. *)
Class FSModule (W : Type) := {
  fsOpen : jsstr -> W -> (Error + Fd) * W;
  fsFstat : Fd -> W -> (Error + Stats) * W;
  fsClose : Fd -> W -> (Error + unit) * W
}.

(** What [open] imports: [join] of the [path] module, and
    [acceptEncodings] of src/utils.ts (not among the sources), which
    answers the acceptable encodings in the client's order of
    preference from the [accept-encoding] header, the preference map
    and the identity preference. *)
Class Imports := {
  join : jsstr -> list jsstr -> jsstr;
  acceptEncodings :
    option jsstr -> JsMap.t ContentEncodingPreference ->
    ContentEncodingPreference -> list (jsstr * ContentEncodingPreference)
}.

(** [StorageRequestHeaders] *)
Record StorageRequestHeaders := {
  accept_encoding : option jsstr
}.

(** [FileData] *)
Record FileData := {
  fd_pathParts : list jsstr;
  fd_resolvedPath : jsstr;
  fd_fd : Fd;
  fd_stats : Stats
}.

(** [StorageInfo<FileData>]; an absent property is [None]. *)
Record StorageInfo := {
  attachedData : FileData;
  fileName : option jsstr;
  mtimeMs : option Z;
  size : option Z;
  vary : option jsstr;
  contentEncoding : option jsstr;
  mimeType : option jsstr;
  mimeTypeCharset : option jsstr
}.

(* ================================================================== *)
(** * A state and exception monad for the body of [open] *)

Module Exc.
Section WithState.
Context {S : Type}.

(** A computation ends with a value or a thrown error; the state
    it leaves is kept in both cases. *)
Definition M (A : Type) := S -> (Error + A) * S.

Definition ret {A} (a : A) : M A := fun s => (inr a, s).

Definition throw {A} (e : Error) : M A := fun s => (inl e, s).

Definition bind {A B} (m : M A) (k : A -> M B) : M B :=
  fun s =>
    match m s with
    | (inl e, s') => (inl e, s')
    | (inr a, s') => k a s'
    end.

(** [try { m } catch (err) { h err }] *)
Definition try_catch {A} (m : M A) (h : Error -> M A) : M A :=
  fun s =>
    match m s with
    | (inl e, s') => h e s'
    | (inr a, s') => (inr a, s')
    end.

Definition get : M S := fun s => (inr s, s).

Definition modify (f : S -> S) : M unit := fun s => (inr tt, f s).
End WithState.
Arguments M : clear implicits.
End Exc.

Declare Scope exc_scope.
Delimit Scope exc_scope with exc.
Notation "x <- m ;; k" := (Exc.bind m (fun x => k))
  (at level 61, m at next level, right associativity) : exc_scope.
Notation "m ;;; k" := (Exc.bind m (fun _ => k))
  (at level 61, right associativity) : exc_scope.

(* ================================================================== *)
(** * [open] and [close] *)

(** The variables of [open] that its body assigns. *)
Record Locals := {
  l_fd : option Fd;
  l_resolvedPath : jsstr;
  l_stats : option Stats;
  l_vary : option jsstr;
  l_contentEncoding : jsstr
}.

Definition set_fd (v : option Fd) (l : Locals) : Locals :=
  {| l_fd := v; l_resolvedPath := l_resolvedPath l; l_stats := l_stats l;
     l_vary := l_vary l; l_contentEncoding := l_contentEncoding l |}.
Definition set_resolvedPath (v : jsstr) (l : Locals) : Locals :=
  {| l_fd := l_fd l; l_resolvedPath := v; l_stats := l_stats l;
     l_vary := l_vary l; l_contentEncoding := l_contentEncoding l |}.
Definition set_stats (v : option Stats) (l : Locals) : Locals :=
  {| l_fd := l_fd l; l_resolvedPath := l_resolvedPath l; l_stats := v;
     l_vary := l_vary l; l_contentEncoding := l_contentEncoding l |}.
Definition set_vary (v : option jsstr) (l : Locals) : Locals :=
  {| l_fd := l_fd l; l_resolvedPath := l_resolvedPath l; l_stats := l_stats l;
     l_vary := v; l_contentEncoding := l_contentEncoding l |}.
Definition set_contentEncoding (v : jsstr) (l : Locals) : Locals :=
  {| l_fd := l_fd l; l_resolvedPath := l_resolvedPath l; l_stats := l_stats l;
     l_vary := l_vary l; l_contentEncoding := v |}.

(** [arr[arr.length - 1]] *)
Definition last_element (arr : list jsstr) : option jsstr :=
  match arr with
  | [] => None
  | _ => Some (last arr [])
  end.

Section Storage.
Context {W : Type} {FS : FSModule W} {IM : Imports}.

Local Open Scope exc_scope.

(** The state of the body of [open]: its variables and the file
    system. *)
Definition St : Type := Locals * W.

Definition assign (f : Locals -> Locals) : Exc.M St unit :=
  Exc.modify (fun s => (f (fst s), snd s)).

Definition locals : Exc.M St Locals :=
  fun s => (inr (fst s), s).

(** An asynchronous method of the storage, awaited. *)
Definition await {A} (f : W -> (Error + A) * W) : Exc.M St A :=
  fun s => let '(r, w) := f (snd s) in (r, (fst s, w)).

(** [safeOpen]: [undefined] when the file cannot be opened. *)
Definition safeOpen (path : jsstr) (w : W) : (Error + option Fd) * W :=
  match fsOpen path w with
  | (inr fd, w') => (inr (Some fd), w')
  | (inl _, w') => (inr None, w')
  end.

Definition stat (fd : Fd) (_path : jsstr) : W -> (Error + Stats) * W :=
  fsFstat fd.

Definition earlyClose (fd : Fd) (_path : jsstr) : W -> (Error + unit) * W :=
  fsClose fd.

(** The [for ... of acceptableEncodings] loop. *)
Fixpoint probeEncodings (p : FilePath) (pathParts : list jsstr)
    (selectedEncodingMapping : RegexpContentEncodingMapping)
    (acceptableEncodings : list (jsstr * ContentEncodingPreference))
  : Exc.M St unit :=
  match acceptableEncodings with
  | [] => Exc.ret tt
  | (acceptableEncodingName, pref) :: rest =>
      l <- locals ;;
      let encodedPath :=
        Js.replace (matcher selectedEncodingMapping)
                   (l_resolvedPath l) (path pref) in
      fd <- await (safeOpen encodedPath) ;;
      assign (set_fd fd) ;;;
      match fd with
      | None => probeEncodings p pathParts selectedEncodingMapping rest
      | Some directoryFd =>
          stats <- await (stat directoryFd encodedPath) ;;
          assign (set_stats (Some stats)) ;;;
          if isDirectory stats then
            if Js.eqb acceptableEncodingName `"identity" then
              Exc.throw
                (IsDirectoryError p pathParts (l_resolvedPath l))
            else
              assign (set_fd None) ;;;
              assign (set_stats None) ;;;
              await (earlyClose directoryFd encodedPath) ;;;
              probeEncodings p pathParts selectedEncodingMapping rest
          else
            assign (set_contentEncoding acceptableEncodingName) ;;;
            assign (set_resolvedPath encodedPath) ;;;
            Exc.ret tt (* break *)
      end
  end.

(** The mapping [open] selects, if any. *)
Definition selectMapping (this : FileSystemStorage)
    (haveTrailingSlash : bool) (resolvedPath : jsstr)
  : option RegexpContentEncodingMapping :=
  match contentEncodingMappings this with
  | Some encodingsMappings =>
      if negb haveTrailingSlash
      then find (fun encodingMapping =>
                   Js.test (matcher encodingMapping) resolvedPath)
                encodingsMappings
      else None
  | None => None
  end.

(** The body of the [try]; [Some info] is the [return] inside it. *)
Definition tryBody (this : FileSystemStorage) (p : FilePath)
    (requestHeaders : StorageRequestHeaders) (pp : ParsedPath)
  : Exc.M St (option StorageInfo) :=
  let pathParts := pathParts pp in
  let haveTrailingSlash := haveTrailingSlash pp in
  l <- locals ;;
  match selectMapping this haveTrailingSlash (l_resolvedPath l) with
  | Some selectedEncodingMapping =>
      assign (set_vary (Some `"Accept-Encoding")) ;;;
      probeEncodings p pathParts selectedEncodingMapping
        (acceptEncodings (accept_encoding requestHeaders)
           (encodingPreferences selectedEncodingMapping)
           (identityEncodingPreference selectedEncodingMapping)) ;;;
      l <- locals ;;
      match l_fd l, l_stats l with
      | Some _, Some _ => Exc.ret None
      | _, _ =>
          Exc.throw (DoesNotExistError p pathParts (l_resolvedPath l))
      end
  | None =>
      fd <- await (safeOpen (l_resolvedPath l)) ;;
      assign (set_fd fd) ;;;
      match fd with
      | None =>
          Exc.throw (DoesNotExistError p pathParts (l_resolvedPath l))
      | Some fd =>
          stats <- await (stat fd (l_resolvedPath l)) ;;
          assign (set_stats (Some stats)) ;;;
          if isDirectory stats then
            if negb haveTrailingSlash then
              Exc.throw (IsDirectoryError p pathParts (l_resolvedPath l))
            else
              await (earlyClose fd (l_resolvedPath l)) ;;;
              Exc.ret
                (Some
                   {| attachedData :=
                        {| fd_pathParts := pathParts;
                           fd_resolvedPath := l_resolvedPath l;
                           fd_fd := fd;
                           fd_stats := stats |};
                      fileName :=
                        Some
                          ((if (1 <? Z.of_nat (List.length pathParts))
                            then last pathParts []
                            else `"_") ++ `".html")%list;
                      mtimeMs := None;
                      size := None;
                      vary := None;
                      contentEncoding := None;
                      mimeType := Some `"text/html";
                      mimeTypeCharset := Some `"UTF-8" |})
          else if haveTrailingSlash then
            Exc.throw
              (TrailingSlashError p (pathParts ++ [[]])%list pathParts)
          else Exc.ret None
      end
  end.

(** The [catch]: close what is open, then throw the error again. *)
Definition catchClause (err : Error) : Exc.M St (option StorageInfo) :=
  l <- locals ;;
  match l_fd l with
  | Some fd => await (earlyClose fd (l_resolvedPath l))
  | None => Exc.ret tt
  end ;;;
  Exc.throw err.

Definition initialLocals (this : FileSystemStorage) (pp : ParsedPath)
  : Locals :=
  {| l_fd := None;
     l_resolvedPath := join (root this) (pathParts pp);
     l_stats := None;
     l_vary := None;
     l_contentEncoding := `"identity" |}.

(** [open]; the file-system state is threaded through.  The last
    [return] reads [stats.mtimeMs]; the body of the [try] never falls
    through to it without a descriptor and stats (see
    [tryBody_falls_through]). *)
Definition open (this : FileSystemStorage) (p : FilePath)
    (requestHeaders : StorageRequestHeaders) (w : W)
  : (Error + StorageInfo) * W :=
  match parsePath this p with
  | inl e => (inl e, w)
  | inr pp =>
      match Exc.try_catch (tryBody this p requestHeaders pp) catchClause
              (initialLocals this pp, w) with
      | (inl e, (_, w')) => (inl e, w')
      | (inr (Some info), (_, w')) => (inr info, w')
      | (inr None, (l, w')) =>
          match l_fd l, l_stats l with
          | Some fd, Some stats =>
              (inr {| attachedData :=
                        {| fd_pathParts := pathParts pp;
                           fd_resolvedPath := l_resolvedPath l;
                           fd_fd := fd;
                           fd_stats := stats |};
                      fileName := last_element (pathParts pp);
                      mtimeMs := Some (st_mtimeMs stats);
                      size := Some (st_size stats);
                      vary := l_vary l;
                      contentEncoding := Some (l_contentEncoding l);
                      mimeType := None;
                      mimeTypeCharset := None |}, w')
          | _, _ => (inl TypeError, w')
          end
      end
  end.

(** [close] *)
Definition close (storageInfo : StorageInfo) : W -> (Error + unit) * W :=
  fsClose (fd_fd (attachedData storageInfo)).

End Storage.

(* ================================================================== *)
(** * Observing the descriptors: a traced [fs] module *)

(** What a run does to descriptors: a successful [open] and a call of
    [close]. *)
Inductive Event :=
| Opened (fd : Fd)
| CloseCalled (fd : Fd).

(** Any [fs] module, with the events recorded next to its state. *)
Definition Traced {W : Type} (FS : FSModule W) : FSModule (W * list Event) :=
  {| fsOpen := fun p s =>
       match fsOpen p (fst s) with
       | (inr fd, w') => (inr fd, (w', snd s ++ [Opened fd]))
       | (inl e, w') => (inl e, (w', snd s))
       end;
     fsFstat := fun fd s =>
       let '(r, w') := fsFstat fd (fst s) in (r, (w', snd s));
     fsClose := fun fd s =>
       let '(r, w') := fsClose fd (fst s) in
       (r, (w', snd s ++ [CloseCalled fd])) |}.

Fixpoint remove_first (fd : Fd) (held : list Fd) : list Fd :=
  match held with
  | [] => []
  | x :: r => if (x =? fd)%Z then r else x :: remove_first fd r
  end.

(** The descriptors opened and not yet passed to [close], after the
    events [evs], starting from [held]. *)
Fixpoint outstanding (held : list Fd) (evs : list Event) : list Fd :=
  match evs with
  | [] => held
  | Opened fd :: r => outstanding (fd :: held) r
  | CloseCalled fd :: r => outstanding (remove_first fd held) r
  end.

(** The descriptor the variables of [open] hold. *)
Definition held_by (l : Locals) : list Fd :=
  match l_fd l with
  | Some fd => [fd]
  | None => []
  end.

(* ================================================================== *)
(** * What the encoding probe is said to do *)

Inductive ProbeOutcome :=
| Served (name : jsstr) (encodedPath : jsstr) (fd : Fd) (stats : Stats)
| RaisedIsDirectory
| RaisedDoesNotExist.

Section ProbeSpec.
Context {W : Type} {FS : FSModule W}.
Variable m : RegexpContentEncodingMapping.
Variable resolvedPath : jsstr.

Definition candidatePath (pref : ContentEncodingPreference) : jsstr :=
  Js.replace (matcher m) resolvedPath (path pref).

(** The candidates are tried in the order given.  A candidate that
    does not open is passed over; one that opens as a regular file is
    served; one that opens as a directory is closed and passed over,
    unless it is the identity, which raises [IsDirectory] (its
    descriptor closed on the way out); with no candidate left,
    [DoesNotExist] is raised. *)
Inductive Probes
  : list (jsstr * ContentEncodingPreference) -> W -> ProbeOutcome -> W
    -> Prop :=
| Probes_none w :
    Probes [] w RaisedDoesNotExist w
| Probes_absent name pref rest w e w1 o w2 :
    fsOpen (candidatePath pref) w = (inl e, w1) ->
    Probes rest w1 o w2 ->
    Probes ((name, pref) :: rest) w o w2
| Probes_file name pref rest w fd w1 stats w2 :
    fsOpen (candidatePath pref) w = (inr fd, w1) ->
    fsFstat fd w1 = (inr stats, w2) ->
    isDirectory stats = false ->
    Probes ((name, pref) :: rest) w
           (Served name (candidatePath pref) fd stats) w2
| Probes_identity_directory name pref rest w fd w1 stats w2 w3 :
    fsOpen (candidatePath pref) w = (inr fd, w1) ->
    fsFstat fd w1 = (inr stats, w2) ->
    isDirectory stats = true ->
    name = `"identity" ->
    fsClose fd w2 = (inr tt, w3) ->
    Probes ((name, pref) :: rest) w RaisedIsDirectory w3
| Probes_other_directory name pref rest w fd w1 stats w2 w3 o w4 :
    fsOpen (candidatePath pref) w = (inr fd, w1) ->
    fsFstat fd w1 = (inr stats, w2) ->
    isDirectory stats = true ->
    name <> `"identity" ->
    fsClose fd w2 = (inr tt, w3) ->
    Probes rest w3 o w4 ->
    Probes ((name, pref) :: rest) w o w4.
End ProbeSpec.

(** What [open] is said to answer on each outcome of the probe: the
    file served under the encoding's name and the candidate path, with
    [vary] set, or one of the two errors on the resolved path. *)
Definition served_info (parts : list jsstr) (name encodedPath : jsstr)
    (fd : Fd) (stats : Stats) : StorageInfo :=
  {| attachedData :=
       {| fd_pathParts := parts;
          fd_resolvedPath := encodedPath;
          fd_fd := fd;
          fd_stats := stats |};
     fileName := last_element parts;
     mtimeMs := Some (st_mtimeMs stats);
     size := Some (st_size stats);
     vary := Some `"Accept-Encoding";
     contentEncoding := Some name;
     mimeType := None;
     mimeTypeCharset := None |}.


(* ================================================================== *)
(** * A file system with a descriptor table, for concrete runs *)

Module Posix.

(** The entries that exist, by path; the open descriptors, each with
    the path it was opened on; the next descriptor to hand out. *)
Record World := {
  files : list (jsstr * Stats);
  table : list (Fd * jsstr);
  next : Fd
}.

Fixpoint lookup_path (p : jsstr) (l : list (jsstr * Stats)) : option Stats :=
  match l with
  | [] => None
  | (q, st) :: r => if Js.eqb q p then Some st else lookup_path p r
  end.

Fixpoint lookup_fd (fd : Fd) (l : list (Fd * jsstr)) : option jsstr :=
  match l with
  | [] => None
  | (g, p) :: r => if (g =? fd)%Z then Some p else lookup_fd fd r
  end.

Definition ENOENT : Error := FsError `"ENOENT".
Definition EBADF : Error := FsError `"EBADF".

Definition do_open (p : jsstr) (w : World) : (Error + Fd) * World :=
  match lookup_path p (files w) with
  | Some _ =>
      (inr (next w),
       {| files := files w;
          table := (next w, p) :: table w;
          next := (next w + 1)%Z |})
  | None => (inl ENOENT, w)
  end.

Definition do_fstat (fd : Fd) (w : World) : (Error + Stats) * World :=
  match lookup_fd fd (table w) with
  | Some p =>
      match lookup_path p (files w) with
      | Some st => (inr st, w)
      | None => (inl ENOENT, w)
      end
  | None => (inl EBADF, w)
  end.

(** Closing a descriptor that is not open is an error. *)
Definition do_close (fd : Fd) (w : World) : (Error + unit) * World :=
  match lookup_fd fd (table w) with
  | Some _ =>
      (inr tt,
       {| files := files w;
          table := filter (fun e => negb (fst e =? fd)%Z) (table w);
          next := next w |})
  | None => (inl EBADF, w)
  end.

Definition fs : FSModule World :=
  {| fsOpen := do_open; fsFstat := do_fstat; fsClose := do_close |}.

(** Every open descriptor was handed out before. *)
Definition well_formed (w : World) : Prop :=
  Forall (fun e => (fst e < next w)%Z) (table w).

(** [path.join] on a root and parts that are already vetted: the
    non-empty parts after the root, each behind a separator. *)
Definition join_parts (root : jsstr) (parts : list jsstr) : jsstr :=
  (root ++ flat_map (fun s => SLASH :: s)
             (filter (fun s => negb (Js.eqb s [])) parts))%list.

Fixpoint insert_by_order (e : jsstr * ContentEncodingPreference)
    (l : list (jsstr * ContentEncodingPreference))
  : list (jsstr * ContentEncodingPreference) :=
  match l with
  | [] => [e]
  | x :: r =>
      if (order (snd e) <? order (snd x))%Z then e :: l
      else x :: insert_by_order e r
  end.

Definition by_declared_order (l : list (jsstr * ContentEncodingPreference))
  : list (jsstr * ContentEncodingPreference) :=
  fold_right insert_by_order [] l.

(** Modelled from the spec: [acceptEncodings] of src/utils.ts is not
    among the sources.  Two headers are modelled: the header [*], under
    which every configured encoding is acceptable with the same weight,
    so that the candidates are the preferences by increasing declared
    order; and a missing header, under which the identity alone is
    acceptable.  Any other header is taken as a missing one here. *)
Definition acceptEncodings_model (header : option jsstr)
    (prefs : JsMap.t ContentEncodingPreference)
    (identityPreference : ContentEncodingPreference)
  : list (jsstr * ContentEncodingPreference) :=
  match header with
  | Some [42%N] => by_declared_order prefs
  | _ => [(`"identity", identityPreference)]
  end.

Definition imports : Imports :=
  {| join := join_parts; acceptEncodings := acceptEncodings_model |}.

Definition regular (sz : Z) : Stats :=
  {| isDirectory := false; st_mtimeMs := 0; st_size := sz |}.
Definition directory : Stats :=
  {| isDirectory := true; st_mtimeMs := 0; st_size := 0 |}.

End Posix.

(* ================================================================== *)
(** * What the properties are stated with *)

(** How the table stands against the one the call started from: as it
    was, but for the descriptor the variables hold. *)
Definition table_holds (w : Posix.World) (l : Locals) (w' : Posix.World)
  : Prop :=
  Posix.files w' = Posix.files w
  /\ Posix.next w <= Posix.next w'
  /\ match l_fd l with
     | Some fd =>
         exists p, Posix.table w' = (fd, p) :: Posix.table w
                   /\ Posix.next w <= fd < Posix.next w'
     | None => Posix.table w' = Posix.table w
     end.

(** The characters the path rules forbid: slash, question mark, angle
    brackets, backslash, colon, asterisk, bar, double quote, U+0000 to
    U+001F and U+0080 to U+009F. *)
Definition forbidden_char (c : N) : Prop :=
  In c [47; 63; 60; 62; 92; 58; 42; 124; 34]%N
  \/ (c <= 31)%N \/ (128 <= c <= 159)%N.

(** A segment that is neither [.] nor [..] and holds no forbidden
    character. *)
Definition safe_segment (seg : jsstr) : Prop :=
  seg <> [DOT] /\ seg <> [DOT; DOT]
  /\ forall c, In c seg -> ~ forbidden_char c.

(** The parts end in exactly one trailing empty segment: an empty part
    stands last, behind the leading part, and no other part behind the
    leading one is empty. *)
Definition one_trailing_empty (parts : list jsstr) : Prop :=
  exists first mid,
    parts = first :: mid ++ [[]] /\ Forall (fun s => s <> []) mid.

(** An empty part stands behind the first part and before the last. *)
Definition inner_empty (parts : list jsstr) : Prop :=
  exists j, (1 <= j)%nat /\ (S j < List.length parts)%nat
            /\ nth_error parts j = Some [].

Section CloseTimes.
Context {W : Type} {FS : FSModule W}.

(** [close] called [n] times in a row; the outcomes, oldest first,
    and the state left. *)
Fixpoint close_times (n : nat) (storageInfo : StorageInfo) (w : W)
  : list (Error + unit) * W :=
  match n with
  | O => ([], w)
  | S k =>
      let '(r, w1) := close storageInfo w in
      let '(rs, w2) := close_times k storageInfo w1 in
      (r :: rs, w2)
  end.

(** The [fs] module's [close] called [n] times in a row on one
    descriptor: what each call answers, oldest first, and the state
    left. *)
Fixpoint fsClose_times (n : nat) (fd : Fd) (w : W)
  : list (Error + unit) * W :=
  match n with
  | O => ([], w)
  | S k =>
      let '(r, w1) := fsClose fd w in
      let '(rs, w2) := fsClose_times k fd w1 in
      (r :: rs, w2)
  end.
End CloseTimes.


(* ================================================================== *)
(** * Concrete storages, requests and file systems *)

Module Demo.

Definition ends_with (suffix s : jsstr) : bool :=
  Js.eqb (firstn (List.length suffix) (rev s)) (rev suffix).

Fixpoint starts_with (prefix s : jsstr) : bool :=
  match prefix, s with
  | [], _ => true
  | x :: p', y :: s' => (x =? y)%N && starts_with p' s'
  | _, _ => false
  end.

(** The replacement patterns [$1] and [$&] filled in with [whole]. *)
Fixpoint expand (pattern whole : jsstr) : jsstr :=
  match pattern with
  | [] => []
  | c :: r =>
      match r with
      | d :: r' =>
          if ((c =? 36) && ((d =? 49) || (d =? 38)))%N
          then (whole ++ expand r' whole)%list
          else c :: expand r whole
      | [] => [c]
      end
  end.

(** The expression that matches a whole path ending in [.json], its
    one group being the whole path. *)
Definition json_matcher : Js.RegExp :=
  {| Js.test := ends_with `".json";
     Js.replace := fun s pattern =>
       if ends_with `".json" s then expand pattern s else s;
     Js.lastIndexed := None |}.

(** The expression that matches a name starting with [index]. *)
Definition index_pattern : Js.RegExp :=
  {| Js.test := starts_with `"index";
     Js.replace := fun s _ => s;
     Js.lastIndexed := None |}.

(** [/^\./gu]: the default pattern with the g flag (never the pattern
    of a [replace]).  Looked for from [lastIndex], the match is the
    leading dot when [lastIndex] is 0, and there is none from any
    other place. *)
Definition dot_global : Js.RegExp :=
  {| Js.test := Js.startsWith DOT;
     Js.replace := fun s _ => s;
     Js.lastIndexed :=
       Some (fun lastIndex s =>
               match lastIndex with
               | O => if Js.startsWith DOT s then Some 1%nat else None
               | S _ => None
               end) |}.

Definition no_options : FileSystemStorageOptions :=
  {| opt_contentEncodingMappings := None;
     opt_ignorePattern := None;
     opt_onDirectory := None |}.

(** A storage with the default options. *)
Definition plain : FileSystemStorage := constructor `"/srv" no_options.

(** A storage that serves the index of a directory and ignores names
    starting with [index]. *)
Definition index_hidden : FileSystemStorage :=
  constructor `"/srv"
    {| opt_contentEncodingMappings := None;
       opt_ignorePattern := Some (Some index_pattern);
       opt_onDirectory := Some ServeIndex |}.

Definition json_mapping : ContentEncodingMapping :=
  {| cem_matcher := json_matcher;
     encodings :=
       [ {| cep_name := `"br"; cep_path := `"$1.br" |};
         {| cep_name := `"gzip"; cep_path := `"$1.gz" |} ] |}.

Definition identity_first_mapping : ContentEncodingMapping :=
  {| cem_matcher := json_matcher;
     encodings :=
       [ {| cep_name := `"identity"; cep_path := `"$1" |};
         {| cep_name := `"gzip"; cep_path := `"$1.gz" |} ] |}.

Definition json_options : FileSystemStorageOptions :=
  {| opt_contentEncodingMappings := Some [json_mapping];
     opt_ignorePattern := None;
     opt_onDirectory := None |}.

Definition identity_first_options : FileSystemStorageOptions :=
  {| opt_contentEncodingMappings := Some [identity_first_mapping];
     opt_ignorePattern := None;
     opt_onDirectory := None |}.

(** A storage with precompressed variants of the JSON files. *)
Definition precompressed : FileSystemStorage :=
  constructor `"/srv" json_options.

(** A storage that lists the files of a directory. *)
Definition listing : FileSystemStorage :=
  constructor `"/srv"
    {| opt_contentEncodingMappings := None;
       opt_ignorePattern := None;
       opt_onDirectory := Some ListFiles |}.

(** A storage that lists the files of a directory, its ignore
    pattern given with the g flag. *)
Definition listing_global : FileSystemStorage :=
  constructor `"/srv"
    {| opt_contentEncodingMappings := None;
       opt_ignorePattern := Some (Some dot_global);
       opt_onDirectory := Some ListFiles |}.

Definition no_headers : StorageRequestHeaders :=
  {| accept_encoding := None |}.

(** The request of a client that accepts every encoding. *)
Definition any_encoding : StorageRequestHeaders :=
  {| accept_encoding := Some `"*" |}.

(** A file system holding a few files and a directory under the
    root, with no descriptor open. *)
Definition disk : Posix.World :=
  {| Posix.files :=
       [ (`"/srv/hello.txt", Posix.regular 5);
         (`"/srv/index.html", Posix.regular 20);
         (`"/srv/data.json", Posix.regular 40);
         (`"/srv/data.json.gz", Posix.regular 30);
       (`"/srv/list.json", Posix.regular 12);
       (`"/srv/list.json.gz", Posix.directory);
         (`"/srv/docs", Posix.directory) ];
     Posix.table := [];
     Posix.next := 3 |}.

End Demo.

(* ================================================================== *)
(** * The directory listing and the streams *)

Definition AMPERSAND : N := 38.

(** The double quote, which the literals below are put together with. *)
Definition QUOTE : jsstr := [34%N].

(** [escapeHTMLInPath]: every ampersand becomes [&amp;]. *)
Definition escapeHTMLInPath (path : jsstr) : jsstr :=
  flat_map (fun c => if (c =? AMPERSAND)%N then `"&amp;" else [c]) path.

(** [arr.join(sep)] for a one-unit separator. *)
Fixpoint Array_join (sep : N) (arr : list jsstr) : jsstr :=
  match arr with
  | [] => []
  | x :: r =>
      match r with
      | [] => x
      | _ => x ++ sep :: Array_join sep r
      end
  end.

(** What the listing reads of an [fs.Dirent]. *)
Record Dirent := {
  d_name : jsstr;
  d_isDirectory : bool
}.

(** What the listing gets of an [fs.Dir] or of the array of
    [readdir]: the entries that the iteration gives, and the error
    that it ends by when reading fails on the way (never for an
    array). *)
Record Dir := {
  dir_entries : list Dirent;
  dir_error : option Error
}.

(** The directory functions of [FSModule]: the optional [opendir] and
    [readdir] with file types, both promisified.  The state is the
    one that the iteration leaves. *)
Class FSDirModule (W : Type) := {
  fsOpendir : option (jsstr -> W -> (Error + Dir) * W);
  fsReaddir : jsstr -> W -> (Error + list Dirent) * W
}.

(** The name shown in the title of the listing. *)
Definition listingDisplayName (pathParts : list jsstr) : jsstr :=
  if (1 <? Z.of_nat (List.length pathParts))
  then escapeHTMLInPath (last pathParts [])
  else `"/".

(** The path shown in the description and the heading. *)
Definition listingDisplay (pathParts : list jsstr) : jsstr :=
  (if (1 <? Z.of_nat (List.length pathParts))
   then escapeHTMLInPath (Array_join SLASH pathParts)
   else []) ++ `"/".

(** The first chunk of the listing. *)
Definition listingHeader (pathParts : list jsstr) : jsstr :=
  `"<!DOCTYPE html><html lang=" ++ QUOTE ++ `"en" ++ QUOTE
  ++ `"><head><meta charset=" ++ QUOTE ++ `"utf-8" ++ QUOTE
  ++ `"><title>" ++ listingDisplayName pathParts
  ++ `"</title><meta name=" ++ QUOTE ++ `"viewport" ++ QUOTE
  ++ `" content=" ++ QUOTE ++ `"width=device-width" ++ QUOTE
  ++ `"><meta name=" ++ QUOTE ++ `"description" ++ QUOTE
  ++ `" content=" ++ QUOTE ++ `"Content of " ++ listingDisplay pathParts
  ++ `" directory" ++ QUOTE ++ `"></head><body><h1>Directory: "
  ++ listingDisplay pathParts ++ `"</h1><ul>"
  ++ (if (1 <? Z.of_nat (List.length pathParts))
      then `"<li><a href=" ++ QUOTE ++ `".." ++ QUOTE ++ `">..</a></li>"
      else []).

(** The escaped name of an entry, a directory with a slash behind. *)
Definition escapedFilename (file : Dirent) : jsstr :=
  escapeHTMLInPath (d_name file) ++ (if d_isDirectory file then `"/" else []).

(** The chunk of an entry. *)
Definition listingEntry (file : Dirent) : jsstr :=
  `"<li><a href=" ++ QUOTE ++ `"./" ++ escapedFilename file ++ QUOTE
  ++ `">" ++ escapedFilename file ++ `"</a></li>".

Definition listingFooter : jsstr := `"</ul></body></html>".

(** The [for await] loop of [getDirectoryListing]: the chunks it
    yields, and the [lastIndex] of the ignore pattern, which is one
    object for all the entries.  The pattern is not tested on a name
    that holds a forbidden character. *)
Fixpoint listEntries (ignorePattern : option Js.RegExp) (lastIndex : nat)
    (files : list Dirent) : list jsstr * nat :=
  match files with
  | [] => ([], lastIndex)
  | file :: rest =>
      if FORBIDDEN_CHARACTERS (d_name file)
      then listEntries ignorePattern lastIndex rest
      else
        match ignorePattern with
        | Some re =>
            let '(ignored, lastIndex) :=
              Js.test_at re lastIndex (d_name file) in
            if ignored then listEntries ignorePattern lastIndex rest
            else
              let '(chunks, lastIndex) :=
                listEntries ignorePattern lastIndex rest in
              (listingEntry file :: chunks, lastIndex)
        | None =>
            let '(chunks, lastIndex) :=
              listEntries ignorePattern lastIndex rest in
            (listingEntry file :: chunks, lastIndex)
        end
  end.

(** [createReadStream] is called with a path and these options. *)
Record ReadStreamOptions := {
  rs_fd : Fd;
  rs_autoClose : bool;
  rs_range : option (Z * Z)
}.

(** The two kinds of stream [createReadableStream] answers: one made
    from the listing generator of a [StorageInfo], one made by the
    [fs] module's [createReadStream]. *)
Inductive ReadableSource :=
| FromListing (storageInfo : StorageInfo)
| FromReadStream (path : jsstr) (options : ReadStreamOptions).

(** [createReadableStream] *)
Definition createReadableStream (storageInfo : StorageInfo)
    (range : option (Z * Z)) (autoClose : bool) : ReadableSource :=
  if isDirectory (fd_stats (attachedData storageInfo))
  then FromListing storageInfo
  else FromReadStream (fd_resolvedPath (attachedData storageInfo))
         {| rs_fd := fd_fd (attachedData storageInfo);
            rs_autoClose := autoClose;
            rs_range := range |}.

Section Listing.
Context {W : Type} {FD : FSDirModule W}.

(** [opendir] *)
Definition opendir (storageInfo : StorageInfo) (w : W) : (Error + Dir) * W :=
  match fsOpendir with
  | Some f => f (fd_resolvedPath (attachedData storageInfo)) w
  | None =>
      match fsReaddir (fd_resolvedPath (attachedData storageInfo)) w with
      | (inr files, w') =>
          (inr {| dir_entries := files; dir_error := None |}, w')
      | (inl e, w') => (inl e, w')
      end
  end.

(** [getDirectoryListing]: the chunks yielded and the error the
    generator ends with, if any; with the state of the [fs] module the
    [lastIndex] of the ignore pattern is threaded through.  The header
    is yielded before the directory is opened; the footer is reached
    only when the iteration ends without an error. *)
Definition getDirectoryListing (this : FileSystemStorage)
    (storageInfo : StorageInfo) (lastIndex : nat) (w : W)
  : (list jsstr * option Error) * (nat * W) :=
  let header := listingHeader (fd_pathParts (attachedData storageInfo)) in
  match opendir storageInfo w with
  | (inl e, w') => (([header], Some e), (lastIndex, w'))
  | (inr files, w') =>
      let '(chunks, lastIndex) :=
        listEntries (ignorePattern this) lastIndex (dir_entries files) in
      match dir_error files with
      | Some e => ((header :: chunks, Some e), (lastIndex, w'))
      | None =>
          ((header :: chunks ++ [listingFooter], None), (lastIndex, w'))
      end
  end.

End Listing.

(* ================================================================== *)
(** * More that the properties are stated with *)

(** The storage with another [onDirectory]. *)
Definition with_onDirectory (this : FileSystemStorage) (d : OnDirectory)
  : FileSystemStorage :=
  {| root := root this;
     contentEncodingMappings := contentEncodingMappings this;
     ignorePattern := ignorePattern this;
     onDirectory := d |}.

(** The code units of a JavaScript string are below 2^16. *)
Definition code_units (s : jsstr) : Prop := Forall (fun c => (c < 65536)%N) s.

(** A character that the path state puts into the segment as it is:
    outside the path percent-encode set, and no separator. *)
Definition stable_path (c : N) : Prop :=
  Url.in_path_set c = false /\ c <> SLASH /\ c <> BACKSLASH.

(** A character that the query state keeps as it is. *)
Definition stable_query (c : N) : Prop :=
  Url.in_special_query_set c = false.

(** No angle bracket and no double quote. *)
Definition markup_free (s : jsstr) : Prop :=
  Forall (fun c => c <> 60%N /\ c <> 62%N /\ c <> 34%N) s.

(** Every ampersand starts [&amp;]. *)
Fixpoint amp_escaped (s : jsstr) : bool :=
  match s with
  | [] => true
  | c :: r =>
      (negb (c =? AMPERSAND)%N || Demo.starts_with `"amp;" r)
      && amp_escaped r
  end.

(** The inverse of the escaping: [&amp;] back to the ampersand. *)
Fixpoint unescapeHTMLInPath (s : jsstr) : jsstr :=
  match s with
  | [] => []
  | c :: r =>
      match r with
      | a :: m :: p :: semi :: r' =>
          if ((c =? AMPERSAND) && (a =? 97) && (m =? 109) && (p =? 112)
              && (semi =? 59))%N
          then AMPERSAND :: unescapeHTMLInPath r'
          else c :: unescapeHTMLInPath r
      | _ => c :: unescapeHTMLInPath r
      end
  end.

(** The ignore pattern keeps no [lastIndex]: there is none, or it has
    neither the g nor the y flag. *)
Definition stateless (ignorePattern : option Js.RegExp) : Prop :=
  match ignorePattern with
  | Some re => Js.lastIndexed re = None
  | None => True
  end.

(** [parsePath] accepts the array. *)
Definition serves (this : FileSystemStorage) (parts : list jsstr) : bool :=
  match parsePath this (PathArray parts) with
  | inr _ => true
  | inl _ => false
  end.

(** [a] is [b] with some elements left out. *)
Inductive subsequence {A : Type} : list A -> list A -> Prop :=
| subsequence_nil : subsequence [] []
| subsequence_skip x a b : subsequence a b -> subsequence a (x :: b)
| subsequence_keep x a b : subsequence a b -> subsequence (x :: a) (x :: b).

(** A directory read through [readdir]: a file, a hidden file and a
    directory. *)
Definition docs_entries : list Dirent :=
  [ {| d_name := `"readme.md"; d_isDirectory := false |};
    {| d_name := `".hidden"; d_isDirectory := false |};
    {| d_name := `"img"; d_isDirectory := true |} ].

Definition docs_dirs : FSDirModule Posix.World :=
  {| fsOpendir := None;
     fsReaddir := fun _ w => (inr docs_entries, w) |}.

(** What a successful [open] of [/docs/] answers. *)
Definition docs_info : StorageInfo :=
  {| attachedData :=
       {| fd_pathParts := [[]; `"docs"];
          fd_resolvedPath := `"/srv/docs";
          fd_fd := 3;
          fd_stats := Posix.directory |};
     fileName := Some `"docs.html";
     mtimeMs := None;
     size := None;
     vary := None;
     contentEncoding := None;
     mimeType := Some `"text/html";
     mimeTypeCharset := Some `"UTF-8" |}.

(** An entry with no forbidden character in its name that the ignore
    pattern, looked for from the start of the name, does not match. *)
Definition listed (ignorePattern : option Js.RegExp) (file : Dirent) : bool :=
  negb (FORBIDDEN_CHARACTERS (d_name file))
  && match ignorePattern with
     | Some re => negb (Js.test re (d_name file))
     | None => true
     end.

(** The largest number of descriptors outstanding at any moment of the
    events [evs], starting with [held]. *)
Fixpoint most_held (held : list Fd) (evs : list Event) : nat :=
  match evs with
  | [] => List.length held
  | Opened fd :: r => Nat.max (List.length held) (most_held (fd :: held) r)
  | CloseCalled fd :: r =>
      Nat.max (List.length held) (most_held (remove_first fd held) r)
  end.

(** An error that [fstat] or [close] of the [fs] module threw. *)
Definition thrown_by_fs {W : Type} {FS : FSModule W} (e : Error) : Prop :=
  exists fd w1 w2,
    fsFstat fd w1 = (inl e, w2) \/ fsClose fd w1 = (inl e, w2).

(* ================================================================== *)
(** * Strings and arrays: basic facts *)

Lemma Js_eqb_eq (a b : jsstr) : Js.eqb a b = true <-> a = b.
Proof.
  revert b; induction a as [|x a IH]; intros [|y b]; simpl; split; intros H;
    try congruence; try discriminate.
  - apply andb_true_iff in H as [H1 H2].
    apply N.eqb_eq in H1. apply IH in H2. congruence.
  - injection H as -> ->. rewrite N.eqb_refl. simpl. now apply IH.
Qed.

Lemma Js_eqb_refl (a : jsstr) : Js.eqb a a = true.
Proof. now apply Js_eqb_eq. Qed.

Lemma Js_eqb_neq (a b : jsstr) : Js.eqb a b = false <-> a <> b.
Proof.
  split.
  - intros H E. apply Js_eqb_eq in E. congruence.
  - intros H. destruct (Js.eqb a b) eqn:E; [|reflexivity].
    apply Js_eqb_eq in E. contradiction.
Qed.

Lemma split_cons (sep : N) (s : jsstr) :
  exists h t, Js.split sep s = h :: t.
Proof.
  induction s as [|c s [h [t IH]]]; simpl.
  - now exists [], [].
  - destruct (c =? sep)%N.
    + now exists [], (Js.split sep s).
    + rewrite IH. now exists (c :: h), t.
Qed.

Lemma split_app_clean (sep : N) (seg y h : jsstr) (t : list jsstr) :
  Forall (fun x => x <> sep) seg ->
  Js.split sep y = h :: t ->
  Js.split sep (seg ++ y) = (seg ++ h) :: t.
Proof.
  intros Hc Hy. induction Hc as [|x seg Hx _ IH]; simpl.
  - exact Hy.
  - apply N.eqb_neq in Hx. rewrite Hx, IH. reflexivity.
Qed.

Lemma Forall_removelast {A} (P : A -> Prop) (l : list A) :
  Forall P l -> Forall P (removelast l).
Proof.
  induction 1 as [|x l Hx Hl IH]; simpl; [constructor|].
  destruct l; [constructor|]. now constructor.
Qed.

Lemma find_none_Forall {A} (f : A -> bool) (l : list A) :
  find f l = None <-> Forall (fun x => f x = false) l.
Proof.
  induction l as [|x l IH]; simpl.
  - split; [constructor | reflexivity].
  - destruct (f x) eqn:E.
    + split; [discriminate|]. intros H. inversion H; congruence.
    + rewrite IH. split; intros H; [now constructor | now inversion H].
Qed.

(* ================================================================== *)
(** * The URL parser keeps dot segments and separators out of the path *)

Module UrlFacts.
Import Url.
Local Open Scope N_scope.

Lemma hex_digit_range (n : N) :
  (48 <= hex_digit n <= 57) \/ 65 <= hex_digit n.
Proof.
  unfold hex_digit. destruct (N.ltb_spec n 10); lia.
Qed.

Lemma percent_encode_byte_clean (b : N) : clean (percent_encode_byte b).
Proof.
  unfold clean, percent_encode_byte, SLASH, QUESTION, PERCENT.
  pose proof (hex_digit_range (b / 16)).
  pose proof (hex_digit_range (b mod 16)).
  repeat constructor; lia.
Qed.

Lemma percent_encode_clean (set : N -> bool) (c : N) :
  c <> SLASH -> c <> QUESTION -> clean (percent_encode set c).
Proof.
  intros H1 H2. unfold percent_encode. destruct (set c).
  - unfold clean. apply Forall_flat_map.
    apply Forall_forall. intros b _. apply percent_encode_byte_clean.
  - repeat constructor; assumption.
Qed.

Lemma good_seg_nil : good_seg [].
Proof. repeat split; constructor. Qed.

Lemma end_segment_good (b : bool) (path : list jsstr) (buf : jsstr) :
  Forall good_seg path -> clean buf ->
  Forall good_seg (end_segment b path buf).
Proof.
  intros Hp Hb. unfold end_segment.
  destruct (is_double_dot buf) eqn:Ed.
  - destruct b.
    + now apply Forall_removelast.
    + apply Forall_app. split; [now apply Forall_removelast|].
      constructor; [apply good_seg_nil | constructor].
  - destruct (is_single_dot buf) eqn:Es.
    + destruct b; [assumption|].
      apply Forall_app. split; [assumption|].
      constructor; [apply good_seg_nil | constructor].
    + apply Forall_app. split; [assumption|].
      constructor; [now repeat split | constructor].
Qed.

Lemma path_state_good (input : list N) :
  forall path buf,
    Forall good_seg path -> clean buf ->
    Forall good_seg (fst (path_state input path buf)).
Proof.
  induction input as [|c r IH]; intros path buf Hp Hb; simpl.
  - now apply end_segment_good.
  - destruct ((c =? SLASH) || (c =? BACKSLASH)) eqn:E1.
    + apply IH; [now apply end_segment_good | constructor].
    + apply orb_false_iff in E1 as [E1 _]. apply N.eqb_neq in E1.
      destruct (c =? QUESTION) eqn:E2; [now apply end_segment_good|].
      apply N.eqb_neq in E2.
      destruct (c =? HASH); [now apply end_segment_good|].
      apply IH; [assumption|].
      apply Forall_app. split; [assumption|].
      now apply percent_encode_clean.
Qed.

(** Splitting the serialised path on the separator gives back the
    leading empty part and the segments. *)
Lemma split_serialize_path (segs : list jsstr) :
  Forall (fun seg => Forall (fun x => x <> SLASH) seg) segs ->
  Js.split SLASH (serialize_path segs) = [] :: segs.
Proof.
  induction 1 as [|seg segs Hs _ IH]; simpl; [reflexivity|].
  f_equal.
  rewrite (split_app_clean SLASH seg _ [] segs Hs IH).
  now rewrite app_nil_r.
Qed.

Lemma good_seg_no_slash (segs : list jsstr) :
  Forall good_seg segs ->
  Forall (fun seg => Forall (fun x => x <> SLASH) seg) segs.
Proof.
  apply Forall_impl. intros seg (_ & _ & Hc).
  eapply Forall_impl; [|exact Hc]. now intros x [H _].
Qed.

(** The parts [parsePath] splits off the pathname. *)
Lemma parse_pathname_parts (s : jsstr) :
  exists segs,
    Forall good_seg segs /\
    pathname (parse s) = serialize_path segs /\
    Js.split SLASH (pathname (parse s)) = [] :: segs.
Proof.
  unfold parse. destruct (preprocess s) as [|c0 rest].
  - exists [[]]. simpl. repeat split.
    constructor; [apply good_seg_nil | constructor].
  - pose proof (path_state_good rest [] [] (Forall_nil _) (Forall_nil _)) as H.
    destruct (path_state rest [] []) as [segs query]. simpl in *.
    exists segs. repeat split; [assumption|].
    apply split_serialize_path. now apply good_seg_no_slash.
Qed.

End UrlFacts.

(* ================================================================== *)
(** * What decodes to a dot segment is a dot segment *)

Module UriFacts.
Import Uri.
Local Open Scope N_scope.

Lemma hex_value_spec (c v : N) :
  hex_value c = Some v ->
  (48 <= c <= 57 /\ v + 48 = c) \/ (97 <= c <= 102 /\ v + 87 = c)
  \/ (65 <= c <= 70 /\ v + 55 = c).
Proof.
  unfold hex_value.
  destruct (N.leb_spec 48 c), (N.leb_spec c 57); simpl;
    try (intros [= <-]; lia);
    destruct (N.leb_spec 97 c), (N.leb_spec c 102); simpl;
    try (intros [= <-]; lia);
    destruct (N.leb_spec 65 c), (N.leb_spec c 70); simpl;
    try (intros [= <-]; lia); discriminate.
Qed.

Lemma hex_octet_dot (h l : N) :
  hex_octet h l = Some DOT -> h = 50 /\ (l = 101 \/ l = 69).
Proof.
  unfold hex_octet, DOT.
  destruct (hex_value h) as [a|] eqn:Ea; [|discriminate].
  destruct (hex_value l) as [b|] eqn:Eb; [|discriminate].
  apply hex_value_spec in Ea. apply hex_value_spec in Eb.
  intros H. assert (E : 16 * a + b = 46) by congruence. lia.
Qed.

Lemma utf8_code_point_ge (octets : list N) (cp : N) :
  utf8_code_point octets = Some cp -> 128 <= cp.
Proof.
  unfold utf8_code_point.
  destruct octets as [|b0 [|b1 [|b2 [|b3 [|b4 r]]]]]; try discriminate.
  - set (v := (b0 - 192) * 64 + (b1 - 128)).
    unfold is_cont.
    destruct (N.leb_spec 194 b0), (N.leb_spec 128 b1), (N.leb_spec b1 191);
      cbn [andb]; try discriminate.
    intros [= <-]. subst v. lia.
  - set (v := (b0 - 224) * 4096 + (b1 - 128) * 64 + (b2 - 128)).
    destruct (is_cont b1 && is_cont b2); cbn [andb]; [|discriminate].
    destruct (N.leb_spec 2048 v); cbn [andb]; [|discriminate].
    destruct (negb ((55296 <=? v) && (v <=? 57343))); [|discriminate].
    intros [= <-]. lia.
  - set (v := (b0 - 240) * 262144 + (b1 - 128) * 4096
              + (b2 - 128) * 64 + (b3 - 128)).
    destruct (is_cont b1 && is_cont b2 && is_cont b3); cbn [andb];
      [|discriminate].
    destruct (N.leb_spec 65536 v); cbn [andb]; [|discriminate].
    destruct (v <=? 1114111); [|discriminate].
    intros [= <-]. lia.
Qed.

Lemma utf16_encode_head (cp : N) :
  128 <= cp -> exists u r, utf16_encode cp = u :: r /\ 128 <= u.
Proof.
  intros H. unfold utf16_encode. destruct (cp <? 65536).
  - now exists cp, [].
  - eexists _, _. split; [reflexivity|].
    generalize ((cp - 65536) / 1024). intros q. lia.
Qed.

(** Inside a multi-octet sequence the decoder can only go on to a
    code unit outside ASCII. *)
Lemma decode_pending (j : nat) :
  forall octets s out,
    decode (Some (j, octets)) s = Some out ->
    exists u r, out = u :: r /\ 128 <= u.
Proof.
  assert (Hfin : forall octets b r' out,
             match utf8_code_point (octets ++ [b]) with
             | None => None
             | Some cp => option_map (app (utf16_encode cp)) (decode None r')
             end = Some out ->
             exists u r, out = u :: r /\ 128 <= u).
  { intros octets b r' out H.
    destruct (utf8_code_point (octets ++ [b])) as [cp|] eqn:E; [|discriminate].
    apply utf8_code_point_ge in E.
    destruct (utf16_encode_head cp E) as (u & r & Hu & Hge).
    destruct (decode None r') as [d|]; [|discriminate].
    simpl in H. injection H as <-. rewrite Hu. simpl. now exists u, (r ++ d)%list. }
  induction j as [|j IH]; intros octets s out H.
  - destruct s as [|c r]; simpl in H; [discriminate|].
    destruct (c =? PERCENT); [|discriminate].
    destruct r as [|h [|l r']]; try discriminate.
    destruct (hex_octet h l) as [b|]; [|discriminate].
    now apply Hfin in H.
  - destruct s as [|c r]; simpl in H; [discriminate|].
    destruct (c =? PERCENT); [|discriminate].
    destruct r as [|h [|l r']]; try discriminate.
    destruct (hex_octet h l) as [b|]; [|discriminate].
    destruct j as [|j'].
    + now apply Hfin in H.
    + now apply IH in H.
Qed.

Ltac pending_absurd H :=
  apply decode_pending in H; destruct H as (u & r0 & Hu & Hge);
  try discriminate; injection Hu as <- _; unfold DOT in *; lia.

Lemma decode_nil (s : jsstr) : decode None s = Some [] -> s = [].
Proof.
  destruct s as [|c r]; simpl; [reflexivity|].
  destruct (c =? PERCENT).
  - destruct r as [|h [|l r']]; try discriminate.
    destruct (hex_octet h l) as [b|]; [|discriminate].
    destruct (leading_ones b) as [|[|[|[|[|n]]]]]; try discriminate;
      intros H; try (pending_absurd H).
    destruct (decode None r'); discriminate.
  - destruct (decode None r); discriminate.
Qed.

(** The first token of a string whose decoding starts with a dot. *)
Lemma decode_dot_head (s out : jsstr) :
  decode None s = Some (DOT :: out) ->
  (exists s', s = DOT :: s' /\ decode None s' = Some out)
  \/ (exists l s', s = PERCENT :: 50 :: l :: s'
                   /\ (l = 101 \/ l = 69)
                   /\ decode None s' = Some out).
Proof.
  destruct s as [|c r]; simpl; [discriminate|].
  destruct (N.eqb_spec c PERCENT) as [->|Hc].
  - destruct r as [|h [|l r']]; try discriminate.
    destruct (hex_octet h l) as [b|] eqn:Eb; [|discriminate].
    destruct (leading_ones b) as [|[|[|[|[|n]]]]]; try discriminate;
      intros H; try (pending_absurd H).
    destruct (decode None r') as [d|] eqn:Ed; [|discriminate].
    simpl in H. injection H as -> ->.
    apply hex_octet_dot in Eb as [-> Hl].
    right. now exists l, r'.
  - intros H. destruct (decode None r) as [d|] eqn:Ed; [|discriminate].
    simpl in H. injection H as -> ->.
    left. now exists r.
Qed.

Lemma decode_single_dot (s : jsstr) :
  decodeURIComponent s = Some [DOT] -> Url.is_single_dot s = true.
Proof.
  unfold decodeURIComponent. intros H.
  apply decode_dot_head in H as [(s' & -> & H)|(l & s' & -> & Hl & H)];
    apply decode_nil in H; subst s'; simpl.
  - reflexivity.
  - destruct Hl as [-> | ->]; reflexivity.
Qed.

Lemma decode_double_dot (s : jsstr) :
  decodeURIComponent s = Some [DOT; DOT] -> Url.is_double_dot s = true.
Proof.
  unfold decodeURIComponent. intros H.
  apply decode_dot_head in H as [(s' & -> & H)|(l & s' & -> & Hl & H)];
    apply decode_dot_head in H as [(s2 & -> & H)|(l2 & s2 & -> & Hl2 & H)];
    apply decode_nil in H; subst s2;
    repeat match goal with H : _ \/ _ |- _ => destruct H as [-> | ->] end;
    reflexivity.
Qed.

End UriFacts.

(* ================================================================== *)
(** * [parsePath]: what each half guarantees *)

Lemma map_decode_Forall2 (parts ds : list jsstr) :
  map_decodeURIComponent parts = Some ds ->
  Forall2 (fun s d => decodeURIComponent s = Some d) parts ds.
Proof.
  revert ds; induction parts as [|s parts IH]; simpl; intros ds H.
  - injection H as <-. constructor.
  - destruct (decodeURIComponent s) as [d|] eqn:Ed; [|discriminate].
    destruct (map_decodeURIComponent parts) as [ds'|]; [|discriminate].
    simpl in H. injection H as <-. constructor; auto.
Qed.

Lemma is_dot_or_dotdot_false (s : jsstr) :
  is_dot_or_dotdot s = false <-> s <> [DOT] /\ s <> [DOT; DOT].
Proof.
  unfold is_dot_or_dotdot. rewrite orb_false_iff, !Js_eqb_neq. tauto.
Qed.

Lemma good_seg_decodes_no_dot (s d : jsstr) :
  Url.good_seg s -> decodeURIComponent s = Some d ->
  is_dot_or_dotdot d = false.
Proof.
  intros (Hs & Hd & _) H. apply is_dot_or_dotdot_false. split; intros ->.
  - apply UriFacts.decode_single_dot in H. congruence.
  - apply UriFacts.decode_double_dot in H. congruence.
Qed.

(** No part that the first half hands over is [.] or [..], for a string
    as for an array. *)
Lemma decodePath_no_dots (p : FilePath) (parts : list jsstr) :
  decodePath p = inr parts ->
  Forall (fun s => is_dot_or_dotdot s = false) parts.
Proof.
  destruct p as [s|arr]; simpl.
  - destruct (negb (Js.startsWith SLASH s)); [discriminate|].
    destruct (UrlFacts.parse_pathname_parts s) as (segs & Hg & _ & Hsplit).
    rewrite Hsplit.
    destruct (map_decodeURIComponent ([] :: segs)) as [ds|] eqn:Ed;
      [|discriminate].
    destruct (negb _); [discriminate|]. intros [= <-].
    apply map_decode_Forall2 in Ed.
    assert (Hall : Forall Url.good_seg ([] :: segs))
      by (constructor; [apply UrlFacts.good_seg_nil | assumption]).
    clear Hg Hsplit. revert Hall.
    induction Ed as [|x d xs ds' Hx _ IH]; intros Hall; constructor;
      inversion Hall; subst.
    + eapply good_seg_decodes_no_dot; eassumption.
    + now apply IH.
  - destruct arr as [|first rest]; [discriminate|].
    destruct (negb (Js.eqb first []) || existsb is_dot_or_dotdot (first :: rest))
      eqn:E; [discriminate|].
    intros [= <-]. apply orb_false_iff in E as [_ E].
    apply Forall_forall. intros x Hx.
    destruct (is_dot_or_dotdot x) eqn:Ex; [|reflexivity].
    assert (existsb is_dot_or_dotdot (first :: rest) = true)
      by (apply existsb_exists; eauto).
    congruence.
Qed.

(** The first part is the empty string. *)
Lemma decodePath_sentinel (p : FilePath) (parts : list jsstr) :
  decodePath p = inr parts -> exists rest, parts = [] :: rest.
Proof.
  destruct p as [s|arr]; simpl.
  - destruct (negb (Js.startsWith SLASH s)); [discriminate|].
    destruct (UrlFacts.parse_pathname_parts s) as (segs & _ & _ & Hsplit).
    rewrite Hsplit. simpl.
    destruct (map_decodeURIComponent segs) as [ds|]; [|discriminate].
    simpl. destruct (negb _); [discriminate|]. intros [= <-]. now exists ds.
  - destruct arr as [|first rest]; [discriminate|].
    destruct (Js.eqb first []) eqn:E; simpl; [|discriminate].
    apply Js_eqb_eq in E. subst first.
    destruct (existsb _ _); [discriminate|]. intros [= <-]. now exists rest.
Qed.

Lemma indexOf_at_bound (x : jsstr) (arr : list jsstr) :
  forall from i j,
    (from <= j)%nat -> nth_error arr j = Some x ->
    i + Z.of_nat from <= Js.indexOf_at x arr from i <= i + Z.of_nat j.
Proof.
  induction arr as [|y arr IH]; intros from i j Hj Hn.
  - destruct j; discriminate.
  - simpl. destruct from as [|from].
    + destruct (Js.eqb y x) eqn:E; [lia|].
      destruct j as [|j].
      * simpl in Hn. injection Hn as ->. rewrite Js_eqb_refl in E. discriminate.
      * simpl in Hn. specialize (IH 0%nat (i + 1) j (Nat.le_0_l _) Hn). lia.
    + destruct j as [|j]; [lia|]. simpl in Hn.
      specialize (IH from (i + 1) j (proj2 (Nat.succ_le_mono _ _) Hj) Hn). lia.
Qed.

Lemma indexOf_at_none (x : jsstr) (arr : list jsstr) :
  forall from i,
    0 <= i -> Js.indexOf_at x arr from i = -1 ->
    Forall (fun y => y <> x) (skipn from arr).
Proof.
  induction arr as [|y arr IH]; intros from i Hi H.
  - destruct from; constructor.
  - simpl in H. destruct from as [|from]; simpl.
    + destruct (Js.eqb y x) eqn:E; [lia|].
      constructor; [now apply Js_eqb_neq|].
      apply (IH 0%nat (i + 1)); [lia | assumption].
    + apply (IH from (i + 1)); [lia | assumption].
Qed.

Lemma indexOf_at_last (x : jsstr) (mid : list jsstr) :
  forall i,
    Forall (fun y => y <> x) mid ->
    Js.indexOf_at x (mid ++ [x]) 0 i = i + Z.of_nat (List.length mid).
Proof.
  induction mid as [|y mid IH]; intros i H; simpl.
  - rewrite Js_eqb_refl. lia.
  - inversion H as [|? ? Hy Hm]; subst.
    apply Js_eqb_neq in Hy. rewrite Hy, IH by assumption. lia.
Qed.

(** What an accepted reference went through in the second half. *)
Lemma checkParts_accepts (this : FileSystemStorage) (p : FilePath)
    (parts : list jsstr) (r : ParsedPath) :
  checkParts this p parts = inr r ->
  Forall (fun s => FORBIDDEN_CHARACTERS s = false) parts
  /\ (forall re, ignorePattern this = Some re ->
                 Forall (fun s => Js.test re s = false) parts)
  /\ ((Js.indexOf [] 1 parts = -1
       /\ r = {| pathParts := parts; haveTrailingSlash := false |})
      \/ (Js.indexOf [] 1 parts = Z.of_nat (List.length parts) - 1
          /\ ((onDirectory this = ListFiles
               /\ r = {| pathParts := removelast parts;
                         haveTrailingSlash := true |})
              \/ (onDirectory this = ServeIndex
                  /\ r = {| pathParts := removelast parts ++ [`"index.html"];
                            haveTrailingSlash := false |})))).
Proof.
  unfold checkParts.
  destruct (Z.eqb_spec (Js.indexOf [] 1 parts) (-1)) as [Ei|Ei]; simpl.
  - (* no empty part after the first *)
    destruct (find FORBIDDEN_CHARACTERS parts) as [[|c s]|] eqn:Ef;
      try discriminate.
    { apply find_some in Ef as [_ Ef]. discriminate. }
    apply find_none_Forall in Ef.
    destruct (ignorePattern this) as [re|] eqn:Eig.
    + destruct (find (Js.test re) parts) eqn:Et; [discriminate|].
      apply find_none_Forall in Et. intros [= <-].
      split; [assumption|]. split; [now intros re' [= <-]|]. now left.
    + intros [= <-]. split; [assumption|]. split; [discriminate|]. now left.
  - destruct (Z.eqb_spec (Js.indexOf [] 1 parts)
                         (Z.of_nat (List.length parts) - 1)) as [El|El];
      simpl; [|discriminate].
    destruct (find FORBIDDEN_CHARACTERS parts) as [[|c s]|] eqn:Ef;
      try discriminate.
    { apply find_some in Ef as [_ Ef]. discriminate. }
    apply find_none_Forall in Ef.
    assert (Hig : forall (b : bool) X,
               (if b then inl (IgnoredFileError p parts) else X) = inr r ->
               b = false /\ X = inr r)
      by (intros [|] X; [discriminate | auto]).
    intros H. apply Hig in H as [Hb H].
    split; [assumption|]. split.
    + intros re Ere. rewrite Ere in Hb.
      destruct (find (Js.test re) parts) eqn:Et; [discriminate|].
      now apply find_none_Forall in Et.
    + right. split; [assumption|].
      destruct (onDirectory this); try discriminate; injection H as <-; auto.
Qed.

(* ================================================================== *)
(** * Running the body of [open] *)

Ltac exc_run H :=
  cbv beta iota zeta delta
    [Exc.bind Exc.ret Exc.throw Exc.try_catch Exc.modify Exc.get
     locals assign await safeOpen stat earlyClose fst snd] in H.

Ltac exc_run_goal :=
  cbv beta iota zeta delta
    [Exc.bind Exc.ret Exc.throw Exc.try_catch Exc.modify Exc.get
     locals assign await safeOpen stat earlyClose fst snd].

Lemma outstanding_app (a b : list Event) :
  forall held,
    outstanding held (a ++ b) = outstanding (outstanding held a) b.
Proof.
  induction a as [|[fd|fd] a IH]; intros held; simpl; auto.
Qed.

Lemma outstanding_open_close (fd : Fd) :
  outstanding [] [Opened fd; CloseCalled fd] = [].
Proof. simpl. now rewrite Z.eqb_refl. Qed.

(** When nothing is outstanding at the end, whatever was held or opened
    has been passed to [close]. *)
Lemma outstanding_nil_closed (evs : list Event) :
  forall held,
    outstanding held evs = [] ->
    forall fd, In fd held -> In (CloseCalled fd) evs.
Proof.
  induction evs as [|[g|g] evs IH]; intros held H fd Hin; simpl in H.
  - subst held. contradiction.
  - right. apply (IH _ H). now right.
  - destruct (Z.eq_dec g fd) as [->|Hne]; [now left|].
    right. apply (IH _ H).
    clear H IH. induction held as [|x held IHh]; [contradiction|].
    simpl. destruct (Z.eqb_spec x g) as [->|Hx].
    + destruct Hin as [->|Hin]; [contradiction | assumption].
    + destruct Hin as [->|Hin]; [now left | right; auto].
Qed.

Section OpenFacts.
Context {W : Type} {FS : FSModule W} {IM : Imports}.

(** The loop leaves [vary] alone. *)
Lemma probe_vary (p : FilePath) (parts : list jsstr)
    (m : RegexpContentEncodingMapping) cands :
  forall l w r l' w',
    probeEncodings p parts m cands (l, w) = (r, (l', w')) ->
    l_vary l' = l_vary l.
Proof.
  induction cands as [|[name pref] rest IH]; intros l w r l' w' H.
  - cbn in H. injection H as _ <- _. reflexivity.
  - cbn [probeEncodings] in H. exc_run H.
    destruct (fsOpen _ w) as [[e|fd] w1]; exc_run H.
    + apply IH in H. exact H.
    + destruct (fsFstat fd w1) as [[e|st] w2]; exc_run H.
      * injection H as _ <- _. reflexivity.
      * destruct (isDirectory st).
        -- destruct (Js.eqb name _).
           ++ injection H as _ <- _. reflexivity.
           ++ exc_run H. destruct (fsClose fd w2) as [[e|[]] w3]; exc_run H.
              ** injection H as _ <- _. reflexivity.
              ** apply IH in H. exact H.
        -- injection H as _ <- _. reflexivity.
Qed.

(** The [catch] always throws. *)
Lemma catchClause_throws (err : Error) (s : St) :
  exists e s', catchClause err s = (inl e, s').
Proof.
  destruct s as [l w]. unfold catchClause. exc_run_goal.
  destruct (l_fd l) as [fd|].
  - destruct (fsClose fd w) as [[e|[]] w1]; eauto.
  - eauto.
Qed.

Lemma try_catch_inr (body : Exc.M St (option StorageInfo))
    (a : option StorageInfo) (s s' : St) :
  Exc.try_catch body catchClause s = (inr a, s') ->
  body s = (inr a, s').
Proof.
  unfold Exc.try_catch. destruct (body s) as [[e|x] s1]; [|auto].
  destruct (catchClause_throws e s1) as (e' & s2 & ->). discriminate.
Qed.

(** A [return] inside the [try] is the directory listing: no mapping
    was selected, and the result has no [vary]. *)
Lemma tryBody_returns (this : FileSystemStorage) (p : FilePath)
    (h : StorageRequestHeaders) (pp : ParsedPath) l w info l' w' :
  tryBody this p h pp (l, w) = (inr (Some info), (l', w')) ->
  selectMapping this (haveTrailingSlash pp) (l_resolvedPath l) = None
  /\ fd_pathParts (attachedData info) = pathParts pp
  /\ vary info = None.
Proof.
  unfold tryBody. intros H. exc_run H.
  destruct (selectMapping this (haveTrailingSlash pp) (l_resolvedPath l))
    as [m|].
  - exfalso. exc_run H.
    destruct (probeEncodings _ _ _ _ _) as [[e|[]] [l1 w1]]; exc_run H;
      [discriminate|].
    destruct (l_fd l1), (l_stats l1); discriminate.
  - split; [reflexivity|]. exc_run H.
    destruct (fsOpen _ w) as [[e|fd] w1]; exc_run H; [discriminate|].
    destruct (fsFstat fd w1) as [[e|st] w2]; exc_run H; [discriminate|].
    destruct (isDirectory st).
    + destruct (negb (haveTrailingSlash pp)); [discriminate|]. exc_run H.
      destruct (fsClose fd w2) as [[e|[]] w3]; exc_run H; [discriminate|].
      injection H as <- _ _. split; reflexivity.
    + destruct (haveTrailingSlash pp); discriminate.
Qed.

(** Falling out of the [try]: both the descriptor and the stats are
    there, and [vary] is set exactly when a mapping was selected. *)
Lemma tryBody_falls_through (this : FileSystemStorage) (p : FilePath)
    (h : StorageRequestHeaders) (pp : ParsedPath) l w l' w' :
  tryBody this p h pp (l, w) = (inr None, (l', w')) ->
  (exists fd stats, l_fd l' = Some fd /\ l_stats l' = Some stats)
  /\ l_vary l' =
     match selectMapping this (haveTrailingSlash pp) (l_resolvedPath l) with
     | Some _ => Some `"Accept-Encoding"
     | None => l_vary l
     end.
Proof.
  unfold tryBody. intros H. exc_run H.
  destruct (selectMapping this (haveTrailingSlash pp) (l_resolvedPath l))
    as [m|].
  - exc_run H.
    destruct (probeEncodings _ _ _ _ _) as [[e|[]] [l1 w1]] eqn:Ep;
      exc_run H; [discriminate|].
    apply probe_vary in Ep.
    destruct (l_fd l1) as [fd|] eqn:Efd, (l_stats l1) as [st|] eqn:Est;
      try discriminate.
    injection H as <- _. rewrite Efd, Est. split; [eauto|exact Ep].
  - exc_run H.
    destruct (fsOpen _ w) as [[e|fd] w1]; exc_run H; [discriminate|].
    destruct (fsFstat fd w1) as [[e|st] w2]; exc_run H; [discriminate|].
    destruct (isDirectory st).
    + destruct (negb (haveTrailingSlash pp)); [discriminate|]. exc_run H.
      destruct (fsClose fd w2) as [[e|[]] w3]; discriminate.
    + destruct (haveTrailingSlash pp); [discriminate|].
      injection H as <- _. simpl. eauto.
Qed.

(** What a successful [open] answers. *)
Lemma open_succeeds (this : FileSystemStorage) (p : FilePath)
    (h : StorageRequestHeaders) (w w' : W) (info : StorageInfo) :
  open this p h w = (inr info, w') ->
  exists pp,
    parsePath this p = inr pp
    /\ fd_pathParts (attachedData info) = pathParts pp
    /\ vary info =
       match selectMapping this (haveTrailingSlash pp)
               (join (root this) (pathParts pp)) with
       | Some _ => Some `"Accept-Encoding"
       | None => None
       end.
Proof.
  unfold open. destruct (parsePath this p) as [e|pp]; [discriminate|].
  intros H. exists pp. split; [reflexivity|].
  destruct (Exc.try_catch _ _ _) as [[e|[i|]] [l1 w1]] eqn:Et;
    [discriminate| |]; apply try_catch_inr in Et.
  - injection H as <- _.
    apply tryBody_returns in Et as (Hs & Hp & Hv).
    simpl in Hs. rewrite Hs. auto.
  - apply tryBody_falls_through in Et as ((fd & st & Hfd & Hst) & Hv).
    rewrite Hfd, Hst in H. injection H as <- _. simpl in *.
    split; [reflexivity|]. exact Hv.
Qed.

End OpenFacts.

(* ================================================================== *)
(** * The descriptors of a run, over the traced [fs] module *)

Section TracedFacts.
Context {W : Type} (FS : FSModule W) {IM : Imports}.

Ltac traced_run H :=
  exc_run H; cbn [fsOpen fsFstat fsClose Traced fst snd] in H; exc_run H.

(** Entered with no descriptor held, the loop leaves outstanding
    exactly the descriptor it holds in [fd], however it ends. *)
Lemma probe_trace (p : FilePath) (parts : list jsstr)
    (m : RegexpContentEncodingMapping) cands :
  forall l w tr r l' w' tr',
    l_fd l = None ->
    probeEncodings (FS := Traced FS) p parts m cands (l, (w, tr))
    = (r, (l', (w', tr'))) ->
    exists evs, tr' = tr ++ evs /\ outstanding [] evs = held_by l'.
Proof.
  induction cands as [|[name pref] rest IH];
    intros l w tr r l' w' tr' Hl H.
  - cbn in H. injection H as _ <- _ <-. exists [].
    unfold held_by. rewrite Hl, app_nil_r. auto.
  - cbn [probeEncodings] in H. traced_run H.
    destruct (fsOpen _ w) as [[e|fd] w1]; traced_run H.
    + apply IH in H; [exact H | reflexivity].
    + destruct (fsFstat fd w1) as [[e|st] w2]; traced_run H.
      * injection H as _ <- _ <-. now exists [Opened fd].
      * destruct (isDirectory st).
        -- destruct (Js.eqb name _).
           ++ injection H as _ <- _ <-. now exists [Opened fd].
           ++ traced_run H.
              destruct (fsClose fd w2) as [[e|[]] w3]; traced_run H.
              ** injection H as _ <- _ <-.
                 exists [Opened fd; CloseCalled fd].
                 rewrite <- app_assoc. split; [reflexivity|].
                 apply outstanding_open_close.
              ** apply IH in H; [|reflexivity].
                 destruct H as (evs & -> & Hout).
                 exists ([Opened fd; CloseCalled fd] ++ evs).
                 rewrite <- !app_assoc. split; [reflexivity|].
                 now rewrite outstanding_app, outstanding_open_close.
        -- injection H as _ <- _ <-. now exists [Opened fd].
Qed.

(** The body of the [try], when it throws: what is outstanding is
    what [fd] holds, or nothing at all. *)
Lemma tryBody_trace (this : FileSystemStorage) (p : FilePath)
    (h : StorageRequestHeaders) (pp : ParsedPath)
    l w tr e l' w' tr' :
  l_fd l = None ->
  tryBody (FS := Traced FS) this p h pp (l, (w, tr))
  = (inl e, (l', (w', tr'))) ->
  exists evs,
    tr' = tr ++ evs
    /\ (outstanding [] evs = held_by l' \/ outstanding [] evs = []).
Proof.
  unfold tryBody. intros Hl H. exc_run H.
  destruct (selectMapping this (haveTrailingSlash pp) (l_resolvedPath l))
    as [m|].
  - exc_run H.
    destruct (probeEncodings _ _ _ _ _) as [[e1|[]] [l1 [w1 tr1]]] eqn:Ep;
      exc_run H; (apply probe_trace in Ep; [|exact Hl]);
      destruct Ep as (evs & -> & Hout); exists evs.
    + injection H as _ <- _ <-. auto.
    + destruct (l_fd l1), (l_stats l1); try discriminate;
        injection H as _ <- _ <-; auto.
  - traced_run H.
    destruct (fsOpen _ w) as [[e1|fd] w1]; traced_run H.
    + injection H as _ <- _ <-. exists []. rewrite app_nil_r. auto.
    + destruct (fsFstat fd w1) as [[e1|st] w2]; traced_run H.
      * injection H as _ <- _ <-. exists [Opened fd]. auto.
      * destruct (isDirectory st).
        -- destruct (negb (haveTrailingSlash pp)).
           ++ injection H as _ <- _ <-. exists [Opened fd]. auto.
           ++ traced_run H.
              destruct (fsClose fd w2) as [[e1|[]] w3]; traced_run H;
                [|discriminate].
              injection H as _ <- _ <-.
              exists [Opened fd; CloseCalled fd].
              rewrite <- app_assoc. split; [reflexivity|].
              right. apply outstanding_open_close.
        -- destruct (haveTrailingSlash pp); [|discriminate].
           injection H as _ <- _ <-. exists [Opened fd]. auto.
Qed.

(** The [catch] calls [close] on the descriptor that [fd] holds. *)
Lemma catchClause_trace (err : Error) l w tr r l' w' tr' :
  catchClause (FS := Traced FS) err (l, (w, tr)) = (r, (l', (w', tr'))) ->
  tr' = tr ++ match l_fd l with
              | Some fd => [CloseCalled fd]
              | None => []
              end.
Proof.
  unfold catchClause. intros H. exc_run H.
  destruct (l_fd l) as [fd|].
  - traced_run H.
    destruct (fsClose fd w) as [[e|[]] w1]; traced_run H;
      now injection H as _ _ _ <-.
  - injection H as _ _ _ <-. now rewrite app_nil_r.
Qed.

Lemma open_fails_trace (this : FileSystemStorage) (p : FilePath)
    (h : StorageRequestHeaders) w tr e w' tr' :
  open (FS := Traced FS) this p h (w, tr) = (inl e, (w', tr')) ->
  exists evs, tr' = tr ++ evs /\ outstanding [] evs = [].
Proof.
  unfold open. destruct (parsePath this p) as [e0|pp].
  - intros [= _ <- <-]. exists []. now rewrite app_nil_r.
  - unfold Exc.try_catch.
    destruct (tryBody _ _ _ _ _) as [[e1|r1] [l1 [w1 tr1]]] eqn:Eb.
    + apply tryBody_trace in Eb; [|reflexivity].
      destruct Eb as (evs & -> & Hout).
      destruct (catchClause e1 _) as [r2 [l2 [w2 tr2]]] eqn:Ec.
      apply catchClause_trace in Ec. subst tr2.
      intros H.
      assert (tr' = (tr ++ evs) ++ match l_fd l1 with
                                   | Some fd => [CloseCalled fd]
                                   | None => []
                                   end) as ->.
      { destruct r2 as [e2|[i|]]; try (now injection H as _ _ <-).
        destruct (l_fd l2), (l_stats l2); now injection H as _ _ <-. }
      rewrite <- app_assoc. eexists. split; [reflexivity|].
      rewrite outstanding_app. unfold held_by in Hout.
      destruct (l_fd l1) as [fd|]; simpl.
      * destruct Hout as [-> | ->]; simpl; [now rewrite Z.eqb_refl | reflexivity].
      * destruct Hout as [-> | ->]; reflexivity.
    + destruct r1 as [i|]; [discriminate|].
      apply (tryBody_falls_through (FS := Traced FS)) in Eb.
      destruct Eb as ((fd' & st' & -> & ->) & _). discriminate.
Qed.

End TracedFacts.

(* ================================================================== *)
(** * Path parsing: the claims *)

Lemma forbidden_char_unit (c : N) :
  forbidden_char c -> forbidden_unit c = true.
Proof.
  unfold forbidden_char. intros [Hin | [Hlow | [Hlo Hhi]]].
  - simpl in Hin.
    repeat (destruct Hin as [<- | Hin]; [reflexivity|]). contradiction.
  - unfold forbidden_unit.
    replace (c <=? 31)%N with true by (symmetry; now apply N.leb_le).
    replace (0 <=? c)%N with true by (symmetry; apply N.leb_le; lia).
    simpl. now rewrite !orb_true_r.
  - unfold forbidden_unit.
    replace (128 <=? c)%N with true by (symmetry; now apply N.leb_le).
    replace (c <=? 159)%N with true by (symmetry; now apply N.leb_le).
    simpl. now rewrite !orb_true_r.
Qed.

Lemma safe_segment_intro (s : jsstr) :
  is_dot_or_dotdot s = false -> FORBIDDEN_CHARACTERS s = false ->
  safe_segment s.
Proof.
  intros Hd Hf. apply is_dot_or_dotdot_false in Hd as [H1 H2].
  repeat split; try assumption.
  intros c Hin Hc. apply forbidden_char_unit in Hc.
  assert (FORBIDDEN_CHARACTERS s = true)
    by (apply existsb_exists; eauto).
  congruence.
Qed.

Lemma safe_segment_index_html : safe_segment `"index.html".
Proof. apply safe_segment_intro; reflexivity. Qed.

(** What an accepted reference went through, and the parts it is
    answered with. *)
Lemma parsePath_accepts (this : FileSystemStorage) (p : FilePath)
    (pp : ParsedPath) :
  parsePath this p = inr pp ->
  exists parts,
    decodePath p = inr parts
    /\ Forall safe_segment parts
    /\ (forall re, ignorePattern this = Some re ->
                   Forall (fun s => Js.test re s = false) parts)
    /\ (pathParts pp = parts
        \/ (onDirectory this = ListFiles /\ pathParts pp = removelast parts)
        \/ (onDirectory this = ServeIndex
            /\ pathParts pp = removelast parts ++ [`"index.html"])).
Proof.
  unfold parsePath.
  destruct (decodePath p) as [e|parts] eqn:Ed; [discriminate|].
  intros H. exists parts. split; [reflexivity|].
  apply checkParts_accepts in H as (Hf & Hi & Hc).
  apply decodePath_no_dots in Ed.
  split; [|split; [exact Hi|]].
  - rewrite Forall_forall in *. intros s Hs.
    apply safe_segment_intro; auto.
  - destruct Hc as [[_ ->] | [_ [[Ho ->] | [Ho ->]]]]; simpl; auto.
Qed.

(** C1.  The code serves a file that the ignore pattern matches.
    With [serve-index] and an ignore pattern that matches
    [index.html], [open] of the root succeeds, and the resulting path
    parts hold the segment [index.html], which the pattern matches:
    the name put in place of the trailing empty segment is not tested.
    The same file asked for by its name, as a string or as the array
    of the parts that [open] answered, is rejected as ignored. *)
Theorem C1_serve_index_serves_ignored :
  ignorePattern Demo.index_hidden = Some Demo.index_pattern
  /\ onDirectory Demo.index_hidden = ServeIndex
  /\ (exists info w',
        open (FS := Posix.fs) (IM := Posix.imports)
          Demo.index_hidden (PathString `"/") Demo.no_headers Demo.disk
        = (inr info, w')
        /\ fd_pathParts (attachedData info) = [[]; `"index.html"]
        /\ Exists (fun seg => Js.test Demo.index_pattern seg = true)
                  (fd_pathParts (attachedData info)))
  /\ open (FS := Posix.fs) (IM := Posix.imports)
       Demo.index_hidden (PathString `"/index.html") Demo.no_headers
       Demo.disk
     = (inl (IgnoredFileError (PathString `"/index.html")
               [[]; `"index.html"]), Demo.disk)
  /\ open (FS := Posix.fs) (IM := Posix.imports)
       Demo.index_hidden (PathArray [[]; `"index.html"]) Demo.no_headers
       Demo.disk
     = (inl (IgnoredFileError (PathArray [[]; `"index.html"])
               [[]; `"index.html"]), Demo.disk).
Proof.
  split; [reflexivity|]. split; [reflexivity|]. split.
  - eexists. eexists. split; [vm_compute; reflexivity|].
    split; [reflexivity|]. right. left. reflexivity.
  - split; vm_compute; reflexivity.
Qed.

Lemma indexOf_one_trailing (first : jsstr) (mid : list jsstr) :
  Forall (fun s => s <> []) mid ->
  Js.indexOf [] 1 (first :: mid ++ [[]])
  = Z.of_nat (List.length (first :: mid ++ [[]])) - 1.
Proof.
  intros H. unfold Js.indexOf. cbn [Js.indexOf_at].
  rewrite indexOf_at_last by assumption.
  cbn [List.length]. rewrite length_app. cbn [List.length]. lia.
Qed.

(** C5, as the code has it.  For every reference whose parts end in
    exactly one trailing empty segment and pass the forbidden-character
    and ignore checks, [parsePath] goes by [onDirectory]: [false] throws
    [TrailingSlashError] carrying the untrailed parts; [list-files]
    drops the trailing empty segment and marks directory intent;
    [serve-index] puts [index.html] in its place and clears the
    intent. *)
Theorem C5_trailing_slash (this : FileSystemStorage) (p : FilePath)
    (first : jsstr) (mid : list jsstr) :
  let parts := first :: mid ++ [[]] in
  decodePath p = inr parts ->
  Forall (fun s => s <> []) mid ->
  Forall (fun s => FORBIDDEN_CHARACTERS s = false) parts ->
  (forall re, ignorePattern this = Some re ->
              Forall (fun s => Js.test re s = false) parts) ->
  parsePath this p =
  match onDirectory this with
  | OnDirectoryFalse => inl (TrailingSlashError p parts (first :: mid))
  | ListFiles =>
      inr {| pathParts := first :: mid; haveTrailingSlash := true |}
  | ServeIndex =>
      inr {| pathParts := first :: mid ++ [`"index.html"];
             haveTrailingSlash := false |}
  end.
Proof.
  intros parts Hd Hmid Hf Hi. unfold parsePath. rewrite Hd.
  unfold checkParts. subst parts.
  rewrite (indexOf_one_trailing first mid Hmid).
  set (parts := first :: mid ++ [[]]) in *.
  assert (Hne : (Z.of_nat (List.length parts) - 1 =? -1) = false)
    by (apply Z.eqb_neq; subst parts; cbn [List.length]; lia).
  rewrite Hne, Z.eqb_refl. cbn [negb andb].
  apply find_none_Forall in Hf. rewrite Hf.
  assert (Hun : Js.slice_0_m1 parts = first :: mid).
  { unfold Js.slice_0_m1. subst parts.
    change (first :: mid ++ [[]]) with ((first :: mid) ++ [[]]).
    apply removelast_last. }
  destruct (ignorePattern this) as [re|].
  - specialize (Hi re eq_refl). apply find_none_Forall in Hi. rewrite Hi.
    rewrite Hun. destruct (onDirectory this); reflexivity.
  - rewrite Hun. destruct (onDirectory this); reflexivity.
Qed.

Lemma C5_trailing_slash_witness :
  parsePath Demo.plain (PathString `"/docs/")
  = inl (TrailingSlashError (PathString `"/docs/")
           [[]; `"docs"; []] [[]; `"docs"]).
Proof.
  apply (C5_trailing_slash Demo.plain (PathString `"/docs/") [] [`"docs"]).
  - reflexivity.
  - repeat constructor; discriminate.
  - repeat constructor.
  - intros re [= <-]. repeat constructor.
Defined.

(** C5 as stated fails: parts that end in exactly one trailing empty
    segment but hold a forbidden character are rejected with
    [ForbiddenCharacterError], whatever [onDirectory] says. *)
Lemma C5_counterexample :
  let p := PathArray [[]; `"a:b"; []] in
  onDirectory Demo.plain = OnDirectoryFalse
  /\ one_trailing_empty [[]; `"a:b"; []]
  /\ parsePath Demo.plain p
     = inl (ForbiddenCharacterError p [[]; `"a:b"; []])
  /\ forall untrailed,
       parsePath Demo.plain p
       <> inl (TrailingSlashError p [[]; `"a:b"; []] untrailed).
Proof.
  split; [reflexivity|]. split.
  - exists [], [`"a:b"]. split; [reflexivity|].
    repeat constructor; discriminate.
  - split; [reflexivity | discriminate].
Qed.

(** C8, as the code has it.  For every reference that passes the first
    step of [parsePath] (a string that starts with a slash, decodes and
    is normalized; an array that starts with the empty string and holds
    no [.] or [..]) and whose parts hold an empty segment behind the
    first part and before the last, [parsePath] throws
    [ConsecutiveSlashesError]; so an accepted reference has at most one
    empty segment behind the leading one, in the last place; and
    [//todo@txt] is rejected with [ConsecutiveSlashesError]. *)
Theorem C8_consecutive_slashes (this : FileSystemStorage) (p : FilePath)
    (parts : list jsstr) :
  decodePath p = inr parts ->
  (inner_empty parts ->
   parsePath this p = inl (ConsecutiveSlashesError p parts))
  /\ (forall r j,
        parsePath this p = inr r ->
        (1 <= j)%nat -> nth_error parts j = Some [] ->
        S j = List.length parts)
  /\ parsePath this (PathString `"//todo@txt")
     = inl (ConsecutiveSlashesError (PathString `"//todo@txt")
              [[]; []; `"todo@txt"]).
Proof.
  intros Hd. split; [|split; [|reflexivity]].
  - intros (j & Hj1 & Hj2 & Hn).
    unfold parsePath. rewrite Hd. unfold checkParts.
    pose proof (indexOf_at_bound [] parts 1 0 j Hj1 Hn) as Hb.
    fold (Js.indexOf [] 1 parts) in Hb.
    destruct (Z.eqb_spec (Js.indexOf [] 1 parts) (-1)); [lia|].
    destruct (Z.eqb_spec (Js.indexOf [] 1 parts)
                         (Z.of_nat (List.length parts) - 1)); [lia|].
    reflexivity.
  - intros r j Hp Hj Hn. unfold parsePath in Hp. rewrite Hd in Hp.
    apply checkParts_accepts in Hp as (_ & _ & Hc).
    pose proof (indexOf_at_bound [] parts 1 0 j Hj Hn) as Hb.
    fold (Js.indexOf [] 1 parts) in Hb.
    assert (j < List.length parts)%nat
      by (apply nth_error_Some; congruence).
    destruct Hc as [[Hi _] | [Hi _]]; lia.
Qed.

Lemma C8_consecutive_slashes_witness :
  parsePath Demo.plain (PathArray [[]; `"a"; []; `"b"])
  = inl (ConsecutiveSlashesError (PathArray [[]; `"a"; []; `"b"])
           [[]; `"a"; []; `"b"]).
Proof.
  apply (C8_consecutive_slashes Demo.plain
           (PathArray [[]; `"a"; []; `"b"]) [[]; `"a"; []; `"b"]).
  - reflexivity.
  - exists 2%nat. repeat split; simpl; lia.
Defined.

(** C8 as stated fails: an array whose parts hold an empty segment
    behind the first part and before the last, and a [..], is rejected
    in the first step with [InvalidPathError]. *)
Lemma C8_counterexample :
  let p := PathArray [[]; []; `".."] in
  inner_empty [[]; []; `".."]
  /\ parsePath Demo.plain p = inl (InvalidPathError p [[]; []; `".."])
  /\ parsePath Demo.plain p
     <> inl (ConsecutiveSlashesError p [[]; []; `".."]).
Proof.
  split.
  - exists 1%nat. repeat split; simpl; lia.
  - split; [reflexivity | discriminate].
Qed.

(** C4, as the code has it.  For every string reference that starts
    with a slash: if percent-decoding a segment of the URL pathname
    fails, [parsePath] rejects with [MalformedPathError]; if every
    segment decodes and the canonical form (pathname plus search)
    differs from the input, it rejects with [NotNormalizedError] whose
    [normalizedPath] is that canonical form; and
    [/users/../../etc/passwd] is answered with [normalizedPath]
    [/etc/passwd]. *)
Theorem C4_normalization (this : FileSystemStorage) (s : jsstr) :
  Js.startsWith SLASH s = true ->
  let u := Url.parse s in
  let canonical := Url.pathname u ++ Url.search u in
  let raw := Js.split SLASH (Url.pathname u) in
  (map_decodeURIComponent raw = None ->
   parsePath this (PathString s)
   = inl (MalformedPathError (PathString s) raw))
  /\ (forall parts,
        map_decodeURIComponent raw = Some parts ->
        canonical <> s ->
        parsePath this (PathString s)
        = inl (NotNormalizedError (PathString s) parts canonical))
  /\ parsePath this (PathString `"/users/../../etc/passwd")
     = inl (NotNormalizedError (PathString `"/users/../../etc/passwd")
              [[]; `"etc"; `"passwd"] `"/etc/passwd").
Proof.
  intros Hs u canonical raw. split; [|split; [|reflexivity]].
  - intros Hm. unfold parsePath, decodePath. rewrite Hs. cbn [negb].
    fold u. fold raw. now rewrite Hm.
  - intros parts Hm Hne. unfold parsePath, decodePath. rewrite Hs.
    cbn [negb]. fold u. fold raw. rewrite Hm. fold canonical.
    assert (E : Js.eqb s canonical = false)
      by (apply Js_eqb_neq; congruence).
    now rewrite E.
Qed.

Lemma C4_normalization_witness :
  parsePath Demo.plain (PathString `"/a/%2e%2e/b")
  = inl (NotNormalizedError (PathString `"/a/%2e%2e/b") [[]; `"b"] `"/b")
  /\ parsePath Demo.plain (PathString `"/%zz")
     = inl (MalformedPathError (PathString `"/%zz") [[]; `"%zz"]).
Proof.
  split.
  - apply (proj1 (proj2 (C4_normalization Demo.plain `"/a/%2e%2e/b"
                           eq_refl)) [[]; `"b"]).
    + reflexivity.
    + discriminate.
  - apply (proj1 (C4_normalization Demo.plain `"/%zz" eq_refl)).
    reflexivity.
Defined.

(** C4 as stated fails: [/a/../%zz] starts with a slash and differs
    from its canonical form [/%zz], yet it is rejected with
    [MalformedPathError], not [NotNormalizedError]: the decoding of the
    segments is tried first. *)
Lemma C4_counterexample :
  let s := `"/a/../%zz" in
  let u := Url.parse s in
  Js.startsWith SLASH s = true
  /\ Url.pathname u ++ Url.search u = `"/%zz"
  /\ Url.pathname u ++ Url.search u <> s
  /\ parsePath Demo.plain (PathString s)
     = inl (MalformedPathError (PathString s) [[]; `"%zz"])
  /\ forall parts,
       parsePath Demo.plain (PathString s)
       <> inl (NotNormalizedError (PathString s) parts
                 (Url.pathname u ++ Url.search u)).
Proof.
  repeat split; try reflexivity; discriminate.
Qed.

(* ================================================================== *)
(** * Descriptors: the claims *)

(** C2.  Whenever [open] ends by throwing, whatever the [fs] module
    does, every descriptor the call opened has been passed to [close]
    before the error leaves [open]: the events of the call leave no
    descriptor outstanding, and behind each successful open of a
    descriptor stands a call of [close] on it. *)
Theorem C2_open_failure_releases {W : Type} (FS : FSModule W) {IM : Imports}
    (this : FileSystemStorage) (p : FilePath) (h : StorageRequestHeaders)
    (w w' : W) (tr tr' : list Event) (e : Error) :
  open (FS := Traced FS) this p h (w, tr) = (inl e, (w', tr')) ->
  exists evs,
    tr' = tr ++ evs
    /\ outstanding [] evs = []
    /\ forall before fd after,
         evs = before ++ Opened fd :: after -> In (CloseCalled fd) after.
Proof.
  intros H. apply open_fails_trace in H as (evs & -> & Hout).
  exists evs. split; [reflexivity|]. split; [assumption|].
  intros before fd after ->.
  rewrite outstanding_app in Hout. simpl in Hout.
  apply (outstanding_nil_closed _ _ Hout). now left.
Qed.

Lemma C2_open_failure_releases_witness :
  exists e w' tr',
    open (FS := Traced Posix.fs) (IM := Posix.imports)
      Demo.plain (PathString `"/docs") Demo.no_headers (Demo.disk, [])
    = (inl e, (w', tr'))
    /\ exists evs,
         tr' = [] ++ evs
         /\ outstanding [] evs = []
         /\ forall before fd after,
              evs = before ++ Opened fd :: after ->
              In (CloseCalled fd) after.
Proof.
  eexists. eexists. eexists.
  refine ((fun H => conj H (C2_open_failure_releases
                              Posix.fs _ _ _ _ _ _ _ _ H)) _).
  vm_compute. reflexivity.
Defined.

(** The same, when closing fails as well: the [fs] module below
    rejects every [close], and the descriptor has still been passed to
    [close] before the error leaves [open]. *)
Lemma open_failure_close_rejected :
  let stubborn : FSModule Posix.World :=
    {| fsOpen := Posix.do_open;
       fsFstat := Posix.do_fstat;
       fsClose := fun _ w => (inl Posix.EBADF, w) |} in
  exists w',
    open (FS := Traced stubborn) (IM := Posix.imports)
      Demo.plain (PathString `"/docs") Demo.no_headers (Demo.disk, [])
    = (inl Posix.EBADF, (w', [Opened 3; CloseCalled 3])).
Proof. eexists. vm_compute. reflexivity. Qed.



(* ================================================================== *)
(** * Encoding variants: the claim *)

Section ProbeFacts.
Context {W : Type} {FS : FSModule W} {IM : Imports}.


(** When neither [fstat] nor [close] fails, the probe always has an
    outcome. *)
Lemma Probes_total (m : RegexpContentEncodingMapping) (resolved : jsstr) :
  (forall fd w, exists stats w', fsFstat fd w = (inr stats, w')) ->
  (forall fd w, exists w', fsClose fd w = (inr tt, w')) ->
  forall cands w, exists o w', Probes m resolved cands w o w'.
Proof.
  intros Hstat Hclose. induction cands as [|[name pref] rest IH]; intros w.
  - exists RaisedDoesNotExist, w. constructor.
  - destruct (fsOpen (candidatePath m resolved pref) w) as [[e|fd] w1] eqn:Ho.
    + destruct (IH w1) as (o & w2 & Hp). exists o, w2.
      eapply Probes_absent; eassumption.
    + destruct (Hstat fd w1) as (stats & w2 & Hs).
      destruct (isDirectory stats) eqn:Hd.
      * destruct (Hclose fd w2) as (w3 & Hc).
        destruct (Js.eqb name `"identity") eqn:En.
        -- apply Js_eqb_eq in En. exists RaisedIsDirectory, w3.
           eapply Probes_identity_directory; eassumption.
        -- apply Js_eqb_neq in En.
           destruct (IH w3) as (o & w4 & Hp). exists o, w4.
           eapply Probes_other_directory; eassumption.
      * eexists _, w2. eapply Probes_file; eassumption.
Qed.


End ProbeFacts.

(** A variant that is a directory is closed and passed over: the
    identity is served, behind an open and a close of the directory's
    descriptor. *)
Lemma directory_variant_passed_over :
  exists w',
    open (FS := Traced Posix.fs) (IM := Posix.imports)
      Demo.precompressed (PathString `"/list.json") Demo.any_encoding
      (Demo.disk, [])
    = (inr (served_info [[]; `"list.json"] `"identity" `"/srv/list.json"
              4 (Posix.regular 12)),
       (w', [Opened 3; CloseCalled 3; Opened 4])).
Proof. eexists. vm_compute. reflexivity. Qed.


(* ================================================================== *)
(** * [close]: the claim *)

(** C7, as the code has it.  [close] hands every call on to the [fs]
    module's [close], on the descriptor in [attachedData], and ends as
    that call ends, with its answer and the state it leaves; it keeps
    no record of a close: called [n] times in a row on a
    [StorageInfo], it calls the [fs] module's [close] [n] times on
    that descriptor and answers, call by call, what the [fs] module
    answers to these [n] calls. *)
Theorem C7_close_forwards {W : Type} (FS : FSModule W)
    (storageInfo : StorageInfo) (n : nat) (w : W) (tr : list Event) :
  let fd := fd_fd (attachedData storageInfo) in
  close (FS := FS) storageInfo w = fsClose fd w
  /\ close_times (FS := FS) n storageInfo w = fsClose_times (FS := FS) n fd w
  /\ exists rs w',
       close_times (FS := Traced FS) n storageInfo (w, tr)
       = (rs, (w', tr ++ repeat (CloseCalled fd) n))
       /\ fsClose_times (FS := FS) n fd w = (rs, w')
       /\ close_times (FS := FS) n storageInfo w = (rs, w')
       /\ List.length rs = n.
Proof.
  intros fd.
  assert (Hsame : forall k v,
            close_times (FS := FS) k storageInfo v
            = fsClose_times (FS := FS) k fd v).
  { induction k as [|k IH]; intros v; [reflexivity|].
    cbn [close_times fsClose_times]. unfold close. fold fd.
    destruct (fsClose fd v) as [r v1]. now rewrite IH. }
  split; [reflexivity|]. split; [apply Hsame|].
  revert w tr. induction n as [|n IH]; intros w tr.
  - exists [], w. cbn. now rewrite app_nil_r.
  - cbn [close_times fsClose_times]. unfold close.
    cbn [fsClose Traced fst snd]. fold fd.
    destruct (fsClose fd w) as [r w1].
    destruct (IH w1 (tr ++ [CloseCalled fd])) as (rs & w' & H1 & H2 & H3 & H4).
    rewrite H1, H2, H3. exists (r :: rs), w'.
    rewrite <- app_assoc. cbn. auto.
Qed.

(** C7 as stated fails: on a file system with a descriptor table, after
    a successful [open] the first [close] succeeds and the second one
    is rejected. *)
Lemma C7_counterexample :
  exists info w1 w2,
    open (FS := Posix.fs) (IM := Posix.imports)
      Demo.plain (PathString `"/hello.txt") Demo.no_headers Demo.disk
    = (inr info, w1)
    /\ close_times (FS := Posix.fs) 2 info w1
       = ([inr tt; inl Posix.EBADF], w2).
Proof.
  eexists. eexists. eexists.
  split; vm_compute; reflexivity.
Qed.

(** The [StorageInfo] of a directory listing holds a descriptor that
    [open] has closed already: one [close] of it is a second call of
    the [fs] module's [close] on that descriptor. *)
Lemma listing_descriptor_closed_in_open :
  exists info w1 w2,
    open (FS := Traced Posix.fs) (IM := Posix.imports)
      Demo.listing (PathString `"/docs/") Demo.no_headers (Demo.disk, [])
    = (inr info, (w1, [Opened 3; CloseCalled 3]))
    /\ fd_fd (attachedData info) = 3
    /\ close (FS := Traced Posix.fs) info (w1, [Opened 3; CloseCalled 3])
       = (inl Posix.EBADF, (w2, [Opened 3; CloseCalled 3; CloseCalled 3])).
Proof.
  eexists. eexists. eexists.
  split; [vm_compute; reflexivity|].
  split; vm_compute; reflexivity.
Qed.

(* ================================================================== *)
(** * The constructor: the claim *)

Lemma get_set_same {V} (k : jsstr) (v : V) (m : JsMap.t V) :
  JsMap.get k (JsMap.set k v m) = Some v.
Proof.
  induction m as [|[k' v'] m IH]; simpl.
  - now rewrite Js_eqb_refl.
  - destruct (Js.eqb k' k) eqn:E; simpl; rewrite E; auto.
Qed.

Lemma get_set_other {V} (k k' : jsstr) (v : V) (m : JsMap.t V) :
  k' <> k -> JsMap.get k' (JsMap.set k v m) = JsMap.get k' m.
Proof.
  intros Hne. induction m as [|[k0 v0] m IH]; simpl.
  - assert (E : Js.eqb k k' = false) by (apply Js_eqb_neq; congruence).
    now rewrite E.
  - destruct (Js.eqb k0 k) eqn:E; simpl.
    + apply Js_eqb_eq in E. subst k0.
      assert (E : Js.eqb k k' = false) by (apply Js_eqb_neq; congruence).
      now rewrite E.
    + destruct (Js.eqb k0 k'); auto.
Qed.

Lemma get_fold_absent {V} (k : jsstr) (entries : list (jsstr * V)) :
  Forall (fun kv => fst kv <> k) entries ->
  forall m0,
    JsMap.get k
      (fold_left (fun m kv => JsMap.set (fst kv) (snd kv) m) entries m0)
    = JsMap.get k m0.
Proof.
  induction 1 as [|kv entries Hkv _ IH]; intros m0; simpl; [reflexivity|].
  rewrite IH. apply get_set_other. congruence.
Qed.

Lemma get_fold_last {V} (k : jsstr) (v : V) (pre post : list (jsstr * V)) :
  Forall (fun kv => fst kv <> k) post ->
  JsMap.get k (JsMap.of_entries (pre ++ (k, v) :: post)) = Some v.
Proof.
  intros H. unfold JsMap.of_entries. rewrite fold_left_app. simpl.
  rewrite get_fold_absent by assumption. apply get_set_same.
Qed.

Lemma mapi_from_app {A B} (f : A -> Z -> B) (a b : list A) :
  forall i,
    mapi_from f i (a ++ b)
    = mapi_from f i a ++ mapi_from f (i + Z.of_nat (List.length a)) b.
Proof.
  induction a as [|x a IH]; intros i; simpl.
  - now rewrite Z.add_0_r.
  - rewrite IH. do 3 f_equal. lia.
Qed.

Lemma mapi_from_names (k : jsstr) (encs : list ContentEncodingPath) :
  Forall (fun e => cep_name e <> k) encs ->
  forall i,
    Forall (fun kv => fst kv <> k)
      (mapi_from (fun e order =>
                    (cep_name e, {| path := cep_path e; order := order |}))
                 i encs).
Proof.
  induction 1 as [|e encs He _ IH]; intros i; simpl; constructor; auto.
Qed.

(** C9.  At construction, each configured mapping is normalized.  When
    no encoding of the mapping is named [identity], the preference map
    holds an [identity] entry with the pattern [$&] and, as its order,
    the length of the encodings list, the declared entries staying as
    they are; when [identity] is declared, the map is the declared one
    and the identity preference is the declared entry, at its declared
    place. *)
Theorem C9_identity_preference (root : jsstr)
    (opts : FileSystemStorageOptions) (cfgs : list ContentEncodingMapping)
    (i : nat) (cfg : ContentEncodingMapping) :
  opt_contentEncodingMappings opts = Some cfgs ->
  nth_error cfgs i = Some cfg ->
  exists ms m,
    contentEncodingMappings (constructor root opts) = Some ms
    /\ nth_error ms i = Some m
    /\ ((forall e, In e (encodings cfg) -> cep_name e <> `"identity") ->
        let synthesized :=
          {| path := `"$&";
             order := Z.of_nat (List.length (encodings cfg)) |} in
        JsMap.get `"identity" (encodingPreferences m) = Some synthesized
        /\ identityEncodingPreference m = synthesized
        /\ forall k, k <> `"identity" ->
                     JsMap.get k (encodingPreferences m)
                     = JsMap.get k (declaredPreferences cfg))
    /\ (forall pre e post,
          encodings cfg = pre ++ e :: post ->
          cep_name e = `"identity" ->
          (forall e', In e' post -> cep_name e' <> `"identity") ->
          let declared :=
            {| path := cep_path e; order := Z.of_nat (List.length pre) |} in
          encodingPreferences m = declaredPreferences cfg
          /\ JsMap.get `"identity" (encodingPreferences m) = Some declared
          /\ identityEncodingPreference m = declared).
Proof.
  intros Hopt Hnth.
  exists (map normalizeMapping cfgs), (normalizeMapping cfg).
  split; [unfold constructor; simpl; now rewrite Hopt|].
  split; [now apply map_nth_error|].
  split.
  - intros Hno synthesized.
    assert (Habs : JsMap.get `"identity" (declaredPreferences cfg) = None).
    { unfold declaredPreferences, JsMap.of_entries.
      rewrite get_fold_absent; [reflexivity|].
      apply mapi_from_names. now apply Forall_forall. }
    unfold normalizeMapping. rewrite Habs. cbn [encodingPreferences
      identityEncodingPreference].
    split; [apply get_set_same|]. split; [reflexivity|].
    intros k Hk. now apply get_set_other.
  - intros pre e post Henc Hname Hpost declared.
    assert (Hget : JsMap.get `"identity" (declaredPreferences cfg)
                   = Some declared).
    { unfold declaredPreferences. rewrite Henc, mapi_from_app. simpl.
      rewrite Hname. apply get_fold_last.
      apply mapi_from_names. now apply Forall_forall. }
    unfold normalizeMapping. rewrite Hget. cbn [encodingPreferences
      identityEncodingPreference]. auto.
Qed.

Lemma C9_identity_preference_witness :
  (exists ms m,
     contentEncodingMappings (constructor `"/srv" Demo.json_options) = Some ms
     /\ nth_error ms 0 = Some m
     /\ JsMap.get `"identity" (encodingPreferences m)
        = Some {| path := `"$&"; order := 2 |}
     /\ identityEncodingPreference m = {| path := `"$&"; order := 2 |})
  /\ (exists ms m,
        contentEncodingMappings
          (constructor `"/srv" Demo.identity_first_options) = Some ms
        /\ nth_error ms 0 = Some m
        /\ encodingPreferences m
           = declaredPreferences Demo.identity_first_mapping
        /\ identityEncodingPreference m = {| path := `"$1"; order := 0 |}).
Proof.
  split.
  - destruct (C9_identity_preference `"/srv" Demo.json_options
                [Demo.json_mapping] 0 Demo.json_mapping eq_refl eq_refl)
      as (ms & m & Hms & Hm & Hsyn & _).
    exists ms, m. split; [assumption|]. split; [assumption|].
    assert (Hno : forall e, In e (encodings Demo.json_mapping) ->
                            cep_name e <> `"identity").
    { intros e [<- | [<- | []]]; discriminate. }
    destruct (Hsyn Hno) as (H1 & H2 & _). split; assumption.
  - destruct (C9_identity_preference `"/srv" Demo.identity_first_options
                [Demo.identity_first_mapping] 0 Demo.identity_first_mapping
                eq_refl eq_refl)
      as (ms & m & Hms & Hm & _ & Hdecl).
    exists ms, m. split; [assumption|]. split; [assumption|].
    assert (Hpost : forall e',
               In e' [ {| cep_name := `"gzip"; cep_path := `"$1.gz" |} ] ->
               cep_name e' <> `"identity").
    { intros e' [<- | []]. discriminate. }
    destruct (Hdecl [] {| cep_name := `"identity"; cep_path := `"$1" |}
                [ {| cep_name := `"gzip"; cep_path := `"$1.gz" |} ]
                eq_refl eq_refl Hpost) as (H1 & _ & H3).
    split; assumption.
Defined.

(* ================================================================== *)
(** * The query of a string reference: the claim *)

Lemma serialize_path_no_question (segs : list jsstr) :
  Forall Url.good_seg segs ->
  Forall (fun x => x <> QUESTION) (Url.serialize_path segs).
Proof.
  intros H. unfold Url.serialize_path. apply Forall_flat_map.
  eapply Forall_impl; [|exact H].
  intros seg (_ & _ & Hc). constructor; [discriminate|].
  eapply Forall_impl; [|exact Hc]. now intros x [_ Hx].
Qed.

Lemma before_query_app (a b : jsstr) :
  Forall (fun x => x <> QUESTION) a ->
  b = [] \/ (exists q, b = QUESTION :: q) ->
  Url.before_query (a ++ b) = a.
Proof.
  intros Ha Hb. induction Ha as [|x a Hx _ IH]; simpl.
  - destruct Hb as [-> | [q ->]]; reflexivity.
  - apply N.eqb_neq in Hx. now rewrite Hx, IH.
Qed.

Lemma search_form (s : jsstr) :
  Url.search (Url.parse s) = []
  \/ exists q, Url.search (Url.parse s) = QUESTION :: q.
Proof.
  unfold Url.parse. destruct (Url.preprocess s) as [|c rest]; [now left|].
  destruct (Url.path_state rest [] []) as [segs [|q0 q]]; simpl; eauto.
Qed.

(** An accepted string is its pathname followed by its search, and the
    pathname is the string up to the query. *)
Lemma decodePath_string (s : jsstr) (parts : list jsstr) :
  decodePath (PathString s) = inr parts ->
  s = Url.pathname (Url.parse s) ++ Url.search (Url.parse s)
  /\ Url.pathname (Url.parse s) = Url.before_query s
  /\ map_decodeURIComponent (Js.split SLASH (Url.before_query s))
     = Some parts.
Proof.
  simpl. destruct (negb (Js.startsWith SLASH s)); [discriminate|].
  destruct (map_decodeURIComponent _) as [ds|] eqn:Ed; [|discriminate].
  destruct (Js.eqb s _) eqn:E; simpl; [|discriminate].
  intros [= <-]. apply Js_eqb_eq in E.
  assert (Hq : Url.pathname (Url.parse s) = Url.before_query s).
  { destruct (UrlFacts.parse_pathname_parts s) as (segs & Hg & Hser & _).
    rewrite E at 2. symmetry. apply before_query_app.
    - rewrite Hser. now apply serialize_path_no_question.
    - apply search_form. }
  split; [assumption|]. split; [assumption|]. now rewrite <- Hq.
Qed.

(** The reference reaches the result of an accepting [checkParts] only
    through the parts. *)
Lemma checkParts_inr_any (this : FileSystemStorage) (p p' : FilePath)
    (parts : list jsstr) (r : ParsedPath) :
  checkParts this p parts = inr r -> checkParts this p' parts = inr r.
Proof.
  unfold checkParts.
  destruct (negb _ && negb _); [discriminate|].
  destruct (find FORBIDDEN_CHARACTERS parts) as [[|c s]|];
    try discriminate;
    (match goal with
     | |- context [if ?b then inl _ else _] => destruct b
     end; [discriminate|]);
    (destruct (negb _); [|auto]);
    destruct (onDirectory this); auto; discriminate.
Qed.

Section QueryFacts.
Context {W : Type} {FS : FSModule W} {IM : Imports}.

Lemma probe_inr_any (p p' : FilePath) (parts : list jsstr)
    (m : RegexpContentEncodingMapping) cands :
  forall l w s',
    probeEncodings p parts m cands (l, w) = (inr tt, s') ->
    probeEncodings p' parts m cands (l, w) = (inr tt, s').
Proof.
  induction cands as [|[name pref] rest IH]; intros l w s' H.
  - exact H.
  - cbn [probeEncodings] in *. exc_run H. exc_run_goal.
    destruct (fsOpen _ w) as [[e|fd] w1]; exc_run H; exc_run_goal.
    + now apply IH.
    + destruct (fsFstat fd w1) as [[e|st] w2]; exc_run H; exc_run_goal;
        [discriminate|].
      destruct (isDirectory st); [|exact H].
      destruct (Js.eqb name _); [discriminate|].
      exc_run H. exc_run_goal.
      destruct (fsClose fd w2) as [[e|[]] w3]; exc_run H; exc_run_goal;
        [discriminate|].
      now apply IH.
Qed.

Lemma tryBody_inr_any (this : FileSystemStorage) (p p' : FilePath)
    (h : StorageRequestHeaders) (pp : ParsedPath) s r s' :
  tryBody this p h pp s = (inr r, s') ->
  tryBody this p' h pp s = (inr r, s').
Proof.
  destruct s as [l w]. unfold tryBody. intros H. exc_run H. exc_run_goal.
  destruct (selectMapping this (haveTrailingSlash pp) (l_resolvedPath l))
    as [m|].
  - exc_run H. exc_run_goal.
    destruct (probeEncodings p _ _ _ _) as [[e|[]] [l1 w1]] eqn:Ep;
      exc_run H; [discriminate|].
    apply (probe_inr_any p p') in Ep. rewrite Ep. exc_run_goal.
    destruct (l_fd l1), (l_stats l1); try discriminate; exact H.
  - exc_run H. exc_run_goal.
    destruct (fsOpen _ w) as [[e|fd] w1]; exc_run H; exc_run_goal;
      [discriminate|].
    destruct (fsFstat fd w1) as [[e|st] w2]; exc_run H; exc_run_goal;
      [discriminate|].
    destruct (isDirectory st).
    + destruct (negb (haveTrailingSlash pp)); [discriminate|].
      exc_run H. exc_run_goal.
      destruct (fsClose fd w2) as [[e|[]] w3]; exc_run H; exc_run_goal;
        [discriminate | exact H].
    + destruct (haveTrailingSlash pp); [discriminate | exact H].
Qed.

(** Two references that parse alike open the same file. *)
Lemma open_inr_any (this : FileSystemStorage) (p p' : FilePath)
    (h : StorageRequestHeaders) (pp : ParsedPath) w info w' :
  parsePath this p = inr pp -> parsePath this p' = inr pp ->
  open this p h w = (inr info, w') ->
  open this p' h w = (inr info, w').
Proof.
  intros Hp Hp'. unfold open. rewrite Hp, Hp'.
  unfold Exc.try_catch.
  destruct (tryBody this p h pp _) as [[e|r] s1] eqn:Eb.
  - destruct (catchClause_throws e s1) as (e' & [l2 w2] & ->). discriminate.
  - apply (tryBody_inr_any this p p') in Eb. now rewrite Eb.
Qed.

(** C10.  For an accepted string reference, the pathname of the URL is
    the reference up to its first question mark, and the reference is
    that pathname followed by the search; the parts come from decoding
    the segments of the pathname alone and are checked without regard
    to anything else of the reference; hence two accepted references
    that are equal up to the query have the same parts and the same
    directory intent, and [open] answers the same file for both. *)
Theorem C10_query_transparency (this : FileSystemStorage) (s : jsstr)
    (r : ParsedPath) :
  parsePath this (PathString s) = inr r ->
  Url.pathname (Url.parse s) = Url.before_query s
  /\ s = Url.pathname (Url.parse s) ++ Url.search (Url.parse s)
  /\ (exists parts,
        map_decodeURIComponent (Js.split SLASH (Url.before_query s))
        = Some parts
        /\ forall p', checkParts this p' parts = inr r)
  /\ forall s2 r2,
       parsePath this (PathString s2) = inr r2 ->
       Url.before_query s2 = Url.before_query s ->
       r2 = r
       /\ forall h w info w',
            open this (PathString s) h w = (inr info, w') ->
            open this (PathString s2) h w = (inr info, w').
Proof.
  intros Hp. pose proof Hp as Hp0. unfold parsePath in Hp.
  destruct (decodePath (PathString s)) as [e|parts] eqn:Ed; [discriminate|].
  apply decodePath_string in Ed as (Hs & Hq & Hm).
  split; [assumption|]. split; [assumption|]. split.
  - exists parts. split; [assumption|].
    intros p'. eapply checkParts_inr_any; eassumption.
  - intros s2 r2 Hp2 Heq. pose proof Hp2 as Hp20. unfold parsePath in Hp2.
    destruct (decodePath (PathString s2)) as [e|parts2] eqn:Ed2;
      [discriminate|].
    apply decodePath_string in Ed2 as (_ & _ & Hm2).
    rewrite Heq, Hm in Hm2. injection Hm2 as <-.
    apply (checkParts_inr_any this _ (PathString s)) in Hp2.
    assert (r2 = r) as -> by congruence.
    split; [reflexivity|].
    intros h w info w'. now apply open_inr_any with (pp := r).
Qed.

End QueryFacts.

Lemma C10_query_transparency_witness :
  parsePath Demo.plain (PathString `"/hello.txt?v=2")
  = inr {| pathParts := [[]; `"hello.txt"]; haveTrailingSlash := false |}
  /\ open (FS := Posix.fs) (IM := Posix.imports)
       Demo.plain (PathString `"/hello.txt?v=2") Demo.no_headers Demo.disk
     = open (FS := Posix.fs) (IM := Posix.imports)
         Demo.plain (PathString `"/hello.txt?v=1") Demo.no_headers Demo.disk.
Proof.
  pose proof (C10_query_transparency (FS := Posix.fs) (IM := Posix.imports)
                Demo.plain `"/hello.txt?v=1"
                {| pathParts := [[]; `"hello.txt"];
                   haveTrailingSlash := false |} eq_refl)
    as (_ & _ & _ & H).
  destruct (H `"/hello.txt?v=2"
              {| pathParts := [[]; `"hello.txt"];
                 haveTrailingSlash := false |} eq_refl eq_refl)
    as [_ Hopen].
  split; [reflexivity|].
  rewrite (Hopen Demo.no_headers Demo.disk _ _ eq_refl). reflexivity.
Defined.

(* ================================================================== *)
(** * The requests of the repository's tests *)

(** The requests of the static-file tests, as [parsePath] answers
    them with the default options. *)
Lemma parsePath_on_test_requests :
  parsePath Demo.plain (PathString `"/foo%20bar")
  = inr {| pathParts := [[]; `"foo bar"]; haveTrailingSlash := false |}
  /\ parsePath Demo.plain (PathString `"/%")
     = inl (MalformedPathError (PathString `"/%") [[]; `"%"])
  /\ parsePath Demo.plain (PathString `"/users/../../todo.txt")
     = inl (NotNormalizedError (PathString `"/users/../../todo.txt")
              [[]; `"todo.txt"] `"/todo.txt")
  /\ parsePath Demo.plain (PathString `"/users/%2e%2e/%2e%2e/todo.txt")
     = inl (NotNormalizedError
              (PathString `"/users/%2e%2e/%2e%2e/todo.txt")
              [[]; `"todo.txt"] `"/todo.txt")
  /\ parsePath Demo.plain (PathString `"/.hidden")
     = inl (IgnoredFileError (PathString `"/.hidden") [[]; `".hidden"])
  /\ parsePath Demo.plain (PathString `"/users/")
     = inl (TrailingSlashError (PathString `"/users/")
              [[]; `"users"; []] [[]; `"users"])
  /\ parsePath Demo.plain (PathArray [[]; `"users"; `"index.html"])
     = inr {| pathParts := [[]; `"users"; `"index.html"];
              haveTrailingSlash := false |}.
Proof. repeat split; reflexivity. Qed.

(* ================================================================== *)
(** * On a descriptor table, a failing [open] leaves nothing open *)

Section PosixFacts.
Context {IM : Imports}.

Lemma posix_open_inv (p : jsstr) (w w1 : Posix.World) r :
  Posix.do_open p w = (r, w1) ->
  Posix.files w1 = Posix.files w
  /\ match r with
     | inl _ => w1 = w
     | inr fd =>
         fd = Posix.next w
         /\ Posix.table w1 = (fd, p) :: Posix.table w
         /\ Posix.next w1 = Posix.next w + 1
     end.
Proof.
  unfold Posix.do_open. destruct (Posix.lookup_path p (Posix.files w));
    intros [= <- <-]; simpl; auto.
Qed.

Lemma posix_fstat_inv (fd : Fd) (w w1 : Posix.World) r :
  Posix.do_fstat fd w = (r, w1) -> w1 = w.
Proof.
  unfold Posix.do_fstat.
  destruct (Posix.lookup_fd fd (Posix.table w)) as [p|];
    [destruct (Posix.lookup_path p (Posix.files w))|];
    now intros [= _ <-].
Qed.

Lemma posix_filter_older (fd : Fd) (T : list (Fd * jsstr)) :
  Forall (fun e => fst e < fd) T ->
  filter (fun e => negb (fst e =? fd)) T = T.
Proof.
  induction 1 as [|e T He _ IH]; simpl; [reflexivity|].
  destruct (Z.eqb_spec (fst e) fd); [lia|]. simpl. now rewrite IH.
Qed.

Lemma posix_close_head (fd : Fd) (p : jsstr) (T : list (Fd * jsstr))
    (w : Posix.World) :
  Posix.table w = (fd, p) :: T ->
  Forall (fun e => fst e < fd) T ->
  Posix.do_close fd w
  = (inr tt, {| Posix.files := Posix.files w;
                Posix.table := T;
                Posix.next := Posix.next w |}).
Proof.
  intros Ht HT. unfold Posix.do_close. rewrite Ht. simpl.
  rewrite Z.eqb_refl. simpl. now rewrite posix_filter_older.
Qed.

Lemma posix_close_absent (fd : Fd) (w : Posix.World) :
  Forall (fun e => fst e < fd) (Posix.table w) ->
  Posix.do_close fd w = (inl Posix.EBADF, w).
Proof.
  intros H. unfold Posix.do_close.
  assert (E : Posix.lookup_fd fd (Posix.table w) = None).
  { induction H as [|[g q] T Hg _ IH]; simpl; [reflexivity|].
    simpl in Hg. destruct (Z.eqb_spec g fd); [lia | exact IH]. }
  now rewrite E.
Qed.

Ltac posix_run H :=
  exc_run H; cbn [fsOpen fsFstat fsClose Posix.fs fst snd] in H; exc_run H.

Lemma well_formed_older (w : Posix.World) (fd : Fd) :
  Posix.well_formed w -> Posix.next w <= fd ->
  Forall (fun e => fst e < fd) (Posix.table w).
Proof.
  intros Hw Hle. eapply Forall_impl; [|exact Hw]. simpl. intros; lia.
Qed.

Lemma posix_probe_table (p : FilePath) (parts : list jsstr)
    (m : RegexpContentEncodingMapping) cands :
  forall l w r l' w',
    Posix.well_formed w -> l_fd l = None ->
    probeEncodings (FS := Posix.fs) p parts m cands (l, w) = (r, (l', w')) ->
    table_holds w l' w'.
Proof.
  induction cands as [|[name pref] rest IH]; intros l w r l' w' Hw Hl H.
  - cbn in H. injection H as _ <- <-. unfold table_holds. rewrite Hl.
    repeat split; lia.
  - cbn [probeEncodings] in H. posix_run H.
    destruct (Posix.do_open _ w) as [[e|fd] w1] eqn:Eo;
      apply posix_open_inv in Eo as (Hf1 & Ho); posix_run H.
    + subst w1. apply IH in H; auto.
    + destruct Ho as (-> & Ht1 & Hn1).
      destruct (Posix.do_fstat _ w1) as [rs w2] eqn:Es.
      apply posix_fstat_inv in Es. subst w2.
      assert (Hheld : forall l0, l_fd l0 = Some (Posix.next w) ->
                                 table_holds w l0 w1).
      { intros l0 E0. unfold table_holds. rewrite E0.
        repeat split; try lia; try assumption.
        eexists. split; [exact Ht1 | lia]. }
      destruct rs as [e|st]; posix_run H.
      * injection H as _ <- <-. now apply Hheld.
      * destruct (isDirectory st).
        -- destruct (Js.eqb name _).
           ++ injection H as _ <- <-. now apply Hheld.
           ++ posix_run H.
              rewrite (posix_close_head _ _ _ _ Ht1
                         (well_formed_older w _ Hw (Z.le_refl _))) in H.
              posix_run H.
              apply IH in H; [| |reflexivity].
              ** destruct H as (Hf & Hn & Hh). cbn in Hf, Hn, Hh.
                 unfold table_holds. repeat split.
                 --- congruence.
                 --- lia.
                 --- destruct (l_fd l') as [fd'|]; [|exact Hh].
                     destruct Hh as (q & Hq & Hr). exists q.
                     split; [exact Hq | lia].
              ** unfold Posix.well_formed. cbn.
                 apply well_formed_older; [assumption | lia].
        -- injection H as _ <- <-. now apply Hheld.
Qed.

(** The body of the [try], when it throws. *)
Lemma posix_tryBody_table (this : FileSystemStorage) (p : FilePath)
    (h : StorageRequestHeaders) (pp : ParsedPath)
    l w e l' w' :
  Posix.well_formed w -> l_fd l = None ->
  tryBody (FS := Posix.fs) this p h pp (l, w) = (inl e, (l', w')) ->
  table_holds w l' w'.
Proof.
  intros Hw Hl Eb. unfold tryBody in Eb. exc_run Eb.
  destruct (selectMapping _ _ _) as [m|].
  - exc_run Eb.
    destruct (probeEncodings _ _ _ _ _) as [[e2|[]] [l2 w2]] eqn:Ep;
      (apply posix_probe_table in Ep; [|assumption|exact Hl]);
      exc_run Eb.
    + now injection Eb as _ <- <-.
    + destruct (l_fd l2) eqn:E2, (l_stats l2); try discriminate;
        injection Eb as _ <- <-; assumption.
  - posix_run Eb.
    destruct (Posix.do_open _ w) as [[e2|fd] w2] eqn:Eo;
      apply posix_open_inv in Eo as (Hf1 & Ho); posix_run Eb.
    + subst w2. injection Eb as _ <- <-. unfold table_holds.
      cbn. repeat split; lia.
    + destruct Ho as (-> & Ht1 & Hn1).
      destruct (Posix.do_fstat _ w2) as [rs w3] eqn:Es.
      apply posix_fstat_inv in Es. subst w3.
      assert (Hheld : forall l0, l_fd l0 = Some (Posix.next w) ->
                                 table_holds w l0 w2).
      { intros l0 E0. unfold table_holds. rewrite E0.
        repeat split; try lia; try assumption.
        eexists. split; [exact Ht1 | lia]. }
      destruct rs as [e2|st]; posix_run Eb.
      * injection Eb as _ <- <-. now apply Hheld.
      * destruct (isDirectory st).
        -- destruct (negb (haveTrailingSlash pp)).
           ++ injection Eb as _ <- <-. now apply Hheld.
           ++ posix_run Eb.
              rewrite (posix_close_head _ _ _ _ Ht1
                         (well_formed_older w _ Hw (Z.le_refl _))) in Eb.
              discriminate.
        -- destruct (haveTrailingSlash pp); [|discriminate].
           injection Eb as _ <- <-. now apply Hheld.
Qed.

(** On a well-formed descriptor table, an [open] that throws leaves
    the table as it found it: no descriptor of the call stays open. *)
Lemma posix_open_failure_leaves_table (this : FileSystemStorage)
    (p : FilePath) (h : StorageRequestHeaders) (w w' : Posix.World)
    (e : Error) :
  Posix.well_formed w ->
  open (FS := Posix.fs) this p h w = (inl e, w') ->
  Posix.table w' = Posix.table w.
Proof.
  intros Hw. unfold open.
  destruct (parsePath this p) as [e0|pp]; [now intros [= _ <-]|].
  unfold Exc.try_catch.
  destruct (tryBody _ _ _ _ _) as [[e1|r1] [l1 w1]] eqn:Eb.
  - apply posix_tryBody_table in Eb; [|assumption|reflexivity].
    destruct Eb as (Hf & Hn & Hh).
    unfold catchClause. exc_run_goal.
    destruct (l_fd l1) as [fd|].
    + destruct Hh as (q & Hq & Hr).
      cbn [fsClose Posix.fs].
      rewrite (posix_close_head _ _ _ _ Hq
                 (well_formed_older w _ Hw (proj1 Hr))).
      now intros [= _ <-].
    + now intros [= _ <-].
  - destruct r1 as [i|]; [discriminate|].
    apply (tryBody_falls_through (FS := Posix.fs)) in Eb.
    destruct Eb as ((fd' & st' & -> & ->) & _). discriminate.
Qed.

End PosixFacts.

(* ================================================================== *)
(** * More of [parsePath] *)

Lemma indexOf_at_some (x : jsstr) (arr : list jsstr) :
  forall from i,
    0 <= i -> Js.indexOf_at x arr from i <> -1 ->
    exists k, Js.indexOf_at x arr from i = i + Z.of_nat k
              /\ (from <= k)%nat /\ nth_error arr k = Some x.
Proof.
  induction arr as [|y arr IH]; intros from i Hi H; simpl in *.
  - congruence.
  - destruct from as [|from].
    + destruct (Js.eqb y x) eqn:E.
      * apply Js_eqb_eq in E. subst y. exists 0%nat.
        repeat split; [lia | lia].
      * destruct (IH 0%nat (i + 1)) as (k & Hk & _ & Hn); [lia|assumption|].
        exists (S k). rewrite Hk. repeat split; [lia | lia | exact Hn].
    + destruct (IH from (i + 1)) as (k & Hk & Hle & Hn); [lia|assumption|].
      exists (S k). rewrite Hk. repeat split; [lia | lia | exact Hn].
Qed.

Lemma indexOf_at_absent (x : jsstr) (arr : list jsstr) :
  forall from i,
    Forall (fun y => y <> x) (skipn from arr) ->
    Js.indexOf_at x arr from i = -1.
Proof.
  induction arr as [|y arr IH]; intros from i H; simpl.
  - reflexivity.
  - destruct from as [|from]; simpl in H.
    + inversion H as [|? ? Hy Hr]; subst.
      apply Js_eqb_neq in Hy. rewrite Hy. now apply (IH 0%nat).
    + now apply IH.
Qed.

(** Parts whose first empty part behind the leading one stands last. *)
Lemma trailing_decompose (parts : list jsstr) :
  Js.indexOf [] 1 parts <> -1 ->
  Js.indexOf [] 1 parts = Z.of_nat (List.length parts) - 1 ->
  exists first mid,
    parts = first :: mid ++ [[]] /\ Forall (fun s => s <> []) mid.
Proof.
  intros Hne Hlast.
  destruct (indexOf_at_some [] parts 1 0 (Z.le_refl _) Hne)
    as (k & Hk & Hk1 & Hn).
  fold (Js.indexOf [] 1 parts) in Hk.
  assert (Hklen : k = (List.length parts - 1)%nat) by lia.
  destruct parts as [|first rest]; [destruct k; discriminate|].
  destruct (exists_last (l := rest)) as (mid & lst & ->).
  { intros ->. simpl in Hklen. lia. }
  exists first, mid.
  assert (Hlen : k = S (List.length mid)).
  { rewrite Hklen. cbn [List.length]. rewrite length_app. simpl. lia. }
  clear Hklen. subst k. cbn [nth_error] in Hn.
  rewrite nth_error_app2 in Hn by lia. rewrite Nat.sub_diag in Hn.
  simpl in Hn. injection Hn as ->. split; [reflexivity|].
  apply Forall_forall. intros s Hs ->.
  apply In_nth_error in Hs as (j & Hj).
  assert (Hjlt : (j < List.length mid)%nat)
    by (apply (proj1 (nth_error_Some mid j)); intros E;
        pose proof (eq_trans (eq_sym E) Hj); discriminate).
  assert (Hpj : nth_error (first :: mid ++ [[]]) (S j) = Some [])
    by (simpl; now rewrite nth_error_app1).
  pose proof (indexOf_at_bound [] (first :: mid ++ [[]]) 1 0 (S j)
                (proj1 (Nat.succ_le_mono 0 j) (Nat.le_0_l j)) Hpj) as Hb.
  unfold Js.indexOf, Js.str, jsstr in *. lia.
Qed.

Lemma forbidden_unit_char (c : N) :
  forbidden_unit c = true -> forbidden_char c.
Proof.
  unfold forbidden_unit, forbidden_char, SLASH, QUESTION, BACKSLASH.
  rewrite !orb_true_iff, !andb_true_iff, !N.eqb_eq, !N.leb_le.
  simpl. intuition (subst; auto 12).
Qed.

Lemma FORBIDDEN_CHARACTERS_char (s : jsstr) :
  FORBIDDEN_CHARACTERS s = true <-> exists c, In c s /\ forbidden_char c.
Proof.
  unfold FORBIDDEN_CHARACTERS. rewrite existsb_exists. split.
  - intros (c & Hin & Hc). exists c. split; [assumption|].
    now apply forbidden_unit_char.
  - intros (c & Hin & Hc). exists c. split; [assumption|].
    now apply forbidden_char_unit.
Qed.

(** The array of the parts of a reference passes the first step of
    [parsePath] as it is. *)
Lemma decodePath_array_of_parts (p : FilePath) (parts : list jsstr) :
  decodePath p = inr parts -> decodePath (PathArray parts) = inr parts.
Proof.
  intros H. pose proof (decodePath_no_dots _ _ H) as Hd.
  apply decodePath_sentinel in H as (rest & ->). simpl.
  destruct (existsb is_dot_or_dotdot rest) eqn:E; [|reflexivity].
  apply existsb_exists in E as (x & Hin & Hx).
  rewrite Forall_forall in Hd. rewrite (Hd x (or_intror Hin)) in Hx.
  discriminate.
Qed.

(** X1.  [onDirectory] bears on references with a trailing slash only:
    what [parsePath] answers without the option is answered under any
    value of it, except the [TrailingSlashError], in whose place
    [list-files] answers the untrailed parts with directory intent and
    [serve-index] the untrailed parts followed by [index.html]. *)
Theorem parsePath_onDirectory (this : FileSystemStorage) (p : FilePath)
    (d : OnDirectory) :
  match parsePath (with_onDirectory this OnDirectoryFalse) p with
  | inl (TrailingSlashError p' parts untrailed) =>
      parsePath (with_onDirectory this d) p
      = match d with
        | OnDirectoryFalse => inl (TrailingSlashError p' parts untrailed)
        | ListFiles =>
            inr {| pathParts := untrailed; haveTrailingSlash := true |}
        | ServeIndex =>
            inr {| pathParts := untrailed ++ [`"index.html"];
                   haveTrailingSlash := false |}
        end
  | r => parsePath (with_onDirectory this d) p = r
  end.
Proof.
  unfold parsePath.
  assert (Hcheck : forall parts,
    match checkParts (with_onDirectory this OnDirectoryFalse) p parts with
    | inl (TrailingSlashError p' parts' untrailed) =>
        checkParts (with_onDirectory this d) p parts
        = match d with
          | OnDirectoryFalse => inl (TrailingSlashError p' parts' untrailed)
          | ListFiles =>
              inr {| pathParts := untrailed; haveTrailingSlash := true |}
          | ServeIndex =>
              inr {| pathParts := untrailed ++ [`"index.html"];
                     haveTrailingSlash := false |}
          end
    | r => checkParts (with_onDirectory this d) p parts = r
    end).
  { intros parts. unfold checkParts. cbn [with_onDirectory ignorePattern onDirectory].
    destruct (negb _ && negb _); [reflexivity|].
    destruct (find FORBIDDEN_CHARACTERS parts) as [[|c s]|];
      try reflexivity;
      (match goal with
       | |- context [if ?b then inl (IgnoredFileError _ _) else _] =>
           destruct b
       end; [reflexivity|]);
      (destruct (negb _); [|reflexivity]);
      destruct d; reflexivity. }
  destruct p as [s|arr]; cbn [decodePath].
  - destruct (negb (Js.startsWith SLASH s)); [reflexivity|].
    destruct (map_decodeURIComponent _) as [parts|]; [|reflexivity].
    destruct (negb (Js.eqb s _)); [reflexivity|]. apply Hcheck.
  - destruct arr as [|first rest]; [reflexivity|].
    destruct (negb (Js.eqb first []) || _); [reflexivity|]. apply Hcheck.
Qed.

(** X2.  The parts of an accepted reference start with the empty
    string and hold no other empty part, and directory intent is only
    answered under [list-files]. *)
Theorem parsePath_accepted_shape (this : FileSystemStorage) (p : FilePath)
    (pp : ParsedPath) :
  parsePath this p = inr pp ->
  (exists rest, pathParts pp = [] :: rest /\ Forall (fun s => s <> []) rest)
  /\ (haveTrailingSlash pp = true -> onDirectory this = ListFiles).
Proof.
  unfold parsePath.
  destruct (decodePath p) as [e|parts] eqn:Ed; [discriminate|].
  intros H. apply checkParts_accepts in H as (_ & _ & Hc).
  apply decodePath_sentinel in Ed as (rest & ->).
  destruct Hc as [[Hi ->] | [Hi Hc]].
  - split; [|discriminate]. exists rest. split; [reflexivity|].
    apply (indexOf_at_none [] ([] :: rest) 1 0 (Z.le_refl _) Hi).
  - assert (Hne : Js.indexOf [] 1 ([] :: rest) <> -1)
      by (rewrite Hi; cbn [List.length]; lia).
    destruct (trailing_decompose _ Hne Hi) as (first & mid & Heq & Hmid).
    injection Heq as <- ->. unfold Js.str, jsstr in *.
    assert (Hun : removelast ([] :: mid ++ [[]]) = [] :: mid).
    { change ([] :: mid ++ [[]]) with (([] :: mid) ++ [[]]).
      apply removelast_last. }
    rewrite Hun in Hc.
    destruct Hc as [[Ho ->] | [Ho ->]]; cbn [pathParts haveTrailingSlash].
    + split; [|auto]. now exists mid.
    + split; [|discriminate]. exists (mid ++ [`"index.html"]).
      split; [reflexivity|]. apply Forall_app. split; [assumption|].
      constructor; [discriminate | constructor].
Qed.

Lemma parsePath_accepted_shape_witness :
  (exists rest, [[]; `"docs"] = [] :: rest /\ Forall (fun s => s <> []) rest)
  /\ (true = true -> onDirectory Demo.listing = ListFiles).
Proof.
  exact (parsePath_accepted_shape Demo.listing (PathString `"/docs/")
           {| pathParts := [[]; `"docs"]; haveTrailingSlash := true |}
           eq_refl).
Defined.

Lemma not_inner_empty_index (parts : list jsstr) :
  Js.indexOf [] 1 parts = -1
  \/ Js.indexOf [] 1 parts = Z.of_nat (List.length parts) - 1 ->
  ~ inner_empty parts.
Proof.
  intros H (j & Hj1 & Hj2 & Hn).
  pose proof (indexOf_at_bound [] parts 1 0 j Hj1 Hn) as Hb.
  unfold Js.indexOf, Js.str, jsstr in *. lia.
Qed.

(** What a rejection in the second half of [parsePath] tells. *)
Lemma checkParts_rejects (this : FileSystemStorage) (p : FilePath)
    (parts : list jsstr) (e : Error) :
  checkParts this p parts = inl e ->
  (e = ConsecutiveSlashesError p parts /\ inner_empty parts)
  \/ (e = ForbiddenCharacterError p parts
      /\ ~ inner_empty parts
      /\ exists seg c, In seg parts /\ In c seg /\ forbidden_char c)
  \/ (e = IgnoredFileError p parts
      /\ ~ inner_empty parts
      /\ Forall (fun s => FORBIDDEN_CHARACTERS s = false) parts
      /\ exists re seg,
           ignorePattern this = Some re /\ In seg parts
           /\ Js.test re seg = true)
  \/ (e = TrailingSlashError p parts (removelast parts)
      /\ onDirectory this = OnDirectoryFalse
      /\ Js.indexOf [] 1 parts <> -1
      /\ Js.indexOf [] 1 parts = Z.of_nat (List.length parts) - 1
      /\ Forall (fun s => FORBIDDEN_CHARACTERS s = false) parts
      /\ forall re, ignorePattern this = Some re ->
                    Forall (fun s => Js.test re s = false) parts).
Proof.
  unfold checkParts.
  destruct (Z.eqb_spec (Js.indexOf [] 1 parts) (-1)) as [Ei|Ei];
    [|destruct (Z.eqb_spec (Js.indexOf [] 1 parts)
                           (Z.of_nat (List.length parts) - 1)) as [El|El]];
    cbn [negb andb].
  3: { intros [= <-]. left. split; [reflexivity|].
       destruct (indexOf_at_some [] parts 1 0 (Z.le_refl _) Ei)
         as (k & Hk & Hk1 & Hn).
       exists k. split; [assumption|]. split; [|assumption].
       assert (k < List.length parts)%nat.
       { apply (proj1 (nth_error_Some parts k)). intros E.
         pose proof (eq_trans (eq_sym E) Hn). discriminate. }
       unfold Js.indexOf, Js.str, jsstr in *. lia. }
  all: assert (Hni : ~ inner_empty parts)
    by (apply not_inner_empty_index; auto).
  all: destruct (find FORBIDDEN_CHARACTERS parts) as [[|c s]|] eqn:Ef.
  all: try (apply find_some in Ef as [Hin Ef]; try discriminate).
  all: try (intros [= <-]; right; left; split; [reflexivity|];
            split; [assumption|];
            apply FORBIDDEN_CHARACTERS_char in Ef as (c0 & Hc0 & Hf);
            exists (c :: s), c0; auto).
  all: apply find_none_Forall in Ef.
  all: destruct (ignorePattern this) as [re|] eqn:Eig;
    [destruct (find (Js.test re) parts) as [seg|] eqn:Et|].
  all: try (intros [= <-]; right; right; left; split; [reflexivity|];
            split; [assumption|]; split; [assumption|];
            apply find_some in Et as [Hin Ht]; exists re, seg; auto).
  all: try discriminate.
  all: destruct (onDirectory this) eqn:Eo; try discriminate.
  all: intros [= <-]; right; right; right;
    repeat (split; [first [reflexivity | assumption]|]).
  - intros re' [= <-]. now apply find_none_Forall in Et.
  - discriminate.
Qed.

(** X3.  Every rejection of [parsePath] tells its cause: the plain
    error a string without a leading slash, [MalformedPathError] a
    segment of the pathname that does not decode, [NotNormalizedError]
    a string that differs from the pathname and search it carries,
    [InvalidPathError] an array that is empty, does not start with the
    empty string or holds a dot part, [ConsecutiveSlashesError] an
    empty part before the last, [ForbiddenCharacterError] a forbidden
    character in a part, [IgnoredFileError] a part that matches the
    pattern (no part holding a forbidden character),
    [TrailingSlashError] exactly one trailing empty part under
    [onDirectory] false (no part holding a forbidden character or
    matching the pattern); and [parsePath] throws no other error. *)
Theorem parsePath_errors_sound (this : FileSystemStorage) (p : FilePath)
    (e : Error) :
  parsePath this p = inl e ->
  match e with
  | StorageError p' =>
      p' = p /\ exists s, p = PathString s /\ Js.startsWith SLASH s = false
  | MalformedPathError p' raw =>
      p' = p
      /\ exists s, p = PathString s
                   /\ raw = Js.split SLASH (Url.pathname (Url.parse s))
                   /\ map_decodeURIComponent raw = None
  | NotNormalizedError p' parts normalized =>
      p' = p
      /\ exists s, p = PathString s
                   /\ normalized = Url.pathname (Url.parse s)
                                   ++ Url.search (Url.parse s)
                   /\ normalized <> s
  | InvalidPathError p' parts =>
      p' = p /\ p = PathArray parts
      /\ (parts = []
          \/ (exists first rest, parts = first :: rest /\ first <> [])
          \/ Exists (fun s => s = [DOT] \/ s = [DOT; DOT]) parts)
  | ConsecutiveSlashesError p' parts =>
      p' = p /\ decodePath p = inr parts /\ inner_empty parts
  | ForbiddenCharacterError p' parts =>
      p' = p /\ decodePath p = inr parts /\ ~ inner_empty parts
      /\ exists seg c, In seg parts /\ In c seg /\ forbidden_char c
  | IgnoredFileError p' parts =>
      p' = p /\ decodePath p = inr parts /\ ~ inner_empty parts
      /\ Forall (fun s => FORBIDDEN_CHARACTERS s = false) parts
      /\ exists re seg,
           ignorePattern this = Some re /\ In seg parts
           /\ Js.test re seg = true
  | TrailingSlashError p' parts untrailed =>
      p' = p /\ decodePath p = inr parts
      /\ onDirectory this = OnDirectoryFalse
      /\ one_trailing_empty parts /\ untrailed = removelast parts
      /\ Forall (fun s => FORBIDDEN_CHARACTERS s = false) parts
      /\ forall re, ignorePattern this = Some re ->
                    Forall (fun s => Js.test re s = false) parts
  | IsDirectoryError _ _ _ | DoesNotExistError _ _ _
  | FsError _ | TypeError => False
  end.
Proof.
  unfold parsePath.
  destruct (decodePath p) as [e0|parts] eqn:Ed.
  - intros [= <-]. destruct p as [s|arr]; cbn [decodePath] in Ed.
    + destruct (Js.startsWith SLASH s) eqn:Es; cbn [negb] in Ed.
      * destruct (map_decodeURIComponent _) as [ds|] eqn:Em.
        -- destruct (Js.eqb s _) eqn:Ee; cbn [negb] in Ed; [discriminate|].
           injection Ed as <-. split; [reflexivity|]. exists s.
           repeat split. apply Js_eqb_neq in Ee. congruence.
        -- injection Ed as <-. split; [reflexivity|]. exists s. auto.
      * injection Ed as <-. split; [reflexivity|]. now exists s.
    + destruct arr as [|first rest].
      * injection Ed as <-. auto.
      * destruct (Js.eqb first []) eqn:Ef; cbn [negb orb] in Ed.
        -- destruct (existsb is_dot_or_dotdot (first :: rest)) eqn:Ex;
             [|discriminate].
           injection Ed as <-. split; [reflexivity|]. split; [reflexivity|].
           right. right. apply existsb_exists in Ex as (x & Hin & Hx).
           apply Exists_exists. exists x. split; [assumption|].
           unfold is_dot_or_dotdot in Hx. apply orb_true_iff in Hx.
           rewrite !Js_eqb_eq in Hx. exact Hx.
        -- injection Ed as <-. split; [reflexivity|]. split; [reflexivity|].
           right. left. exists first, rest. split; [reflexivity|].
           now apply Js_eqb_neq.
  - intros H. apply checkParts_rejects in H
      as [[-> Hi] | [(-> & Hni & Hf) | [(-> & Hni & Hf & Hig)
                                       | (-> & Ho & Hne & Hl & Hf & Hig)]]];
      auto.
    split; [reflexivity|]. split; [reflexivity|]. split; [assumption|].
    split; [now apply trailing_decompose|]. auto.
Qed.

Lemma parsePath_errors_sound_witness :
  PathString `"/a//b" = PathString `"/a//b"
  /\ decodePath (PathString `"/a//b") = inr [[]; `"a"; []; `"b"]
  /\ inner_empty [[]; `"a"; []; `"b"].
Proof.
  exact (parsePath_errors_sound Demo.plain (PathString `"/a//b")
           (ConsecutiveSlashesError (PathString `"/a//b")
              [[]; `"a"; []; `"b"]) eq_refl).
Defined.

(** X4.  The array of the parts of a reference is accepted exactly
    when the reference is, with the same answer: a string and the
    array of its decoded segments are one reference to [parsePath]. *)
Theorem parsePath_array_of_parts (this : FileSystemStorage) (p : FilePath)
    (parts : list jsstr) (r : ParsedPath) :
  decodePath p = inr parts ->
  parsePath this p = inr r <-> parsePath this (PathArray parts) = inr r.
Proof.
  intros Hd. pose proof (decodePath_array_of_parts _ _ Hd) as Ha.
  unfold parsePath. rewrite Hd, Ha.
  split; apply checkParts_inr_any.
Qed.

Lemma parsePath_array_of_parts_witness :
  parsePath Demo.plain (PathString `"/foo%20bar")
  = inr {| pathParts := [[]; `"foo bar"]; haveTrailingSlash := false |}
  <-> parsePath Demo.plain (PathArray [[]; `"foo bar"])
      = inr {| pathParts := [[]; `"foo bar"]; haveTrailingSlash := false |}.
Proof.
  exact (parsePath_array_of_parts Demo.plain (PathString `"/foo%20bar")
           [[]; `"foo bar"] _ eq_refl).
Defined.

Lemma existsb_false_Forall {A} (f : A -> bool) (l : list A) :
  Forall (fun x => f x = false) l -> existsb f l = false.
Proof.
  induction 1 as [|x l Hx _ IH]; simpl; [reflexivity|]. now rewrite Hx.
Qed.

(** X5.  Asked again with [index.html] in place of the trailing empty
    part, a reference rejected with [TrailingSlashError] is accepted
    with the parts that [serve-index] answers, unless the ignore
    pattern matches [index.html], in which case the second request is
    rejected as ignored. *)
Theorem trailing_slash_retry (this : FileSystemStorage) (p : FilePath)
    (parts untrailed : list jsstr) :
  parsePath this p = inl (TrailingSlashError p parts untrailed) ->
  let retry := PathArray (untrailed ++ [`"index.html"]) in
  parsePath this retry
  = if match ignorePattern this with
       | Some re => Js.test re `"index.html"
       | None => false
       end
    then inl (IgnoredFileError retry (untrailed ++ [`"index.html"]))
    else inr {| pathParts := untrailed ++ [`"index.html"];
                haveTrailingSlash := false |}.
Proof.
  unfold parsePath at 1.
  destruct (decodePath p) as [e0|parts0] eqn:Ed.
  { intros [= ->]. destruct p as [s|arr]; cbn [decodePath] in Ed.
    - destruct (negb _); [discriminate|].
      destruct (map_decodeURIComponent _); [|discriminate].
      destruct (negb _); discriminate.
    - destruct arr; [discriminate|]. destruct (_ || _); discriminate. }
  intros H. apply checkParts_rejects in H
    as [[[=] _] | [([=] & _) | [([=] & _) | (He & Ho & Hne & Hl & Hf & Hi)]]].
  injection He as -> ->.
  pose proof (decodePath_no_dots _ _ Ed) as Hdots.
  destruct (trailing_decompose _ Hne Hl) as (first & mid & -> & Hmid).
  apply decodePath_sentinel in Ed as (rest & [= -> _]).
  unfold Js.str, jsstr in *.
  assert (Hun : removelast ([] :: mid ++ [[]]) = [] :: mid).
  { change ([] :: mid ++ [[]]) with (([] :: mid) ++ [[]]).
    apply removelast_last. }
  rewrite Hun. clear Hun Hne Hl. cbv zeta.
  assert (Hcut : forall P : list N -> Prop,
             Forall P ([] :: mid ++ [[]]) -> Forall P ([] :: mid)).
  { intros P HP. inversion HP as [|? ? H0 Hr]; subst.
    apply Forall_app in Hr as [Hm _]. now constructor. }
  unfold parsePath.
  assert (Hdec : decodePath (PathArray (([] :: mid) ++ [`"index.html"]))
                 = inr (([] :: mid) ++ [`"index.html"])).
  { cbn [decodePath app]. cbn [Js.eqb negb orb].
    rewrite existsb_false_Forall; [reflexivity|].
    apply Hcut in Hdots. change ([] :: mid ++ [`"index.html"])
      with (([] :: mid) ++ [`"index.html"]).
    apply Forall_app. split; [assumption|]. now repeat constructor. }
  unfold Js.str, jsstr in *. rewrite Hdec. unfold checkParts.
  assert (Hidx : Js.indexOf [] 1 (([] :: mid) ++ [`"index.html"]) = -1).
  { unfold Js.indexOf. apply indexOf_at_absent. cbn [app skipn].
    apply Forall_app. split; [assumption|].
    constructor; [discriminate | constructor]. }
  unfold Js.str, jsstr in *. rewrite Hidx. cbn [Z.eqb negb andb].
  assert (Hforb : find FORBIDDEN_CHARACTERS (([] :: mid) ++ [`"index.html"])
                  = None).
  { apply find_none_Forall. apply Forall_app. split; [now apply Hcut|].
    now repeat constructor. }
  unfold Js.str, jsstr in *. rewrite Hforb.
  destruct (ignorePattern this) as [re|]; [|reflexivity].
  specialize (Hi re eq_refl). apply Hcut in Hi.
  destruct (Js.test re `"index.html") eqn:Et.
  - assert (Hs : exists s,
               find (Js.test re) (([] :: mid) ++ [`"index.html"]) = Some s).
    { destruct (find (Js.test re) (([] :: mid) ++ [`"index.html"]))
        as [s|] eqn:Efind; [now exists s|].
      apply find_none_Forall in Efind. apply Forall_app in Efind as [_ Hx].
      inversion Hx; congruence. }
    destruct Hs as [s Hs]. unfold Js.str, jsstr in *. now rewrite Hs.
  - assert (Hnone : find (Js.test re) (([] :: mid) ++ [`"index.html"]) = None).
    { apply find_none_Forall. apply Forall_app. split; [assumption|].
      now repeat constructor. }
    unfold Js.str, jsstr in *. now rewrite Hnone.
Qed.

Lemma trailing_slash_retry_witness :
  parsePath Demo.plain (PathArray ([[]; `"users"] ++ [`"index.html"]))
  = inr {| pathParts := [[]; `"users"] ++ [`"index.html"];
           haveTrailingSlash := false |}.
Proof.
  exact (trailing_slash_retry Demo.plain (PathString `"/users/")
           [[]; `"users"; []] [[]; `"users"] eq_refl).
Defined.

(* ================================================================== *)
(** * The directory listing *)

Lemma find_app_last {A} (f : A -> bool) (a : list A) (n : A) :
  Forall (fun x => f x = false) a ->
  find f (a ++ [n]) = if f n then Some n else None.
Proof.
  induction 1 as [|x a Hx _ IH]; simpl.
  - destruct (f n); reflexivity.
  - now rewrite Hx.
Qed.

(** A vetted array with one more part behind: the new part alone
    decides how [parsePath] answers. *)
Lemma parsePath_appended (this : FileSystemStorage) (mid : list jsstr)
    (n : jsstr) :
  Forall (fun s => s <> []) mid ->
  Forall (fun s => FORBIDDEN_CHARACTERS s = false) ([] :: mid) ->
  Forall (fun s => is_dot_or_dotdot s = false) ([] :: mid) ->
  (forall re, ignorePattern this = Some re ->
              Forall (fun s => Js.test re s = false) ([] :: mid)) ->
  n <> [] -> is_dot_or_dotdot n = false ->
  parsePath this (PathArray (([] :: mid) ++ [n]))
  = if FORBIDDEN_CHARACTERS n
    then inl (ForbiddenCharacterError (PathArray (([] :: mid) ++ [n]))
                (([] :: mid) ++ [n]))
    else if match ignorePattern this with
            | Some re => Js.test re n
            | None => false
            end
    then inl (IgnoredFileError (PathArray (([] :: mid) ++ [n]))
                (([] :: mid) ++ [n]))
    else inr {| pathParts := ([] :: mid) ++ [n];
                haveTrailingSlash := false |}.
Proof.
  intros Hmid Hf Hd Hi Hn Hnd.
  unfold parsePath.
  assert (Hdec : decodePath (PathArray (([] :: mid) ++ [n]))
                 = inr (([] :: mid) ++ [n])).
  { cbn [decodePath app]. cbn [Js.eqb negb orb].
    rewrite existsb_false_Forall; [reflexivity|].
    change ([] :: mid ++ [n]) with (([] :: mid) ++ [n]).
    apply Forall_app. split; [assumption|]. now repeat constructor. }
  unfold Js.str, jsstr in *. rewrite Hdec. unfold checkParts.
  assert (Hidx : Js.indexOf [] 1 (([] :: mid) ++ [n]) = -1).
  { unfold Js.indexOf. apply indexOf_at_absent. cbn [app skipn].
    apply Forall_app. split; [assumption|]. now repeat constructor. }
  unfold Js.str, jsstr in *. rewrite Hidx. cbn [Z.eqb negb andb].
  pose proof (find_app_last FORBIDDEN_CHARACTERS ([] :: mid) n Hf) as Hfind.
  unfold Js.str, jsstr in *. rewrite Hfind.
  destruct (FORBIDDEN_CHARACTERS n) eqn:Efn.
  { destruct n as [|c s]; [discriminate|reflexivity]. }
  destruct (ignorePattern this) as [re|]; [|reflexivity].
  pose proof (find_app_last (Js.test re) ([] :: mid) n (Hi re eq_refl))
    as Hfind'.
  unfold Js.str, jsstr in *. rewrite Hfind'.
  destruct (Js.test re n); reflexivity.
Qed.

(** The parts of a reference answered with directory intent. *)
Lemma directory_parts (this : FileSystemStorage) (p : FilePath)
    (pp : ParsedPath) :
  parsePath this p = inr pp -> haveTrailingSlash pp = true ->
  exists mid,
    pathParts pp = [] :: mid
    /\ Forall (fun s => s <> []) mid
    /\ Forall (fun s => FORBIDDEN_CHARACTERS s = false) ([] :: mid)
    /\ Forall (fun s => is_dot_or_dotdot s = false) ([] :: mid)
    /\ (forall re, ignorePattern this = Some re ->
                   Forall (fun s => Js.test re s = false) ([] :: mid)).
Proof.
  unfold parsePath.
  destruct (decodePath p) as [e|parts] eqn:Ed; [discriminate|].
  intros H Ht. apply checkParts_accepts in H as (Hf & Hi & Hc).
  pose proof (decodePath_no_dots _ _ Ed) as Hdots.
  apply decodePath_sentinel in Ed as (rest & ->).
  destruct Hc as [[_ ->] | [Hidx Hc]]; [discriminate|].
  assert (Hne : Js.indexOf [] 1 ([] :: rest) <> -1)
    by (rewrite Hidx; cbn [List.length]; lia).
  destruct (trailing_decompose _ Hne Hidx) as (first & mid & Heq & Hmid).
  injection Heq as <- ->. unfold Js.str, jsstr in *.
  assert (Hun : removelast ([] :: mid ++ [[]]) = [] :: mid).
  { change ([] :: mid ++ [[]]) with (([] :: mid) ++ [[]]).
    apply removelast_last. }
  rewrite Hun in Hc.
  assert (Hcut : forall P : list N -> Prop,
             Forall P ([] :: mid ++ [[]]) -> Forall P ([] :: mid)).
  { intros P HP. inversion HP as [|? ? H0 Hr]; subst.
    apply Forall_app in Hr as [Hm _]. now constructor. }
  destruct Hc as [[_ ->] | [_ ->]]; [|discriminate].
  exists mid. cbn [pathParts]. auto 10.
Qed.

(** The chunk of every entry that the loop shows stands in the order
    of the directory, and no entry shown holds a forbidden character. *)
Lemma listEntries_subsequence (ignorePattern : option Js.RegExp)
    (files : list Dirent) :
  forall lastIndex,
  exists shown,
    fst (listEntries ignorePattern lastIndex files) = map listingEntry shown
    /\ subsequence shown files
    /\ Forall (fun file => FORBIDDEN_CHARACTERS (d_name file) = false) shown.
Proof.
  induction files as [|file rest IH]; intros lastIndex.
  { exists []. repeat split; constructor. }
  cbn [listEntries].
  destruct (FORBIDDEN_CHARACTERS (d_name file)) eqn:Ef.
  { destruct (IH lastIndex) as (shown & E & Hs & Hf).
    exists shown. repeat split; [exact E | now constructor | exact Hf]. }
  assert (Hkeep : forall li,
            exists shown,
              fst (let '(chunks, li') := listEntries ignorePattern li rest in
                   (listingEntry file :: chunks, li'))
              = map listingEntry shown
              /\ subsequence shown (file :: rest)
              /\ Forall (fun f => FORBIDDEN_CHARACTERS (d_name f) = false)
                        shown).
  { intros li. destruct (IH li) as (shown & E & Hs & Hf).
    destruct (listEntries ignorePattern li rest) as [chunks li'].
    cbn [fst] in *. exists (file :: shown). rewrite E.
    repeat split; [now constructor | now constructor]. }
  destruct ignorePattern as [re|]; [|apply Hkeep].
  destruct (Js.test_at re lastIndex (d_name file)) as [[|] li]; [|apply Hkeep].
  destruct (IH li) as (shown & E & Hs & Hf).
  exists shown. repeat split; [exact E | now constructor | exact Hf].
Qed.

Lemma filter_subsequence {A} (f : A -> bool) (l : list A) :
  subsequence (filter f l) l.
Proof.
  induction l as [|x l IH]; cbn [filter]; [constructor|].
  destruct (f x); now constructor.
Qed.

(** With a pattern that keeps no [lastIndex] the loop shows the
    entries that are [listed], and leaves [lastIndex] as it was. *)
Lemma listEntries_stateless (ignorePattern : option Js.RegExp)
    (files : list Dirent) :
  stateless ignorePattern ->
  forall lastIndex,
    listEntries ignorePattern lastIndex files
    = (map listingEntry (filter (listed ignorePattern) files), lastIndex).
Proof.
  intros Hst lastIndex. induction files as [|file rest IH]; [reflexivity|].
  cbn [listEntries filter]. unfold listed at 1.
  destruct (FORBIDDEN_CHARACTERS (d_name file)); cbn [negb andb];
    [exact IH|].
  destruct ignorePattern as [re|].
  - unfold Js.test_at. cbn [stateless] in Hst. rewrite Hst.
    destruct (Js.test re (d_name file)); cbn [negb]; [exact IH|].
    rewrite IH. reflexivity.
  - rewrite IH. reflexivity.
Qed.

(** For the entries of a directory answered with directory intent,
    being [listed] is being served. *)
Lemma listed_serves (this : FileSystemStorage) (p : FilePath)
    (pp : ParsedPath) (file : Dirent) :
  parsePath this p = inr pp -> haveTrailingSlash pp = true ->
  d_name file <> [] -> is_dot_or_dotdot (d_name file) = false ->
  listed (ignorePattern this) file
  = serves this (pathParts pp ++ [d_name file]).
Proof.
  intros Hp Ht Hn Hd.
  destruct (directory_parts _ _ _ Hp Ht) as (mid & -> & Hmid & Hf & Hdots & Hi).
  pose proof (parsePath_appended this mid (d_name file) Hmid Hf Hdots Hi
                Hn Hd) as Ha.
  unfold serves, listed. unfold Js.str, jsstr in *. rewrite Ha.
  destruct (FORBIDDEN_CHARACTERS (d_name file)); [reflexivity|].
  destruct (ignorePattern this) as [re|]; [|reflexivity].
  destruct (Js.test re (d_name file)); reflexivity.
Qed.

(** With the g flag on the ignore pattern the listing shows an entry
    that the pattern matches and that [parsePath] rejects: the match
    on the entry before leaves [lastIndex] behind the start. *)
Lemma flagged_pattern_shows_ignored :
  let hidden name := {| d_name := name; d_isDirectory := false |} in
  listEntries (ignorePattern Demo.listing_global) 0
    [hidden `".a"; hidden `".b"]
  = ([listingEntry (hidden `".b")], 0%nat)
  /\ parsePath Demo.listing_global (PathArray [[]; `"docs"; `".b"])
     = inl (IgnoredFileError (PathArray [[]; `"docs"; `".b"])
              [[]; `"docs"; `".b"]).
Proof. split; reflexivity. Qed.

Lemma escapeHTMLInPath_cons (c : N) (s : jsstr) :
  escapeHTMLInPath (c :: s)
  = (if (c =? AMPERSAND)%N then `"&amp;" else [c]) ++ escapeHTMLInPath s.
Proof. reflexivity. Qed.

Lemma escapeHTMLInPath_app (a b : jsstr) :
  escapeHTMLInPath (a ++ b) = escapeHTMLInPath a ++ escapeHTMLInPath b.
Proof. unfold escapeHTMLInPath. apply flat_map_app. Qed.

Lemma amp_escaped_escape_app (s t : jsstr) :
  amp_escaped (escapeHTMLInPath s ++ t) = amp_escaped t.
Proof.
  induction s as [|c s IH]; [reflexivity|].
  rewrite escapeHTMLInPath_cons.
  destruct (N.eqb_spec c AMPERSAND) as [->|Hc].
  - cbn. exact IH.
  - cbn [app amp_escaped].
    replace (c =? AMPERSAND)%N with false
      by (symmetry; now apply N.eqb_neq).
    cbn [negb orb andb]. exact IH.
Qed.

(** X7.  [escapeHTMLInPath] loses nothing and leaves no bare
    ampersand: in what it answers every ampersand starts [&amp;], and
    putting the ampersand back for every [&amp;] gives the path it was
    called with; so two paths escaped alike are the same path. *)
Theorem escapeHTMLInPath_faithful (s : jsstr) :
  amp_escaped (escapeHTMLInPath s) = true
  /\ unescapeHTMLInPath (escapeHTMLInPath s) = s
  /\ forall t, escapeHTMLInPath t = escapeHTMLInPath s -> t = s.
Proof.
  assert (Hamp : forall x, amp_escaped (escapeHTMLInPath x) = true).
  { intros x. rewrite <- (app_nil_r (escapeHTMLInPath x)).
    apply amp_escaped_escape_app. }
  assert (Hback : forall x, unescapeHTMLInPath (escapeHTMLInPath x) = x).
  { induction x as [|c x IH]; [reflexivity|].
    rewrite escapeHTMLInPath_cons.
    destruct (N.eqb_spec c AMPERSAND) as [->|Hc].
    - cbn. now rewrite IH.
    - cbn [app]. remember (escapeHTMLInPath x) as ex eqn:Eex.
      assert (Ec : (c =? AMPERSAND)%N = false) by now apply N.eqb_neq.
      cbn [unescapeHTMLInPath].
      destruct ex as [|a [|m [|q [|semi r]]]];
        try (fold unescapeHTMLInPath; rewrite IH; reflexivity).
      rewrite Ec. cbn [andb]. fold unescapeHTMLInPath.
      now rewrite IH. }
  split; [apply Hamp|]. split; [apply Hback|].
  intros t Ht. rewrite <- (Hback t), Ht. apply Hback.
Qed.

Lemma forbidden_free_markup (s : jsstr) :
  FORBIDDEN_CHARACTERS s = false -> markup_free s.
Proof.
  unfold FORBIDDEN_CHARACTERS, markup_free. intros H.
  apply Forall_forall. intros c Hin.
  assert (Hc : forbidden_unit c = false).
  { destruct (forbidden_unit c) eqn:E; [|reflexivity].
    assert (existsb forbidden_unit s = true)
      by (apply existsb_exists; eauto).
    congruence. }
  repeat split; intros ->; discriminate.
Qed.

Lemma escape_markup_free (s : jsstr) :
  markup_free s -> markup_free (escapeHTMLInPath s).
Proof.
  unfold markup_free. induction 1 as [|c s Hc _ IH]; [constructor|].
  rewrite escapeHTMLInPath_cons. apply Forall_app. split; [|exact IH].
  destruct (c =? AMPERSAND)%N.
  - repeat constructor; discriminate.
  - now repeat constructor.
Qed.

Lemma join_markup_free (parts : list jsstr) :
  Forall markup_free parts -> markup_free (Array_join SLASH parts).
Proof.
  induction 1 as [|x r Hx Hr IH]; [constructor|].
  cbn [Array_join]. destruct r as [|y r']; [assumption|].
  unfold markup_free in *. apply Forall_app. split; [assumption|].
  constructor; [repeat split; discriminate | exact IH].
Qed.

Lemma last_markup_free (parts : list jsstr) :
  Forall markup_free parts -> markup_free (last parts []).
Proof.
  induction 1 as [|x r Hx Hr IH]; [constructor|].
  destruct r; [assumption | exact IH].
Qed.

(** X8.  What the listing puts into its markup holds no angle bracket
    and no double quote: neither the name and the path of an accepted
    reference shown in the title, the description and the heading, nor
    the escaped name of an entry that is shown. *)
Theorem listing_markup_safe (this : FileSystemStorage) (p : FilePath)
    (pp : ParsedPath) :
  parsePath this p = inr pp ->
  markup_free (listingDisplayName (pathParts pp))
  /\ markup_free (listingDisplay (pathParts pp))
  /\ forall file,
       listed (ignorePattern this) file = true ->
       markup_free (escapedFilename file).
Proof.
  intros Hp.
  assert (Hparts : Forall markup_free (pathParts pp)).
  { apply parsePath_accepts in Hp as (parts & _ & Hsafe & _ & Hc).
    assert (Hall : Forall markup_free parts).
    { eapply Forall_impl; [|exact Hsafe].
      intros s (_ & _ & Hs). apply Forall_forall. intros c Hin.
      specialize (Hs c Hin). unfold forbidden_char in Hs.
      repeat split; intros ->; apply Hs; left; simpl; tauto. }
    destruct Hc as [-> | [[_ ->] | [_ ->]]].
    - assumption.
    - now apply Forall_removelast.
    - apply Forall_app. split; [now apply Forall_removelast|].
      constructor; [|constructor].
      apply forbidden_free_markup. reflexivity. }
  split; [|split].
  - unfold listingDisplayName. destruct (1 <? _).
    + apply escape_markup_free. now apply last_markup_free.
    + repeat constructor; discriminate.
  - unfold listingDisplay. apply Forall_app. split.
    + destruct (1 <? _); [|constructor].
      apply escape_markup_free. now apply join_markup_free.
    + repeat constructor; discriminate.
  - intros file Hl. unfold listed in Hl.
    apply andb_true_iff in Hl as [Hf _]. apply negb_true_iff in Hf.
    unfold escapedFilename. apply Forall_app. split.
    + apply escape_markup_free. now apply forbidden_free_markup.
    + destruct (d_isDirectory file); repeat constructor; discriminate.
Qed.

Lemma listing_markup_safe_witness :
  markup_free (listingDisplayName [[]; `"docs"])
  /\ markup_free (listingDisplay [[]; `"docs"])
  /\ forall file,
       listed (ignorePattern Demo.listing) file = true ->
       markup_free (escapedFilename file).
Proof.
  exact (listing_markup_safe Demo.listing (PathString `"/docs/")
           {| pathParts := [[]; `"docs"]; haveTrailingSlash := true |}
           eq_refl).
Defined.

Section ListingFacts.
Context {W : Type} {FD : FSDirModule W}.

(** X9.  The listing starts with the header whether or not the
    directory can be opened, and ends with the footer exactly when
    the directory was read to its end: when opening fails the header
    is all that is yielded before the error, and when reading fails on
    the way the chunks of the entries read so far are.  Between the
    two stand chunks of entries of the directory, in its order, none
    of which holds a forbidden character in its name or an angle
    bracket or a double quote in its escaped name, whatever the flags
    of the ignore pattern and its [lastIndex]; with a pattern that
    keeps no [lastIndex] they are the chunks of exactly the entries
    without a forbidden character that the pattern does not match, and
    [lastIndex] is left as it was. *)
Theorem getDirectoryListing_chunks (this : FileSystemStorage)
    (storageInfo : StorageInfo) (lastIndex : nat) (w : W) :
  let header := listingHeader (fd_pathParts (attachedData storageInfo)) in
  match opendir storageInfo w with
  | (inl e, w') =>
      getDirectoryListing this storageInfo lastIndex w
      = (([header], Some e), (lastIndex, w'))
  | (inr dir, w') =>
      exists shown lastIndex',
        getDirectoryListing this storageInfo lastIndex w
        = ((header :: map listingEntry shown
            ++ match dir_error dir with
               | Some _ => []
               | None => [listingFooter]
               end,
            dir_error dir), (lastIndex', w'))
        /\ subsequence shown (dir_entries dir)
        /\ Forall (fun file =>
                     FORBIDDEN_CHARACTERS (d_name file) = false
                     /\ markup_free (escapedFilename file)) shown
        /\ (stateless (ignorePattern this) ->
            shown = filter (listed (ignorePattern this)) (dir_entries dir)
            /\ lastIndex' = lastIndex)
  end.
Proof.
  cbv zeta. unfold getDirectoryListing.
  destruct (opendir storageInfo w) as [[e|dir] w']; [reflexivity|].
  assert (Hsafe : forall shown,
            Forall (fun f => FORBIDDEN_CHARACTERS (d_name f) = false) shown ->
            Forall (fun f => FORBIDDEN_CHARACTERS (d_name f) = false
                             /\ markup_free (escapedFilename f)) shown).
  { intros shown. apply Forall_impl. intros f Hf. split; [exact Hf|].
    unfold escapedFilename. apply Forall_app. split.
    - apply escape_markup_free. now apply forbidden_free_markup.
    - destruct (d_isDirectory f); repeat constructor; discriminate. }
  assert (Hshape : forall chunks (li : nat) shown,
            chunks = map listingEntry shown ->
            match dir_error dir with
            | Some e =>
                ((listingHeader (fd_pathParts (attachedData storageInfo))
                  :: chunks, Some e), (li, w'))
            | None =>
                ((listingHeader (fd_pathParts (attachedData storageInfo))
                  :: chunks ++ [listingFooter], None), (li, w'))
            end
            = ((listingHeader (fd_pathParts (attachedData storageInfo))
                :: map listingEntry shown
                ++ match dir_error dir with
                   | Some _ => []
                   | None => [listingFooter]
                   end,
                dir_error dir), (li, w'))).
  { intros chunks li shown ->.
    destruct (dir_error dir); [now rewrite app_nil_r | reflexivity]. }
  assert (Hdec : stateless (ignorePattern this)
                 \/ ~ stateless (ignorePattern this)).
  { unfold stateless. destruct (ignorePattern this) as [re|]; [|now left].
    destruct (Js.lastIndexed re); [right; discriminate | now left]. }
  destruct Hdec as [Hst | Hnst].
  - rewrite (listEntries_stateless _ _ Hst). cbv beta iota.
    exists (filter (listed (ignorePattern this)) (dir_entries dir)), lastIndex.
    split; [now apply Hshape|]. split; [apply filter_subsequence|].
    split; [|auto]. apply Hsafe. apply Forall_forall. intros f Hin.
    apply filter_In in Hin as [_ Hl]. unfold listed in Hl.
    apply andb_true_iff in Hl as [Hl _]. now apply negb_true_iff in Hl.
  - destruct (listEntries_subsequence (ignorePattern this) (dir_entries dir)
                lastIndex) as (shown & E & Hs & Hf).
    destruct (listEntries (ignorePattern this) lastIndex (dir_entries dir))
      as [chunks li].
    cbn [fst] in E. exists shown, li.
    split; [now apply Hshape|]. split; [exact Hs|].
    split; [now apply Hsafe|]. intros Hst. contradiction.
Qed.

(** X6.  With an ignore pattern without the g and y flags, the
    listing shows an entry exactly when the storage accepts the path
    of that entry: for a directory answered with directory intent
    whose entries have names other than the empty string, [.] and
    [..], the chunks between the header and the footer are those of
    the entries for which [parsePath] accepts the parts of the
    directory with the name behind, in the order of the directory. *)
Theorem listing_shows_what_is_served (this : FileSystemStorage)
    (p : FilePath) (pp : ParsedPath) (storageInfo : StorageInfo)
    (lastIndex : nat) (w w' : W) (dir : Dir) :
  parsePath this p = inr pp -> haveTrailingSlash pp = true ->
  fd_pathParts (attachedData storageInfo) = pathParts pp ->
  stateless (ignorePattern this) ->
  opendir storageInfo w = (inr dir, w') ->
  Forall (fun file => d_name file <> []
                      /\ is_dot_or_dotdot (d_name file) = false)
         (dir_entries dir) ->
  fst (fst (getDirectoryListing this storageInfo lastIndex w))
  = listingHeader (pathParts pp)
    :: map listingEntry
         (filter (fun file => serves this (pathParts pp ++ [d_name file]))
                 (dir_entries dir))
    ++ match dir_error dir with
       | Some _ => []
       | None => [listingFooter]
       end.
Proof.
  intros Hp Ht Hparts Hst Ho Hnames.
  unfold getDirectoryListing. rewrite Ho, Hparts.
  rewrite (listEntries_stateless _ _ Hst).
  assert (Hf : filter (listed (ignorePattern this)) (dir_entries dir)
               = filter (fun file =>
                           serves this (pathParts pp ++ [d_name file]))
                        (dir_entries dir)).
  { apply filter_ext_in. intros file Hin.
    rewrite Forall_forall in Hnames. destruct (Hnames file Hin) as [Hn Hd].
    now apply (listed_serves this p pp). }
  rewrite Hf.
  destruct (dir_error dir); cbn [fst]; [now rewrite app_nil_r | reflexivity].
Qed.

End ListingFacts.

Lemma docs_info_opened :
  exists w',
    open (FS := Posix.fs) (IM := Posix.imports)
      Demo.listing (PathString `"/docs/") Demo.no_headers Demo.disk
    = (inr docs_info, w').
Proof. eexists. vm_compute. reflexivity. Qed.

Lemma listing_shows_what_is_served_witness :
  fst (fst (getDirectoryListing (FD := docs_dirs) Demo.listing docs_info 0
              Demo.disk))
  = listingHeader [[]; `"docs"]
    :: map listingEntry
         (filter (fun file =>
                    serves Demo.listing ([[]; `"docs"] ++ [d_name file]))
                 docs_entries)
    ++ [listingFooter].
Proof.
  refine (listing_shows_what_is_served (FD := docs_dirs) Demo.listing
            (PathString `"/docs/")
            {| pathParts := [[]; `"docs"]; haveTrailingSlash := true |}
            docs_info 0 Demo.disk Demo.disk
            {| dir_entries := docs_entries; dir_error := None |}
            eq_refl eq_refl eq_refl eq_refl eq_refl _).
  repeat constructor; discriminate.
Defined.

(* ================================================================== *)
(** * More of [open] *)

Section MoreOpenFacts.
Context {W : Type} {FS : FSModule W} {IM : Imports}.

(** The loop, when it ends without throwing: nothing was found and
    the variables stand as before, or a candidate that is a regular
    file was opened and the encoding and the path are its own. *)
Lemma probe_served (p : FilePath) (parts : list jsstr)
    (m : RegexpContentEncodingMapping) cands :
  forall l w l' w',
    l_fd l = None ->
    probeEncodings p parts m cands (l, w) = (inr tt, (l', w')) ->
    (l_fd l' = None /\ l_resolvedPath l' = l_resolvedPath l)
    \/ exists fd st name pref,
         l_fd l' = Some fd /\ l_stats l' = Some st
         /\ isDirectory st = false
         /\ In (name, pref) cands
         /\ l_contentEncoding l' = name
         /\ l_resolvedPath l'
            = Js.replace (matcher m) (l_resolvedPath l) (path pref).
Proof.
  induction cands as [|[name pref] rest IH]; intros l w l' w' Hl H.
  - cbn in H. injection H as <- _. left. auto.
  - cbn [probeEncodings] in H. exc_run H.
    destruct (fsOpen _ w) as [[e|fd] w1]; exc_run H.
    + apply IH in H; [|reflexivity]. cbn in H.
      destruct H as [H | (fd & st & n & pr & H1 & H2 & H3 & H4 & H5)];
        [left; exact H | right].
      exists fd, st, n, pr. repeat split; try tauto. now right.
    + destruct (fsFstat fd w1) as [[e|st] w2]; exc_run H; [discriminate|].
      destruct (isDirectory st) eqn:Ed.
      * destruct (Js.eqb name _); [discriminate|]. exc_run H.
        destruct (fsClose fd w2) as [[e|[]] w3]; exc_run H; [discriminate|].
        apply IH in H; [|reflexivity]. cbn in H.
        destruct H as [H | (fd' & st' & n & pr & H1 & H2 & H3 & H4 & H5)];
          [left; exact H | right].
        exists fd', st', n, pr. repeat split; try tauto. now right.
      * injection H as <- _. right. exists fd, st, name, pref.
        cbn. repeat split; auto.
Qed.

(** The loop throws [IsDirectoryError] on the path it was entered
    with, or what [fstat] or [close] threw. *)
Lemma probe_throws (p : FilePath) (parts : list jsstr)
    (m : RegexpContentEncodingMapping) cands :
  forall l w e l' w',
    probeEncodings p parts m cands (l, w) = (inl e, (l', w')) ->
    e = IsDirectoryError p parts (l_resolvedPath l) \/ thrown_by_fs e.
Proof.
  induction cands as [|[name pref] rest IH]; intros l w e l' w' H.
  - discriminate.
  - cbn [probeEncodings] in H. exc_run H.
    destruct (fsOpen _ w) as [[e1|fd] w1]; exc_run H.
    + apply IH in H. exact H.
    + destruct (fsFstat fd w1) as [[e1|st] w2] eqn:Es; exc_run H.
      * injection H as <- _. right. exists fd, w1, w2. now left.
      * destruct (isDirectory st).
        -- destruct (Js.eqb name _).
           ++ injection H as <- _. now left.
           ++ exc_run H.
              destruct (fsClose fd w2) as [[e1|[]] w3] eqn:Ec; exc_run H.
              ** injection H as <- _. right. exists fd, w2, w3. now right.
              ** apply IH in H. exact H.
        -- discriminate.
Qed.

(** What the body of the [try] throws. *)
Lemma tryBody_throws (this : FileSystemStorage) (p : FilePath)
    (h : StorageRequestHeaders) (pp : ParsedPath) l w e l' w' :
  l_fd l = None ->
  tryBody this p h pp (l, w) = (inl e, (l', w')) ->
  e = DoesNotExistError p (pathParts pp) (l_resolvedPath l)
  \/ e = IsDirectoryError p (pathParts pp) (l_resolvedPath l)
  \/ (e = TrailingSlashError p (pathParts pp ++ [[]]) (pathParts pp)
      /\ haveTrailingSlash pp = true)
  \/ thrown_by_fs e.
Proof.
  unfold tryBody. intros Hl H. exc_run H.
  destruct (selectMapping this (haveTrailingSlash pp) (l_resolvedPath l))
    as [m|].
  - exc_run H.
    destruct (probeEncodings _ _ _ _ _) as [[e1|[]] [l1 w1]] eqn:Ep;
      exc_run H.
    + injection H as <- _. apply probe_throws in Ep. cbn in Ep. tauto.
    + apply probe_served in Ep; [|exact Hl]. cbn in Ep.
      destruct Ep as [[Hfd Hr] | (fd & st & _ & _ & Hfd & Hst & _)].
      * rewrite Hfd in H. injection H as <- _. left. now rewrite Hr.
      * rewrite Hfd, Hst in H. discriminate.
  - exc_run H.
    destruct (fsOpen _ w) as [[e1|fd] w1]; exc_run H.
    + injection H as <- _. now left.
    + destruct (fsFstat fd w1) as [[e1|st] w2] eqn:Es; exc_run H.
      * injection H as <- _. right. right. right.
        exists fd, w1, w2. now left.
      * destruct (isDirectory st).
        -- destruct (haveTrailingSlash pp); cbn [negb] in H.
           ++ exc_run H.
              destruct (fsClose fd w2) as [[e1|[]] w3] eqn:Ec; exc_run H;
                [|discriminate].
              injection H as <- _. right. right. right.
              exists fd, w2, w3. now right.
           ++ injection H as <- _. right. now left.
        -- destruct (haveTrailingSlash pp); [|discriminate].
           injection H as <- _. right. right. left. auto.
Qed.

(** The [catch] throws the error again, or what [close] threw. *)
Lemma catchClause_rethrows (err e : Error) l w s' :
  catchClause err (l, w) = (inl e, s') -> e = err \/ thrown_by_fs e.
Proof.
  unfold catchClause. intros H. exc_run H.
  destruct (l_fd l) as [fd|].
  - exc_run H. destruct (fsClose fd w) as [[e1|[]] w1] eqn:Ec; exc_run H.
    + injection H as <- _. right. exists fd, w, w1. now right.
    + injection H as <- _. now left.
  - injection H as <- _. now left.
Qed.

(** The listing answered inside the [try]. *)
Lemma tryBody_listing (this : FileSystemStorage) (p : FilePath)
    (h : StorageRequestHeaders) (pp : ParsedPath) l w info l' w' :
  tryBody this p h pp (l, w) = (inr (Some info), (l', w')) ->
  haveTrailingSlash pp = true
  /\ isDirectory (fd_stats (attachedData info)) = true
  /\ fd_resolvedPath (attachedData info) = l_resolvedPath l
  /\ size info = None /\ mtimeMs info = None
  /\ contentEncoding info = None
  /\ mimeType info = Some `"text/html"
  /\ mimeTypeCharset info = Some `"UTF-8".
Proof.
  unfold tryBody. intros H. exc_run H.
  destruct (selectMapping this (haveTrailingSlash pp) (l_resolvedPath l))
    as [m|].
  - exfalso. exc_run H.
    destruct (probeEncodings _ _ _ _ _) as [[e|[]] [l1 w1]]; exc_run H;
      [discriminate|].
    destruct (l_fd l1), (l_stats l1); discriminate.
  - exc_run H.
    destruct (fsOpen _ w) as [[e|fd] w1]; exc_run H; [discriminate|].
    destruct (fsFstat fd w1) as [[e|st] w2]; exc_run H; [discriminate|].
    destruct (isDirectory st) eqn:Ed.
    + destruct (haveTrailingSlash pp); cbn [negb] in H; [|discriminate].
      exc_run H.
      destruct (fsClose fd w2) as [[e|[]] w3]; exc_run H; [discriminate|].
      injection H as <- _ _. cbn. auto 10.
    + destruct (haveTrailingSlash pp); discriminate.
Qed.

(** The file that the body of the [try] leaves to the last [return]. *)
Lemma tryBody_file (this : FileSystemStorage) (p : FilePath)
    (h : StorageRequestHeaders) (pp : ParsedPath) l w l' w' :
  l_fd l = None ->
  tryBody this p h pp (l, w) = (inr None, (l', w')) ->
  haveTrailingSlash pp = false
  /\ exists fd st,
       l_fd l' = Some fd /\ l_stats l' = Some st
       /\ isDirectory st = false
       /\ match selectMapping this false (l_resolvedPath l) with
          | None =>
              l_contentEncoding l' = l_contentEncoding l
              /\ l_resolvedPath l' = l_resolvedPath l
          | Some m =>
              exists name pref,
                In (name, pref)
                   (acceptEncodings (accept_encoding h)
                      (encodingPreferences m)
                      (identityEncodingPreference m))
                /\ l_contentEncoding l' = name
                /\ l_resolvedPath l'
                   = Js.replace (matcher m) (l_resolvedPath l) (path pref)
          end.
Proof.
  unfold tryBody. intros Hl H. exc_run H.
  assert (Hts : haveTrailingSlash pp = false).
  { destruct (haveTrailingSlash pp) eqn:Et; [exfalso|reflexivity].
    unfold selectMapping in H.
    replace (match contentEncodingMappings this with
             | Some encodingsMappings =>
                 if negb true
                 then find (fun encodingMapping =>
                              Js.test (matcher encodingMapping)
                                      (l_resolvedPath l))
                           encodingsMappings
                 else None
             | None => None
             end) with (@None RegexpContentEncodingMapping) in H
      by (destruct (contentEncodingMappings this); reflexivity).
    exc_run H.
    destruct (fsOpen _ w) as [[e|fd] w1]; exc_run H; [discriminate|].
    destruct (fsFstat fd w1) as [[e|st] w2]; exc_run H; [discriminate|].
    destruct (isDirectory st); cbn [negb] in H; [|discriminate].
    exc_run H. destruct (fsClose fd w2) as [[e|[]] w3]; discriminate. }
  split; [exact Hts|]. rewrite Hts in H.
  destruct (selectMapping this false (l_resolvedPath l)) as [m|].
  - exc_run H.
    destruct (probeEncodings _ _ _ _ _) as [[e|[]] [l1 w1]] eqn:Ep;
      exc_run H; [discriminate|].
    apply probe_served in Ep; [|exact Hl]. cbn in Ep.
    destruct Ep as [[Hfd _] | (fd & st & name & pref & Hfd & Hst & Hd & Hin
                               & Hn & Hr)].
    + rewrite Hfd in H. discriminate.
    + rewrite Hfd, Hst in H. injection H as <- _.
      exists fd, st. repeat split; auto. exists name, pref. auto.
  - exc_run H.
    destruct (fsOpen _ w) as [[e|fd] w1]; exc_run H; [discriminate|].
    destruct (fsFstat fd w1) as [[e|st] w2]; exc_run H; [discriminate|].
    destruct (isDirectory st) eqn:Ed; cbn [negb] in H; [discriminate|].
    injection H as <- _. exists fd, st. cbn. auto.
Qed.

End MoreOpenFacts.

Section OpenAnswers.
Context {W : Type} {FS : FSModule W} {IM : Imports}.

(** X10.  An error that leaves [open] is one of [parsePath], or, the
    reference accepted, [DoesNotExistError] or [IsDirectoryError] on
    the path joined from the root and the parts (never on the path of
    an encoding), [TrailingSlashError] for a reference with directory
    intent, or what [fstat] or [close] of the [fs] module threw.  What
    [open] of the [fs] module throws never leaves [open]. *)
Theorem open_errors (this : FileSystemStorage) (p : FilePath)
    (h : StorageRequestHeaders) (w w' : W) (e : Error) :
  open this p h w = (inl e, w') ->
  parsePath this p = inl e
  \/ exists pp,
       parsePath this p = inr pp
       /\ let resolved := join (root this) (pathParts pp) in
          e = DoesNotExistError p (pathParts pp) resolved
          \/ e = IsDirectoryError p (pathParts pp) resolved
          \/ (e = TrailingSlashError p (pathParts pp ++ [[]]) (pathParts pp)
              /\ haveTrailingSlash pp = true)
          \/ thrown_by_fs e.
Proof.
  unfold open. destruct (parsePath this p) as [e0|pp].
  { intros [= <- _]. now left. }
  intros H. right. exists pp. split; [reflexivity|]. cbv zeta.
  unfold Exc.try_catch in H.
  destruct (tryBody this p h pp (initialLocals this pp, w))
    as [[e1|r1] [l1 w1]] eqn:Eb.
  - apply tryBody_throws in Eb; [|reflexivity]. cbn in Eb.
    destruct (catchClause e1 (l1, w1)) as [[e2|r2] [l2 w2]] eqn:Ec.
    + injection H as <- _.
      apply catchClause_rethrows in Ec as [-> | Hfs]; tauto.
    + destruct (catchClause_throws e1 (l1, w1)) as (e3 & s3 & E3).
      rewrite E3 in Ec. discriminate.
  - destruct r1 as [i|]; [discriminate|].
    apply tryBody_falls_through in Eb as ((fd & st & Hfd & Hst) & _).
    rewrite Hfd, Hst in H. discriminate.
Qed.

(** What a successful [open] answers, in full. *)
Lemma open_result (this : FileSystemStorage) (p : FilePath)
    (h : StorageRequestHeaders) (w w' : W) (info : StorageInfo) :
  open this p h w = (inr info, w') ->
  exists pp,
    parsePath this p = inr pp
    /\ fd_pathParts (attachedData info) = pathParts pp
    /\ let resolved := join (root this) (pathParts pp) in
       let stats := fd_stats (attachedData info) in
       (isDirectory stats = true
        /\ haveTrailingSlash pp = true
        /\ fd_resolvedPath (attachedData info) = resolved
        /\ size info = None /\ mtimeMs info = None
        /\ contentEncoding info = None
        /\ mimeType info = Some `"text/html")
       \/ (isDirectory stats = false
           /\ haveTrailingSlash pp = false
           /\ size info = Some (st_size stats)
           /\ mtimeMs info = Some (st_mtimeMs stats)
           /\ mimeType info = None
           /\ match selectMapping this false resolved with
              | None =>
                  contentEncoding info = Some `"identity"
                  /\ fd_resolvedPath (attachedData info) = resolved
              | Some m =>
                  exists name pref,
                    In (name, pref)
                       (acceptEncodings (accept_encoding h)
                          (encodingPreferences m)
                          (identityEncodingPreference m))
                    /\ contentEncoding info = Some name
                    /\ fd_resolvedPath (attachedData info)
                       = Js.replace (matcher m) resolved (path pref)
              end).
Proof.
  unfold open. destruct (parsePath this p) as [e|pp]; [discriminate|].
  intros H. exists pp. split; [reflexivity|].
  destruct (Exc.try_catch _ _ _) as [[e|[i|]] [l1 w1]] eqn:Et;
    [discriminate| |]; apply try_catch_inr in Et.
  - injection H as <- _.
    pose proof (tryBody_returns _ _ _ _ _ _ _ _ _ Et) as (_ & Hp & _).
    apply tryBody_listing in Et. cbn in Et.
    split; [exact Hp|]. cbv zeta. left. tauto.
  - assert (Hl : l_fd (initialLocals this pp) = None) by reflexivity.
    pose proof (tryBody_file _ _ _ _ _ _ _ _ Hl Et)
      as (Hts & fd & st & Hfd & Hst & Hd & Hm).
    rewrite Hfd, Hst in H. injection H as <- _. cbn.
    split; [reflexivity|]. right. cbn in Hm.
    repeat split; auto.
    destruct (selectMapping this false (join (root this) (pathParts pp)))
      as [m|].
    + destruct Hm as (name & pref & Hin & Hn & Hr).
      exists name, pref. rewrite Hn. auto.
    + destruct Hm as [-> ->]. auto.
Qed.

(** X11.  A successful [open] answers a directory only for a
    reference with directory intent, without size, modification time
    and encoding, and [createReadableStream] then streams the listing;
    everything else it answers is a regular file with its size and
    modification time, which [createReadableStream] reads from the
    descriptor and the path of the answer, with the range and
    [autoClose] it is given. *)
Theorem open_stream_kind (this : FileSystemStorage) (p : FilePath)
    (h : StorageRequestHeaders) (w w' : W) (info : StorageInfo)
    (range : option (Z * Z)) (autoClose : bool) :
  open this p h w = (inr info, w') ->
  exists pp,
    parsePath this p = inr pp
    /\ let stats := fd_stats (attachedData info) in
       if haveTrailingSlash pp
       then isDirectory stats = true
            /\ size info = None /\ mtimeMs info = None
            /\ contentEncoding info = None
            /\ createReadableStream info range autoClose = FromListing info
       else isDirectory stats = false
            /\ size info = Some (st_size stats)
            /\ mtimeMs info = Some (st_mtimeMs stats)
            /\ createReadableStream info range autoClose
               = FromReadStream (fd_resolvedPath (attachedData info))
                   {| rs_fd := fd_fd (attachedData info);
                      rs_autoClose := autoClose;
                      rs_range := range |}.
Proof.
  intros H. apply open_result in H as (pp & Hp & _ & Hk).
  exists pp. split; [exact Hp|]. cbv zeta in *.
  unfold createReadableStream.
  destruct Hk as [(Hd & -> & _ & Hs & Hm & Hc & _)
                 | (Hd & -> & Hs & Hm & _)]; rewrite Hd; auto.
Qed.


(** X13.  With the default [ignorePattern], no part of what a
    successful [open] answers starts with a dot. *)
Theorem open_hides_dot_files (root : jsstr)
    (opts : FileSystemStorageOptions) (p : FilePath)
    (h : StorageRequestHeaders) (w w' : W) (info : StorageInfo) :
  opt_ignorePattern opts = None ->
  open (constructor root opts) p h w = (inr info, w') ->
  Forall (fun part => Js.startsWith DOT part = false)
         (fd_pathParts (attachedData info)).
Proof.
  intros Hopt H. apply open_succeeds in H as (pp & Hp & -> & _).
  assert (Hig : ignorePattern (constructor root opts) = Some DEFAULT_IGNORE)
    by (unfold constructor; cbn; now rewrite Hopt).
  apply parsePath_accepts in Hp as (parts & _ & _ & Hi & Hc).
  specialize (Hi _ Hig). cbn [Js.test DEFAULT_IGNORE] in Hi.
  destruct Hc as [-> | [[_ ->] | [_ ->]]].
  - assumption.
  - now apply Forall_removelast.
  - apply Forall_app. split; [now apply Forall_removelast|].
    now repeat constructor.
Qed.

End OpenAnswers.

Lemma open_stream_kind_witness :
  exists info w',
    open (FS := Posix.fs) (IM := Posix.imports)
      Demo.listing (PathString `"/docs/") Demo.no_headers Demo.disk
    = (inr info, w')
    /\ exists pp,
         parsePath Demo.listing (PathString `"/docs/") = inr pp
         /\ let stats := fd_stats (attachedData info) in
            if haveTrailingSlash pp
            then isDirectory stats = true
                 /\ size info = None /\ mtimeMs info = None
                 /\ contentEncoding info = None
                 /\ createReadableStream info None true = FromListing info
            else isDirectory stats = false
                 /\ size info = Some (st_size stats)
                 /\ mtimeMs info = Some (st_mtimeMs stats)
                 /\ createReadableStream info None true
                    = FromReadStream (fd_resolvedPath (attachedData info))
                        {| rs_fd := fd_fd (attachedData info);
                           rs_autoClose := true;
                           rs_range := None |}.
Proof.
  eexists. eexists.
  refine ((fun H => conj H (open_stream_kind _ _ _ _ _ _ None true H)) _).
  vm_compute. reflexivity.
Defined.


Lemma open_hides_dot_files_witness :
  exists info w',
    open (FS := Posix.fs) (IM := Posix.imports)
      (constructor `"/srv" Demo.no_options) (PathString `"/hello.txt")
      Demo.no_headers Demo.disk
    = (inr info, w')
    /\ Forall (fun part => Js.startsWith DOT part = false)
              (fd_pathParts (attachedData info)).
Proof.
  eexists. eexists.
  refine ((fun H => conj H (open_hides_dot_files `"/srv" Demo.no_options
                              _ _ _ _ _ eq_refl H)) _).
  vm_compute. reflexivity.
Defined.

Lemma open_errors_witness :
  exists e w',
    open (FS := Posix.fs) (IM := Posix.imports)
      Demo.plain (PathString `"/docs") Demo.no_headers Demo.disk
    = (inl e, w')
    /\ (parsePath Demo.plain (PathString `"/docs") = inl e
        \/ exists pp,
             parsePath Demo.plain (PathString `"/docs") = inr pp
             /\ let resolved :=
                  join (Imports := Posix.imports) (root Demo.plain)
                       (pathParts pp) in
                e = DoesNotExistError (PathString `"/docs") (pathParts pp)
                      resolved
                \/ e = IsDirectoryError (PathString `"/docs") (pathParts pp)
                         resolved
                \/ (e = TrailingSlashError (PathString `"/docs")
                          (pathParts pp ++ [[]]) (pathParts pp)
                    /\ haveTrailingSlash pp = true)
                \/ thrown_by_fs (FS := Posix.fs) e).
Proof.
  eexists. eexists.
  refine ((fun H => conj H (open_errors _ _ _ _ _ _ H)) _).
  vm_compute. reflexivity.
Defined.

(* ================================================================== *)
(** * How many descriptors [open] holds *)

Lemma most_held_ge (evs : list Event) :
  forall held, (List.length held <= most_held held evs)%nat.
Proof.
  induction evs as [|[fd|fd] evs IH]; intros held; cbn [most_held];
    [lia | |]; apply Nat.le_max_l.
Qed.

Lemma most_held_app (a b : list Event) :
  forall held,
    most_held held (a ++ b)
    = Nat.max (most_held held a) (most_held (outstanding held a) b).
Proof.
  induction a as [|[fd|fd] a IH]; intros held; cbn [app most_held outstanding].
  - pose proof (most_held_ge b held). lia.
  - rewrite IH. lia.
  - rewrite IH. lia.
Qed.

Lemma most_held_open_close (fd : Fd) :
  most_held [] [Opened fd; CloseCalled fd] = 1%nat.
Proof. cbn. now rewrite Z.eqb_refl. Qed.

Section MoreTracedFacts.
Context {W : Type} (FS : FSModule W) {IM : Imports}.

Ltac traced_run H :=
  exc_run H; cbn [fsOpen fsFstat fsClose Traced fst snd] in H; exc_run H.

(** Entered with no descriptor held, the loop never has more than
    one descriptor outstanding. *)
Lemma probe_one_at_a_time (p : FilePath) (parts : list jsstr)
    (m : RegexpContentEncodingMapping) cands :
  forall l w tr r l' w' tr',
    l_fd l = None ->
    probeEncodings (FS := Traced FS) p parts m cands (l, (w, tr))
    = (r, (l', (w', tr'))) ->
    exists evs,
      tr' = tr ++ evs
      /\ (most_held [] evs <= 1)%nat
      /\ outstanding [] evs = held_by l'.
Proof.
  induction cands as [|[name pref] rest IH];
    intros l w tr r l' w' tr' Hl H.
  - cbn in H. injection H as _ <- _ <-. exists [].
    unfold held_by. rewrite Hl, app_nil_r. cbn. auto.
  - cbn [probeEncodings] in H. traced_run H.
    destruct (fsOpen _ w) as [[e|fd] w1]; traced_run H.
    + apply IH in H; [exact H | reflexivity].
    + destruct (fsFstat fd w1) as [[e|st] w2]; traced_run H.
      * injection H as _ <- _ <-. exists [Opened fd]. cbn. auto.
      * destruct (isDirectory st).
        -- destruct (Js.eqb name _).
           ++ injection H as _ <- _ <-. exists [Opened fd]. cbn. auto.
           ++ traced_run H.
              destruct (fsClose fd w2) as [[e|[]] w3]; traced_run H.
              ** injection H as _ <- _ <-.
                 exists [Opened fd; CloseCalled fd].
                 rewrite <- app_assoc. split; [reflexivity|].
                 rewrite most_held_open_close.
                 split; [lia | apply outstanding_open_close].
              ** apply IH in H; [|reflexivity].
                 destruct H as (evs & -> & Hmost & Hout).
                 exists ([Opened fd; CloseCalled fd] ++ evs).
                 rewrite <- !app_assoc. split; [reflexivity|].
                 rewrite most_held_app, outstanding_app,
                   outstanding_open_close, most_held_open_close.
                 split; [lia | exact Hout].
        -- injection H as _ <- _ <-. exists [Opened fd]. cbn. auto.
Qed.

(** The body of the [try]: a listing returned has its descriptor
    opened and closed; otherwise what is outstanding is what [fd]
    holds, or nothing when it throws. *)
Lemma tryBody_one_at_a_time (this : FileSystemStorage) (p : FilePath)
    (h : StorageRequestHeaders) (pp : ParsedPath)
    l w tr r l' w' tr' :
  l_fd l = None ->
  tryBody (FS := Traced FS) this p h pp (l, (w, tr))
  = (r, (l', (w', tr'))) ->
  exists evs,
    tr' = tr ++ evs
    /\ (most_held [] evs <= 1)%nat
    /\ match r with
       | inr (Some info) =>
           evs = [Opened (fd_fd (attachedData info));
                  CloseCalled (fd_fd (attachedData info))]
       | inr None => outstanding [] evs = held_by l'
       | inl _ => outstanding [] evs = held_by l' \/ outstanding [] evs = []
       end.
Proof.
  unfold tryBody. intros Hl H. exc_run H.
  destruct (selectMapping this (haveTrailingSlash pp) (l_resolvedPath l))
    as [m|].
  - exc_run H.
    destruct (probeEncodings _ _ _ _ _) as [[e1|[]] [l1 [w1 tr1]]] eqn:Ep;
      exc_run H; (apply probe_one_at_a_time in Ep; [|exact Hl]);
      destruct Ep as (evs & -> & Hmost & Hout); exists evs.
    + injection H as <- <- _ <-. auto.
    + destruct (l_fd l1), (l_stats l1);
        injection H as <- <- _ <-; auto.
  - traced_run H.
    destruct (fsOpen _ w) as [[e1|fd] w1]; traced_run H.
    + injection H as <- <- _ <-. exists []. rewrite app_nil_r. cbn. auto.
    + destruct (fsFstat fd w1) as [[e1|st] w2]; traced_run H.
      * injection H as <- <- _ <-. exists [Opened fd]. cbn. auto.
      * destruct (isDirectory st).
        -- destruct (negb (haveTrailingSlash pp)).
           ++ injection H as <- <- _ <-. exists [Opened fd]. cbn. auto.
           ++ traced_run H.
              destruct (fsClose fd w2) as [[e1|[]] w3]; traced_run H;
                injection H as <- <- _ <-;
                exists [Opened fd; CloseCalled fd];
                rewrite <- app_assoc, most_held_open_close;
                (split; [reflexivity|]); (split; [lia|]).
              ** right. apply outstanding_open_close.
              ** reflexivity.
        -- destruct (haveTrailingSlash pp);
             injection H as <- <- _ <-; exists [Opened fd]; cbn; auto.
Qed.

(** The events of a call of [open] that answers. *)
Lemma open_success_events (this : FileSystemStorage)
    (p : FilePath) (h : StorageRequestHeaders)
    (w w' : W) (tr tr' : list Event) (info : StorageInfo) :
  open (FS := Traced FS) this p h (w, tr) = (inr info, (w', tr')) ->
  exists evs,
    tr' = tr ++ evs
    /\ (most_held [] evs <= 1)%nat
    /\ let fd := fd_fd (attachedData info) in
       if isDirectory (fd_stats (attachedData info))
       then evs = [Opened fd; CloseCalled fd]
       else outstanding [] evs = [fd].
Proof.
  unfold open. destruct (parsePath this p) as [e0|pp]; [discriminate|].
  unfold Exc.try_catch.
  destruct (tryBody _ _ _ _ _) as [[e1|r1] [l1 [w1 tr1]]] eqn:Eb.
  { pose proof (catchClause_throws (FS := Traced FS) e1 (l1, (w1, tr1)))
      as (e3 & [l3 [w3 tr3]] & E3).
    rewrite E3. discriminate. }
  destruct r1 as [i|].
  - pose proof (tryBody_listing (FS := Traced FS) _ _ _ _ _ _ _ _ _ Eb)
      as (_ & Hd & _).
    apply tryBody_one_at_a_time in Eb; [|reflexivity].
    destruct Eb as (evs & -> & Hmost & ->).
    intros [= <- _ <-]. eexists. split; [reflexivity|].
    split; [assumption|]. cbv zeta. now rewrite Hd.
  - assert (Hl : l_fd (initialLocals this pp) = None) by reflexivity.
    pose proof (tryBody_file (FS := Traced FS) _ _ _ _ _ _ _ _ Hl Eb)
      as (_ & fd & st & Hfd & Hst & Hd & _).
    apply tryBody_one_at_a_time in Eb; [|reflexivity].
    destruct Eb as (evs & -> & Hmost & Hout).
    rewrite Hfd, Hst. intros [= <- _ <-].
    exists evs. split; [reflexivity|]. split; [assumption|].
    cbn. rewrite Hd. unfold held_by in Hout. now rewrite Hfd in Hout.
Qed.

(** X14.  Whatever the [fs] module does, [open] never has more than
    one descriptor outstanding, and it leaves outstanding exactly what
    it answers: nothing when it throws, the descriptor of the answer
    when it answers a file; when it answers a directory, all it did
    was to open and close the descriptor of the answer. *)
Theorem open_descriptor_discipline (this : FileSystemStorage)
    (p : FilePath) (h : StorageRequestHeaders)
    (w w' : W) (tr tr' : list Event) (r : Error + StorageInfo) :
  open (FS := Traced FS) this p h (w, tr) = (r, (w', tr')) ->
  exists evs,
    tr' = tr ++ evs
    /\ (most_held [] evs <= 1)%nat
    /\ match r with
       | inl _ => outstanding [] evs = []
       | inr info =>
           let fd := fd_fd (attachedData info) in
           if isDirectory (fd_stats (attachedData info))
           then evs = [Opened fd; CloseCalled fd]
           else outstanding [] evs = [fd]
       end.
Proof.
  destruct r as [e|info]; [|apply open_success_events].
  unfold open. destruct (parsePath this p) as [e0|pp].
  { intros [= _ <- <-]. exists []. rewrite app_nil_r. cbn. auto. }
  unfold Exc.try_catch.
  destruct (tryBody _ _ _ _ _) as [[e1|r1] [l1 [w1 tr1]]] eqn:Eb.
  - apply tryBody_one_at_a_time in Eb; [|reflexivity].
    destruct Eb as (evs & -> & Hmost & Hout).
    pose proof (catchClause_throws (FS := Traced FS) e1 (l1, (w1, tr ++ evs)))
      as (e3 & [l3 [w3 tr3]] & E3).
    rewrite E3. apply catchClause_trace in E3. subst tr3.
    intros [= _ _ <-].
    rewrite <- app_assoc. eexists. split; [reflexivity|].
    rewrite most_held_app, outstanding_app. unfold held_by in Hout.
    destruct (l_fd l1) as [fd|]; cbn [most_held outstanding].
    + destruct Hout as [-> | ->]; cbn; rewrite ?Z.eqb_refl; cbn;
        (split; [lia | reflexivity]).
    + destruct Hout as [-> | ->]; cbn; (split; [lia | reflexivity]).
  - destruct r1 as [i|]; [discriminate|].
    apply (tryBody_falls_through (FS := Traced FS)) in Eb.
    destruct Eb as ((fd' & st' & -> & ->) & _). discriminate.
Qed.

(** X15.  [close] after a successful [open] leaves no descriptor
    outstanding, however the [fs] module's [close] ends: for a file it
    is the call that releases the descriptor; for a directory listing
    it is a second call of [close] on the descriptor that [open] has
    closed already. *)
Theorem open_then_close (this : FileSystemStorage) (p : FilePath)
    (h : StorageRequestHeaders) (w w1 w2 : W) (tr tr1 tr2 : list Event)
    (info : StorageInfo) (r : Error + unit) :
  open (FS := Traced FS) this p h (w, tr) = (inr info, (w1, tr1)) ->
  close (FS := Traced FS) info (w1, tr1) = (r, (w2, tr2)) ->
  let fd := fd_fd (attachedData info) in
  exists evs,
    tr2 = tr ++ evs
    /\ outstanding [] evs = []
    /\ (most_held [] evs <= 1)%nat
    /\ (isDirectory (fd_stats (attachedData info)) = true ->
        evs = [Opened fd; CloseCalled fd; CloseCalled fd]).
Proof.
  intros Ho Hc fd.
  apply open_success_events in Ho as (evs & -> & Hmost & Hk).
  cbv zeta in Hk. fold fd in Hk.
  unfold close in Hc. cbn [fsClose Traced fst snd] in Hc. fold fd in Hc.
  destruct (fsClose fd w1) as [r' w3]. injection Hc as _ _ <-.
  exists (evs ++ [CloseCalled fd]). rewrite <- app_assoc.
  split; [reflexivity|].
  rewrite outstanding_app, most_held_app.
  destruct (isDirectory (fd_stats (attachedData info))).
  - subst evs. cbn. rewrite !Z.eqb_refl. cbn. auto.
  - rewrite Hk. cbn. rewrite Z.eqb_refl. cbn.
    repeat split; [lia | discriminate].
Qed.

End MoreTracedFacts.

Lemma open_descriptor_discipline_witness :
  exists r w' tr',
    open (FS := Traced Posix.fs) (IM := Posix.imports)
      Demo.precompressed (PathString `"/list.json") Demo.any_encoding
      (Demo.disk, [])
    = (r, (w', tr'))
    /\ exists evs,
         tr' = [] ++ evs
         /\ (most_held [] evs <= 1)%nat
         /\ match r with
            | inl _ => outstanding [] evs = []
            | inr info =>
                let fd := fd_fd (attachedData info) in
                if isDirectory (fd_stats (attachedData info))
                then evs = [Opened fd; CloseCalled fd]
                else outstanding [] evs = [fd]
            end.
Proof.
  eexists. eexists. eexists.
  refine ((fun H => conj H (open_descriptor_discipline
                              Posix.fs _ _ _ _ _ _ _ _ H)) _).
  vm_compute. reflexivity.
Defined.

Lemma open_then_close_witness :
  exists info w1 tr1 r w2 tr2,
    open (FS := Traced Posix.fs) (IM := Posix.imports)
      Demo.listing (PathString `"/docs/") Demo.no_headers (Demo.disk, [])
    = (inr info, (w1, tr1))
    /\ close (FS := Traced Posix.fs) info (w1, tr1) = (r, (w2, tr2))
    /\ let fd := fd_fd (attachedData info) in
       exists evs,
         tr2 = [] ++ evs
         /\ outstanding [] evs = []
         /\ (most_held [] evs <= 1)%nat
         /\ (isDirectory (fd_stats (attachedData info)) = true ->
             evs = [Opened fd; CloseCalled fd; CloseCalled fd]).
Proof.
  do 6 eexists.
  split; [vm_compute; reflexivity|].
  split; [vm_compute; reflexivity|].
  eapply (open_then_close Posix.fs (IM := Posix.imports)
            Demo.listing (PathString `"/docs/")
            Demo.no_headers Demo.disk);
    vm_compute; reflexivity.
Defined.

(* ================================================================== *)
(** * More of the constructor *)

(** X16.  In the preference map that the constructor builds for a
    mapping, every declared encoding is found under its name with its
    pattern and, as its order, its place in the declaration; of two
    declarations of one name the last one stands, with its own
    place. *)
Theorem declared_preference_lookup (cfg : ContentEncodingMapping)
    (pre post : list ContentEncodingPath) (e : ContentEncodingPath) :
  encodings cfg = pre ++ e :: post ->
  (forall e', In e' post -> cep_name e' <> cep_name e) ->
  JsMap.get (cep_name e) (encodingPreferences (normalizeMapping cfg))
  = Some {| path := cep_path e; order := Z.of_nat (List.length pre) |}.
Proof.
  intros Henc Hpost.
  assert (Hdecl : JsMap.get (cep_name e) (declaredPreferences cfg)
                  = Some {| path := cep_path e;
                            order := Z.of_nat (List.length pre) |}).
  { unfold declaredPreferences. rewrite Henc, mapi_from_app.
    cbn [mapi_from]. apply get_fold_last.
    apply mapi_from_names. apply Forall_forall. exact Hpost. }
  unfold normalizeMapping.
  destruct (JsMap.get `"identity" (declaredPreferences cfg)) as [i|] eqn:Ei;
    cbn [encodingPreferences]; [exact Hdecl|].
  rewrite get_set_other; [exact Hdecl|].
  intros Heq. rewrite Heq in Hdecl. congruence.
Qed.

Lemma declared_preference_lookup_witness :
  JsMap.get `"gzip" (encodingPreferences (normalizeMapping Demo.json_mapping))
  = Some {| path := `"$1.gz"; order := 1 |}.
Proof.
  refine (declared_preference_lookup Demo.json_mapping
            [ {| cep_name := `"br"; cep_path := `"$1.br" |} ] []
            {| cep_name := `"gzip"; cep_path := `"$1.gz" |} eq_refl _).
  intros e' [].
Defined.

(* ================================================================== *)
(** * The normalized path is normalized *)

Module UrlStable.
Import Url.
Local Open Scope N_scope.

Lemma stable_path_range (c : N) :
  stable_path c ->
  32 < c <= 126 /\ c <> QUESTION /\ c <> HASH /\ c <> SLASH
  /\ c <> BACKSLASH.
Proof.
  unfold stable_path, in_path_set, in_query_set, in_c0_control_set,
    QUESTION, HASH, SLASH, BACKSLASH.
  rewrite !orb_false_iff, !N.eqb_neq, N.leb_gt, N.ltb_ge. lia.
Qed.

Lemma stable_query_range (c : N) :
  stable_query c -> 32 < c <= 126 /\ c <> HASH.
Proof.
  unfold stable_query, in_special_query_set, in_query_set,
    in_c0_control_set, HASH.
  rewrite !orb_false_iff, !N.eqb_neq, N.leb_gt, N.ltb_ge. lia.
Qed.

Lemma hex_digit_nibble (n : N) :
  n < 16 -> 48 <= hex_digit n <= 57 \/ 65 <= hex_digit n <= 70.
Proof. unfold hex_digit. destruct (N.ltb_spec n 10); lia. Qed.

Lemma percent_or_hex_stable (c : N) :
  c = PERCENT \/ 48 <= c <= 57 \/ 65 <= c <= 70 ->
  stable_path c /\ stable_query c.
Proof.
  unfold stable_path, stable_query, in_path_set, in_special_query_set,
    in_query_set, in_c0_control_set, PERCENT, QUESTION, HASH, SLASH,
    BACKSLASH.
  rewrite !orb_false_iff, !N.eqb_neq, N.leb_gt, N.ltb_ge. lia.
Qed.

Lemma percent_encode_byte_stable (b : N) :
  b < 256 ->
  Forall (fun c => stable_path c /\ stable_query c) (percent_encode_byte b).
Proof.
  intros Hb. unfold percent_encode_byte.
  assert (H1 : b / 16 < 16) by (apply N.Div0.div_lt_upper_bound; lia).
  assert (H2 : b mod 16 < 16) by (apply N.mod_lt; lia).
  apply hex_digit_nibble in H1, H2.
  repeat constructor; apply percent_or_hex_stable; auto.
Qed.

Lemma utf8_encode_bytes (cp : N) :
  cp < 2097152 -> Forall (fun b => b < 256) (utf8_encode cp).
Proof.
  intros Hcp. unfold utf8_encode.
  assert (M : forall a, a mod 64 < 64) by (intros a; apply N.mod_lt; lia).
  destruct (N.ltb_spec cp 128); [repeat constructor; lia|].
  destruct (N.ltb_spec cp 2048).
  { assert (cp / 64 < 32) by (apply N.Div0.div_lt_upper_bound; lia).
    pose proof (M cp). repeat constructor; lia. }
  destruct (N.ltb_spec cp 65536).
  { assert (cp / 4096 < 16) by (apply N.Div0.div_lt_upper_bound; lia).
    pose proof (M cp). pose proof (M (cp / 64)).
    repeat constructor; lia. }
  assert (cp / 262144 < 8) by (apply N.Div0.div_lt_upper_bound; lia).
  pose proof (M cp). pose proof (M (cp / 64)). pose proof (M (cp / 4096)).
  repeat constructor; lia.
Qed.

Lemma to_scalars_bound (n : nat) :
  forall s, (List.length s <= n)%nat -> code_units s ->
            Forall (fun c => c < 2097152) (to_scalars s).
Proof.
  unfold code_units.
  induction n as [|n IH]; intros s Hlen Hs.
  - destruct s; [constructor | simpl in Hlen; lia].
  - destruct s as [|c r]; [constructor|].
    inversion Hs as [|? ? Hc Hr]; subst. cbn [List.length] in Hlen.
    cbn [to_scalars]. unfold is_high_surrogate, is_low_surrogate.
    destruct (N.leb_spec 55296 c), (N.leb_spec c 56319); cbn [andb].
    + destruct r as [|d r'].
      * repeat constructor.
      * inversion Hr as [|? ? Hd Hr']; subst. cbn [List.length] in Hlen.
        destruct (N.leb_spec 56320 d), (N.leb_spec d 57343); cbn [andb].
        -- constructor; [lia|]. apply IH; [lia | assumption].
        -- constructor; [lia|]. apply IH; [cbn [List.length]; lia | assumption].
        -- constructor; [lia|]. apply IH; [cbn [List.length]; lia | assumption].
        -- constructor; [lia|]. apply IH; [cbn [List.length]; lia | assumption].
    + destruct (N.leb_spec 56320 c), (N.leb_spec c 57343); cbn [andb];
        (constructor; [lia|]); apply IH; (lia || assumption).
    + destruct (N.leb_spec 56320 c), (N.leb_spec c 57343); cbn [andb];
        (constructor; [lia|]); apply IH; (lia || assumption).
    + destruct (N.leb_spec 56320 c), (N.leb_spec c 57343); cbn [andb];
        (constructor; [lia|]); apply IH; (lia || assumption).
Qed.

Lemma strip_trailing_In (s : list N) (x : N) :
  In x (strip_trailing s) -> In x s.
Proof.
  induction s as [|c r IH]; cbn [strip_trailing]; [auto|].
  destruct (strip_trailing r) as [|y r'].
  - destruct (is_c0_or_space c); [contradiction|].
    intros [<- | []]. now left.
  - intros [<- | H]; [now left | right; now apply IH].
Qed.

Lemma preprocess_bound (s : jsstr) :
  code_units s -> Forall (fun c => c < 2097152) (preprocess s).
Proof.
  intros Hs. unfold preprocess. apply Forall_forall. intros x Hx.
  apply filter_In in Hx as [Hx _]. apply strip_trailing_In in Hx.
  pose proof (to_scalars_bound (List.length s) s (Nat.le_refl _) Hs) as Hb.
  rewrite Forall_forall in Hb. now apply Hb.
Qed.

Lemma end_segment_stable (b : bool) (path : list jsstr) (buf : jsstr) :
  Forall (Forall stable_path) path -> Forall stable_path buf ->
  Forall (Forall stable_path) (end_segment b path buf).
Proof.
  intros Hp Hb. unfold end_segment.
  destruct (is_double_dot buf).
  - destruct b; [now apply Forall_removelast|].
    apply Forall_app. split; [now apply Forall_removelast|].
    repeat constructor.
  - destruct (is_single_dot buf).
    + destruct b; [assumption|].
      apply Forall_app. split; [assumption | repeat constructor].
    + apply Forall_app. split; [assumption | now repeat constructor].
Qed.

Lemma query_state_stable (input : list N) :
  Forall (fun c => c < 2097152) input ->
  Forall stable_query (query_state input).
Proof.
  induction 1 as [|c r Hc _ IH]; cbn [query_state]; [constructor|].
  destruct (c =? HASH); [constructor|].
  apply Forall_app. split; [|exact IH].
  unfold percent_encode.
  destruct (in_special_query_set c) eqn:E.
  - apply Forall_flat_map.
    eapply Forall_impl; [|apply utf8_encode_bytes, Hc].
    intros b Hb. eapply Forall_impl; [|apply percent_encode_byte_stable, Hb].
    now intros x [_ Hx].
  - now repeat constructor.
Qed.

Lemma path_state_stable (input : list N) :
  Forall (fun c => c < 2097152) input ->
  forall path buf,
    Forall (Forall stable_path) path -> Forall stable_path buf ->
    Forall (Forall stable_path) (fst (path_state input path buf))
    /\ Forall stable_query (snd (path_state input path buf)).
Proof.
  induction 1 as [|c r Hc Hr IH]; intros path buf Hp Hb; cbn [path_state].
  - split; [now apply end_segment_stable | constructor].
  - destruct (N.eqb_spec c SLASH) as [->|Hs]; cbn [orb].
    { apply IH; [now apply end_segment_stable | constructor]. }
    destruct (N.eqb_spec c BACKSLASH) as [->|Hbs].
    { apply IH; [now apply end_segment_stable | constructor]. }
    destruct (c =? QUESTION).
    { split; [now apply end_segment_stable | now apply query_state_stable]. }
    destruct (c =? HASH).
    { split; [now apply end_segment_stable | constructor]. }
    apply IH; [assumption|].
    apply Forall_app. split; [assumption|].
    unfold percent_encode. destruct (in_path_set c) eqn:E.
    + apply Forall_flat_map.
      eapply Forall_impl; [|apply utf8_encode_bytes, Hc].
      intros b Hb'.
      eapply Forall_impl; [|apply percent_encode_byte_stable, Hb'].
      now intros x [Hx _].
    + repeat constructor; assumption.
Qed.

Lemma path_state_nonempty (input : list N) :
  forall path buf, fst (path_state input path buf) <> [].
Proof.
  assert (He : forall path buf, end_segment false path buf <> []).
  { intros path buf. unfold end_segment.
    destruct (is_double_dot buf); [|destruct (is_single_dot buf)];
      intros H; apply app_eq_nil in H as [_ H]; discriminate. }
  induction input as [|c r IH]; intros path buf; cbn [path_state].
  - apply He.
  - destruct ((c =? SLASH) || (c =? BACKSLASH)); [apply IH|].
    destruct (c =? QUESTION); [apply He|].
    destruct (c =? HASH); [apply He | apply IH].
Qed.

(** Reading back what the parser wrote. *)
Lemma path_replay_seg (seg : jsstr) :
  Forall stable_path seg ->
  forall tail path buf,
    path_state (seg ++ tail) path buf = path_state tail path (buf ++ seg).
Proof.
  induction 1 as [|c seg Hc _ IH]; intros tail path buf.
  - now rewrite app_nil_r.
  - cbn [app path_state].
    pose proof (stable_path_range c Hc) as (_ & Hq & Hh & Hs & Hb).
    destruct Hc as (Hset & _).
    apply N.eqb_neq in Hq, Hh, Hs, Hb. rewrite Hs, Hb, Hq, Hh. cbn [orb].
    unfold percent_encode. rewrite Hset, IH, <- app_assoc. reflexivity.
Qed.

Lemma query_replay (q : jsstr) :
  Forall stable_query q -> query_state q = q.
Proof.
  induction 1 as [|c q Hc _ IH]; [reflexivity|]. cbn [query_state].
  pose proof (stable_query_range c Hc) as (_ & Hh).
  apply N.eqb_neq in Hh. rewrite Hh. unfold percent_encode.
  unfold stable_query in Hc. rewrite Hc, IH. reflexivity.
Qed.

Lemma end_segment_kept (b : bool) (path : list jsstr) (buf : jsstr) :
  good_seg buf -> end_segment b path buf = path ++ [buf].
Proof.
  intros (Hs & Hd & _). unfold end_segment. now rewrite Hd, Hs.
Qed.

Lemma replay_segs (search q : jsstr) :
  (search = [] /\ q = []) \/ (search = QUESTION :: q /\ Forall stable_query q) ->
  forall rest path buf,
    good_seg buf -> Forall good_seg rest ->
    Forall (Forall stable_path) rest ->
    path_state (serialize_path rest ++ search) path buf
    = (path ++ [buf] ++ rest, q).
Proof.
  intros Hsearch. induction rest as [|seg rest IH];
    intros path buf Hbuf Hg Hst.
  - cbn [serialize_path flat_map app].
    destruct Hsearch as [[-> ->] | [-> Hq]]; cbn [path_state].
    + now rewrite end_segment_kept.
    + cbn. rewrite end_segment_kept by assumption.
      now rewrite query_replay.
  - inversion Hg as [|? ? Hseg Hg']; subst.
    inversion Hst as [|? ? Hsseg Hst']; subst.
    cbn [serialize_path flat_map]. fold (serialize_path rest).
    cbn [app path_state]. rewrite N.eqb_refl. cbn [orb].
    rewrite <- app_assoc, path_replay_seg by assumption.
    rewrite end_segment_kept by assumption. cbn [app].
    rewrite IH by assumption. now rewrite <- app_assoc.
Qed.

Lemma preprocess_id (n : jsstr) :
  Forall (fun c => 32 < c <= 126) n -> preprocess n = n.
Proof.
  intros H. unfold preprocess.
  assert (Hsc : to_scalars n = n).
  { induction H as [|c r Hc _ IH]; [reflexivity|]. cbn [to_scalars].
    unfold is_high_surrogate, is_low_surrogate.
    destruct (N.leb_spec 55296 c); [lia|].
    destruct (N.leb_spec 56320 c); [lia|]. cbn [andb]. now rewrite IH. }
  assert (Hst : strip_trailing n = n).
  { clear Hsc.
    induction H as [|c r Hc _ IH]; [reflexivity|]. cbn [strip_trailing].
    rewrite IH. destruct r; [|reflexivity].
    unfold is_c0_or_space. destruct (N.leb_spec c 32); [lia | reflexivity]. }
  rewrite Hsc, Hst. clear Hsc Hst.
  induction H as [|c r Hc _ IH]; [reflexivity|]. cbn [filter].
  assert (E : is_tab_or_newline c = false).
  { unfold is_tab_or_newline.
    destruct (N.eqb_spec c 9); [lia|]. destruct (N.eqb_spec c 10); [lia|].
    destruct (N.eqb_spec c 13); [lia | reflexivity]. }
  rewrite E. cbn [negb]. now rewrite IH.
Qed.

(** What the parser answers on a string of code units. *)
Lemma parse_shape (s : jsstr) :
  code_units s ->
  exists seg1 others query,
    parse s
    = {| pathname := serialize_path (seg1 :: others);
         search := match query with
                   | [] => []
                   | _ :: _ => QUESTION :: query
                   end |}
    /\ Forall good_seg (seg1 :: others)
    /\ Forall (Forall stable_path) (seg1 :: others)
    /\ Forall stable_query query.
Proof.
  intros Hs. unfold parse.
  pose proof (preprocess_bound s Hs) as Hb.
  destruct (preprocess s) as [|c0 rest].
  { exists [], [], []. repeat split; repeat constructor. }
  inversion Hb as [|? ? _ Hrest]; subst.
  pose proof (UrlFacts.path_state_good rest [] []
                (Forall_nil _) (Forall_nil _)) as Hg.
  pose proof (path_state_stable rest Hrest [] [] (Forall_nil _) (Forall_nil _))
    as [Hst Hq].
  pose proof (path_state_nonempty rest [] []) as Hne.
  unfold Js.str, jsstr in *.
  destruct (path_state rest (@nil (list N)) (@nil N)) as [segs query].
  cbn [fst snd] in *.
  destruct segs as [|seg1 others]; [exfalso; now apply Hne|].
  exists seg1, others, query. auto.
Qed.

(** Pathname and search hold printable ASCII only, without the space,
    the double quote, the hash and the angle brackets. *)
Lemma parse_range (s : jsstr) :
  code_units s ->
  Forall (fun c => 32 < c <= 126
                   /\ c <> 34 /\ c <> 35 /\ c <> 60 /\ c <> 62)
         (pathname (parse s) ++ search (parse s)).
Proof.
  intros Hs.
  destruct (parse_shape s Hs) as (seg1 & others & query & -> & _ & Hst & Hq).
  cbn [pathname search]. apply Forall_app. split.
  - unfold serialize_path. apply Forall_flat_map.
    eapply Forall_impl; [|exact Hst].
    intros seg Hseg. constructor; [unfold SLASH; lia|].
    eapply Forall_impl; [|exact Hseg].
    intros c (Hc & _). revert Hc.
    unfold in_path_set, in_query_set, in_c0_control_set, QUESTION, HASH.
    rewrite !orb_false_iff, !N.eqb_neq, N.leb_gt, N.ltb_ge. lia.
  - destruct query as [|q0 query]; [constructor|].
    constructor; [unfold QUESTION; lia|].
    eapply Forall_impl; [|exact Hq].
    intros c Hc. revert Hc.
    unfold stable_query, in_special_query_set, in_query_set,
      in_c0_control_set, HASH.
    rewrite !orb_false_iff, !N.eqb_neq, N.leb_gt, N.ltb_ge. lia.
Qed.

(** Parsing pathname + search of a parsed reference gives the same
    pathname and search again. *)
Lemma parse_fixed (s : jsstr) :
  code_units s ->
  parse (pathname (parse s) ++ search (parse s)) = parse s.
Proof.
  intros Hs. pose proof (parse_range s Hs) as Hrange.
  destruct (parse_shape s Hs)
    as (seg1 & others & query & E & Hg & Hst & Hq).
  rewrite E in *. clear E. cbn [pathname search] in *.
  inversion Hg as [|? ? Hg1 Hgo]; subst.
  inversion Hst as [|? ? Hst1 Hsto]; subst.
  set (srch := match query with [] => [] | _ :: _ => QUESTION :: query end)
    in *.
  assert (Hsearch : (srch = [] /\ query = [])
                    \/ (srch = QUESTION :: query /\ Forall stable_query query)).
  { subst srch. destruct query; [now left | right; now split]. }
  unfold parse. rewrite preprocess_id.
  2: { eapply Forall_impl; [|exact Hrange]. now intros c [Hc _]. }
  cbn [serialize_path flat_map]. fold (serialize_path others).
  cbn [app]. rewrite <- app_assoc, path_replay_seg by assumption.
  rewrite (replay_segs srch query Hsearch) by assumption.
  reflexivity.
Qed.

End UrlStable.

(** X17.  The normalized path that a [NotNormalizedError] carries is
    normalized: asked with it, [parsePath] finds the same parts and
    goes on to check them, so that a client sent to the normalized
    path is not sent on again. *)
Theorem normalized_path_is_normalized (this : FileSystemStorage)
    (s : jsstr) (p : FilePath) (parts : list jsstr) (normalized : jsstr) :
  code_units s ->
  parsePath this (PathString s)
  = inl (NotNormalizedError p parts normalized) ->
  decodePath (PathString normalized) = inr parts
  /\ parsePath this (PathString normalized)
     = checkParts this (PathString normalized) parts.
Proof.
  intros Hs H.
  assert (Hd : decodePath (PathString normalized) = inr parts).
  { unfold parsePath in H.
    destruct (decodePath (PathString s)) as [e|parts0] eqn:Ed.
    - injection H as ->. cbn [decodePath] in Ed.
      destruct (negb (Js.startsWith SLASH s)); [discriminate|].
      destruct (map_decodeURIComponent _) as [ds|] eqn:Em; [|discriminate].
      destruct (negb (Js.eqb s _)); [|discriminate].
      injection Ed as _ -> <-.
      cbn [decodePath]. rewrite (UrlStable.parse_fixed s Hs).
      destruct (UrlFacts.parse_pathname_parts s) as (segs & _ & Hser & _).
      assert (Hstart : Js.startsWith SLASH
                         (Url.pathname (Url.parse s)
                          ++ Url.search (Url.parse s)) = true).
      { rewrite Hser. destruct segs as [|seg segs'].
        - exfalso. revert Hser. unfold Url.parse.
          destruct (Url.preprocess s) as [|c0 rest]; [discriminate|].
          pose proof (UrlStable.path_state_nonempty rest [] []) as Hne.
          destruct (Url.path_state rest [] []) as [sg q].
          cbn in *. destruct sg; [congruence | discriminate].
        - reflexivity. }
      rewrite Hstart. cbn [negb]. rewrite Em, Js_eqb_refl. reflexivity.
    - apply checkParts_rejects in H
        as [[[=] _] | [([=] & _) | [([=] & _) | ([=] & _)]]]. }
  split; [exact Hd|]. unfold parsePath. now rewrite Hd.
Qed.

Lemma normalized_path_is_normalized_witness :
  decodePath (PathString `"/todo.txt") = inr [[]; `"todo.txt"]
  /\ parsePath Demo.plain (PathString `"/todo.txt")
     = checkParts Demo.plain (PathString `"/todo.txt") [[]; `"todo.txt"].
Proof.
  refine (normalized_path_is_normalized Demo.plain `"/users/../../todo.txt"
            (PathString `"/users/../../todo.txt") [[]; `"todo.txt"]
            `"/todo.txt" _ eq_refl).
  repeat constructor.
Defined.

(** X18.  A string that [parsePath] accepts is written in printable
    ASCII without the space, the double quote, the hash and the angle
    brackets: every other character has to come percent-encoded. *)
Theorem accepted_string_is_encoded (this : FileSystemStorage) (s : jsstr)
    (pp : ParsedPath) :
  code_units s ->
  parsePath this (PathString s) = inr pp ->
  Forall (fun c => (32 < c <= 126)%N
                   /\ c <> 34%N /\ c <> HASH /\ c <> 60%N /\ c <> 62%N) s.
Proof.
  intros Hs Hp.
  apply parsePath_accepts in Hp as (parts & Hd & _).
  apply decodePath_string in Hd as (E & _).
  rewrite E. exact (UrlStable.parse_range s Hs).
Qed.

Lemma accepted_string_is_encoded_witness :
  Forall (fun c => (32 < c <= 126)%N
                   /\ c <> 34%N /\ c <> HASH /\ c <> 60%N /\ c <> 62%N)
         `"/foo%20bar".
Proof.
  refine (accepted_string_is_encoded Demo.plain `"/foo%20bar"
            {| pathParts := [[]; `"foo bar"]; haveTrailingSlash := false |}
            _ eq_refl).
  repeat constructor.
Defined.

(* ================================================================== *)
(** * Path safety of what [open] answers *)

(** X19.  For every reference, string or array, on which [open]
    succeeds: every part that the reference decodes to is neither [.]
    nor [..], holds no forbidden character and is not matched by the
    ignore pattern, and so is every part of the answer; the parts of
    the answer are the decoded parts, or, for decoded parts that end
    in exactly one trailing empty part, these without the last under
    [list-files], and these with [index.html] in place of the last
    under [serve-index].  That [index.html] is the only part of an
    answer that was not tested against the ignore pattern. *)
Theorem open_path_safety {W : Type} {FS : FSModule W} {IM : Imports}
    (this : FileSystemStorage) (p : FilePath) (h : StorageRequestHeaders)
    (w w' : W) (info : StorageInfo) :
  open this p h w = (inr info, w') ->
  exists parts,
    decodePath p = inr parts
    /\ Forall safe_segment parts
    /\ (forall re, ignorePattern this = Some re ->
                   Forall (fun seg => Js.test re seg = false) parts)
    /\ Forall safe_segment (fd_pathParts (attachedData info))
    /\ (fd_pathParts (attachedData info) = parts
        \/ (one_trailing_empty parts
            /\ ((onDirectory this = ListFiles
                 /\ fd_pathParts (attachedData info) = removelast parts)
                \/ (onDirectory this = ServeIndex
                    /\ fd_pathParts (attachedData info)
                       = removelast parts ++ [`"index.html"])))).
Proof.
  intros H. apply open_succeeds in H as (pp & Hp & -> & _).
  pose proof (parsePath_accepts _ _ _ Hp) as (parts & Hd & Hs & Hi & _).
  exists parts. split; [exact Hd|]. split; [exact Hs|]. split; [exact Hi|].
  unfold parsePath in Hp. rewrite Hd in Hp.
  apply checkParts_accepts in Hp as (_ & _ & Hc).
  destruct Hc as [[_ ->] | [Hidx Hc]]; cbn [pathParts].
  { split; [exact Hs | now left]. }
  assert (Hone : one_trailing_empty parts).
  { apply decodePath_sentinel in Hd as (rest & ->).
    apply trailing_decompose; [|exact Hidx].
    unfold Js.str, jsstr in *. rewrite Hidx. cbn [List.length]. lia. }
  destruct Hc as [[Ho ->] | [Ho ->]]; cbn [pathParts].
  - split; [now apply Forall_removelast|]. right. auto.
  - split; [|right; auto].
    apply Forall_app. split; [now apply Forall_removelast|].
    constructor; [apply safe_segment_index_html | constructor].
Qed.

Lemma open_path_safety_witness :
  exists info w',
    open (FS := Posix.fs) (IM := Posix.imports)
      Demo.plain (PathString `"/hello.txt") Demo.no_headers Demo.disk
    = (inr info, w')
    /\ exists parts,
         decodePath (PathString `"/hello.txt") = inr parts
         /\ Forall safe_segment parts
         /\ (forall re, ignorePattern Demo.plain = Some re ->
                        Forall (fun seg => Js.test re seg = false) parts)
         /\ Forall safe_segment (fd_pathParts (attachedData info))
         /\ (fd_pathParts (attachedData info) = parts
             \/ (one_trailing_empty parts
                 /\ ((onDirectory Demo.plain = ListFiles
                      /\ fd_pathParts (attachedData info)
                         = removelast parts)
                     \/ (onDirectory Demo.plain = ServeIndex
                         /\ fd_pathParts (attachedData info)
                            = removelast parts ++ [`"index.html"])))).
Proof.
  eexists. eexists.
  refine ((fun H => conj H (open_path_safety _ _ _ _ _ _ H)) _).
  vm_compute. reflexivity.
Defined.
